(** * Correlated bandits: uniform sampling and Successive Rejects

    A shallow embedding of [bandits/CorrelatedBandit.ipynb] and the
    properties of its best-arm identification routines.

    Modelling conventions.
    - Python [int]s are [Z] (arm indices and counts that index lists are
      [nat]).
    - Python/NumPy floating point numbers are idealised: the phase schedule
      of [sr_trials] only adds, multiplies, divides and floors, and is
      computed over the rationals [Q]; sample values, variances,
      correlations and MSE estimates are real numbers [R].  Rounding and
      NaN are not represented.
    - NumPy arrays are lists (vectors) and lists of rows (matrices).
    - A Python [dict] is an association list in insertion order; a Python
      [set] is a [gset] together with an iteration order that the program
      does not control ([PySet]).
    - Exceptions are values of [result]; the random generator of the
      bandit is an explicit state threaded through every draw. *)

From Stdlib Require Import ZArith QArith Qround Reals Lqa Lra Lia.
From stdpp Require Import base option list sets gmap.

Open Scope Z_scope.

(** ** Exceptions and the error monad *)

(** [InvalidBudget] is the error kind of the design document for a budget
    that is too small; the other constructors are the exceptions the
    interpreter and NumPy raise in the modelled statements. *)
Inductive exn : Set :=
  | ValueError
  | IndexError
  | KeyError
  | NameError
  | ZeroDivisionError
  | InvalidBudget.

Inductive result (A : Type) : Type :=
  | Ok (a : A)
  | Raise (e : exn).
Arguments Ok {A} a.
Arguments Raise {A} e.

#[global] Instance result_ret : MRet result := fun A a => Ok a.
#[global] Instance result_bind : MBind result := fun A B k r =>
  match r with
  | Ok a => k a
  | Raise e => Raise e
  end.

(** ** Python built-ins *)

(** [range(a, b)] *)
Definition range (a b : Z) : list Z :=
  map (fun i => a + Z.of_nat i) (seq 0 (Z.to_nat (b - a))).

(** [sum(...)] over rationals: a left fold that starts from [0]. *)
Definition py_sum (l : list Q) : Q := fold_left Qplus l 0%Q.

(** ** The phase schedule of Successive Rejects *)

(** [ck] of [sr_trials]: [(K-1)/2 + sum(j/(K-j) for j in range(1, K-1))]. *)
Definition sr_ck (K : Z) : Q :=
  (inject_Z (K - 1) / 2 +
   py_sum (map (fun j => inject_Z j / inject_Z (K - j)) (range 1 (K - 1))))%Q.

(** [K2 = K*(K-1)/2] *)
Definition sr_K2 (K : Z) : Q := (inject_Z (K * (K - 1)) / 2)%Q.

(** [sr_trials(n, K)]; [x // y] on floats is the floor of the quotient, so
    [-(-x // y)] is the "ceiling division" of the source comment. *)
Definition sr_trials (n K : Z) : list Z :=
  let ck := sr_ck K in
  let K2 := sr_K2 K in
  map (fun k => - Qfloor (- (inject_Z n - K2) / (ck * inject_Z (K + 1 - k)))%Q)
      (range 1 K).

(** [ns = [0] + sr_trials(trials, num_arms)] *)
Definition sr_ns (trials K : Z) : list Z := 0 :: sr_trials trials K.

(** [np.subtract(ns[1:], ns[:-1])] *)
Definition np_subtract (xs ys : list Z) : list Z := zip_with Z.sub xs ys.

(** [ts], the number of draws each phase adds for every pair. *)
Definition sr_ts (trials K : Z) : list Z :=
  let ns := sr_ns trials K in
  np_subtract (drop 1 ns) (take (length ns - 1) ns).

(** *** The schedule as the design document words it *)

(** [Σ_{j = lo}^{lo + cnt - 1} f j] *)
Fixpoint big_sum (f : Z -> Q) (lo : Z) (cnt : nat) : Q :=
  match cnt with
  | O => 0%Q
  | S c => (f lo + big_sum f (lo + 1) c)%Q
  end.


(** The normalising constant with summand [j/(K-j)]. *)
Definition weighted_logbar (K : Z) : Q :=
  (inject_Z (K - 1) / 2 +
   big_sum (fun j => inject_Z j / inject_Z (K - j)) 1 (Z.to_nat (K - 2)))%Q.

(** [n_k = ceil((budget - K(K-1)/2) / (c * (K+1-k)))] for a constant [c]. *)
Definition closed_form_n (c : Q) (budget K k : Z) : Z :=
  Qceiling ((inject_Z budget - inject_Z (K * (K - 1)) / 2) /
            (c * inject_Z (K + 1 - k)))%Q.


(** ** NumPy on real vectors and matrices *)

Abbreviation vec := (list R).
Abbreviation matrix := (list (list R)).

(** [np.zeros(n)] and [np.zeros((n, m))] *)
Definition np_zeros (n : nat) : vec := repeat 0%R n.
Definition np_zeros2 (n m : nat) : matrix := repeat (np_zeros m) n.

(** [np.sum] of a vector *)
Definition np_sum (v : vec) : R := fold_left Rplus v 0%R.

(** [np.sum(M, axis=1)]: the sum of every row *)
Definition np_sum_axis1 (M : matrix) : vec := map np_sum M.

(** [M[i, j]]; reads are only made inside the shape, where the default is
    never returned. *)
Definition mat_get (M : matrix) (i j : nat) : R := nth j (nth i M []) 0%R.

(** [M[i, j] = v]; NumPy raises [IndexError] outside the shape. *)
Definition mat_set (M : matrix) (i j : nat) (v : R) : result matrix :=
  match M !! i with
  | Some row =>
      if decide (j < length row)%nat
      then Ok (<[i := <[j := v]> row]> M)
      else Raise IndexError
  | None => Raise IndexError
  end.

(** [np.transpose(M)] of a matrix with [ncols] columns *)
Fixpoint np_transpose (ncols : nat) (M : matrix) : matrix :=
  match M with
  | [] => repeat [] ncols
  | row :: rest => zip_with cons row (np_transpose ncols rest)
  end.

(** Elementwise [A * B], [1 - A], and the broadcasts [v * A] and [A / v]
    of a row vector [v], and [A / c] of a column vector [c]. *)
Definition mat_mul (A B : matrix) : matrix := zip_with (zip_with Rmult) A B.
Definition mat_one_minus (A : matrix) : matrix := map (map (fun x => 1 - x)%R) A.
Definition row_mul (v : vec) (A : matrix) : matrix := map (zip_with Rmult v) A.
Definition div_row (A : matrix) (v : vec) : matrix :=
  map (fun row => zip_with Rdiv row v) A.
Definition div_col (A : matrix) (c : vec) : matrix :=
  zip_with (fun row x => map (fun y => y / x)%R row) A c.

(** [np.diagonal(M)] *)
Definition np_diagonal (M : matrix) : vec := imap (fun i row => nth i row 0%R) M.

(** [np.mean], [np.var(ddof=0)] of a vector *)
Definition np_mean (v : vec) : R := (np_sum v / INR (length v))%R.
Definition np_var (v : vec) : R :=
  let m := np_mean v in
  np_mean (map (fun x => (x - m) * (x - m))%R v).

(** [np.cov] of two rows (default [ddof = 1]) and [np.corrcoef(xs)[0, 1]],
    which NumPy documents as the Pearson coefficient
    [C01 / sqrt (C00 * C11)] of the covariance matrix [C]. *)
Definition np_cov (x y : vec) : R :=
  let mx := np_mean x in
  let my := np_mean y in
  (np_sum (zip_with (fun a b => (a - mx) * (b - my))%R x y)
   / (INR (length x) - 1))%R.
Definition np_corrcoef01 (x y : vec) : R :=
  (np_cov x y / sqrt (np_cov x x * np_cov y y))%R.

(** Comparisons of floats as booleans *)
Definition Rgtb (a b : R) : bool := if Rgt_dec a b then true else false.
Definition Rltb (a b : R) : bool := if Rlt_dec a b then true else false.

(** [np.argmin]: the first index that holds the least value;
    [ValueError] on an empty vector. *)
Fixpoint argmin_from (best : nat) (bv : R) (i : nat) (l : vec) : nat :=
  match l with
  | [] => best
  | x :: l' =>
      if Rltb x bv then argmin_from i x (S i) l' else argmin_from best bv (S i) l'
  end.
Definition np_argmin (v : vec) : result nat :=
  match v with
  | [] => Raise ValueError
  | x :: l => Ok (argmin_from 0 x 1 l)
  end.

(** ** The bandit interface *)

(** [BaseCorrelatedBandit]: the number of arms and the abstract method
    [_sample_distr(size)], which consumes the generator state [G] and
    returns the drawn array, given here by its elements in row-major
    order, or raises. *)
Record bandit (G : Type) : Type := Bandit {
  num_arms : nat;
  sample_distr : Z -> G -> result (vec * G);
}.
Arguments Bandit {G} _ _.
Arguments num_arms {G} _.
Arguments sample_distr {G} _ _ _.

(** A batch of joint draws: one row per draw. *)
Abbreviation batch := (list (list R)).

(** Rows of width [w] cut from the row-major elements. *)
Fixpoint chunks (w rows : nat) (l : vec) : batch :=
  match rows with
  | O => []
  | S r => take w l :: chunks w r (drop w l)
  end.

(** [np.reshape(a, (size, -1))]: NumPy rejects a negative [size], cannot
    infer the free dimension when [size] is [0], and needs [size] to
    divide the number of elements. *)
Definition np_reshape_rows (size : Z) (a : vec) : result batch :=
  if decide (size <= 0) then Raise ValueError
  else
    let rows := Z.to_nat size in
    if decide (length a `mod` rows = 0)%nat
    then Ok (chunks (length a `div` rows) rows a)
    else Raise ValueError.

(** [samples[:, arms]] *)
Definition select_columns (arms : list nat) (samples : batch) : result batch :=
  mapM (fun row =>
          mapM (fun a => match row !! a with
                         | Some x => Ok x
                         | None => Raise IndexError
                         end) arms) samples.

(** [sample_arms(arms, size)] with an explicit [arms] list, which is how
    both allocators call it. *)
Definition sample_arms {G} (b : bandit G) (arms : list nat) (size : Z) (g : G)
  : result (batch * G) :=
  '(multi_sample, g') ← sample_distr b size g;
  samples ← np_reshape_rows size multi_sample;
  cols ← select_columns arms samples;
  Ok (cols, g').

(** ** The Gaussian bandit *)

Module GaussianBandit.

(** [GaussianBandit.mse] for the covariance matrix [cov] of the frozen
    distribution. *)
Definition mse (cov : matrix) : vec :=
  let xvars := np_diagonal cov in
  let xcorr := div_col (div_row cov (map sqrt xvars)) (map sqrt xvars) in
  np_sum_axis1 (row_mul xvars (mat_one_minus (mat_mul xcorr xcorr))).

End GaussianBandit.

(** ** Dictionaries keyed by arm pairs *)

Abbreviation arm_pair := (nat * nat)%type.
Abbreviation dict := (list (arm_pair * batch)).

Fixpoint dict_get (d : dict) (p : arm_pair) : option batch :=
  match d with
  | [] => None
  | (q, v) :: d' => if decide (q = p) then Some v else dict_get d' p
  end.

(** [d[p] = v]: an existing key keeps its position, a new key goes last. *)
Fixpoint dict_set (d : dict) (p : arm_pair) (v : batch) : dict :=
  match d with
  | [] => [(p, v)]
  | (q, w) :: d' =>
      if decide (q = p) then (p, v) :: d' else (q, w) :: dict_set d' p v
  end.

(** A loop whose body may raise. *)
Fixpoint foldlM {A B} (f : A -> B -> result A) (a : A) (l : list B) : result A :=
  match l with
  | [] => Ok a
  | x :: l' => a' ← f a x; foldlM f a' l'
  end.

(** ** Sample statistics and the MSE estimator *)

(** The two rows of [xs.transpose()], as the two-target assignments of
    [sample_stats] unpack them: every draw must hold exactly two values. *)
Definition unpack2 (xs : batch) : result (vec * vec) :=
  rows ← mapM (fun row => match row with
                          | [x; y] => Ok (x, y)
                          | _ => Raise ValueError
                          end) xs;
  Ok (rows.*1, rows.*2).

(** The body of the loop of [sample_stats]. *)
Definition stats_step (acc : matrix * matrix * matrix) (item : arm_pair * batch)
  : result (matrix * matrix * matrix) :=
  let '(emeans, evars, ecorrs) := acc in
  let '((i, j), xs) := item in
  '(x, y) ← unpack2 xs;
  emeans ← mat_set emeans i j (np_mean x);
  emeans ← mat_set emeans j i (np_mean y);
  evars ← mat_set evars i j (np_var x);
  evars ← mat_set evars j i (np_var y);
  let c := np_corrcoef01 x y in
  ecorrs ← mat_set ecorrs i j c;
  ecorrs ← mat_set ecorrs j i c;
  Ok (emeans, evars, ecorrs).

(** [sample_stats(arm_sample_dict, num_arms)] *)
Definition sample_stats (arm_sample_dict : dict) (num_arms : nat)
  : result (matrix * matrix * matrix) :=
  let emeans := np_zeros2 num_arms num_arms in
  let evars := np_zeros2 num_arms num_arms in
  let ecorrs := np_zeros2 num_arms num_arms in
  foldlM stats_step (emeans, evars, ecorrs) arm_sample_dict.

(** [np.sum(np.transpose(evars)*(1-ecorrs*ecorrs), axis=1)] *)
Definition mse_of_stats (num_arms : nat) (evars ecorrs : matrix) : vec :=
  np_sum_axis1
    (mat_mul (np_transpose num_arms evars) (mat_one_minus (mat_mul ecorrs ecorrs))).

(** [mse(arms_dict, num_arms)], the definition in force (the last one of
    the cell). *)
Definition mse (arms_dict : dict) (num_arms : nat) : result vec :=
  '(_, evars, ecorrs) ← sample_stats arms_dict num_arms;
  Ok (mse_of_stats num_arms evars ecorrs).

(** ** Uniform sampling *)

(** The pairs [(i, j)] of the nested loops [for i in range(K): for j in
    range(i+1, K)], in the order the loops visit them. *)
Definition all_pairs (K : nat) : list arm_pair :=
  i ← seq 0 K; (fun j => (i, j)) <$> seq (S i) (K - S i).

(** The body of the loops: [arms_dict[(i,j)] = bandit.sample_arms(arms=[i,j],
    size=n)]. *)
Definition uniform_step {G} (b : bandit G) (n : Z) (acc : dict * G) (p : arm_pair)
  : result (dict * G) :=
  let '(dct, g) := acc in
  let '(i, j) := p in
  '(xs, g') ← sample_arms b [i; j] n g;
  Ok (dict_set dct (i, j) xs, g').

(** [uniform_sampling(bandit, trials)]; [//] by [0] raises. *)
Definition uniform_sampling {G} (b : bandit G) (trials : Z) (g : G)
  : result ((nat * vec) * G) :=
  let K := num_arms b in
  let d := Z.of_nat K * (Z.of_nat K - 1) in
  if decide (d = 0) then Raise ZeroDivisionError
  else
    let n := (2 * trials) `div` d in
    '(arms_dict, g') ← foldlM (uniform_step b n) ([], g) (all_pairs K);
    mse_vals ← mse arms_dict K;
    arm ← np_argmin mse_vals;
    Ok ((arm, mse_vals), g').

(** ** Successive Rejects *)

(** What the interpreter decides for a [set]: the order in which a set of
    pairs is iterated, and the element [pop] takes from a set of arms. *)
Class PySet : Type := {
  set_iter : gset arm_pair -> list arm_pair;
  set_iter_perm : forall X, set_iter X ≡ₚ elements X;
  set_pop : gset nat -> option nat;
  set_pop_elem : forall X a, set_pop X = Some a -> a ∈ X;
  set_pop_none : forall X, set_pop X = None -> X = ∅;
}.

(** The local variables of [successive_rejects] that live across phases;
    [min_mse] is unbound before the first phase. *)
Record sr_state : Type := SrState {
  st_B : gset nat;
  st_A : gset arm_pair;
  st_mse_ests : vec;
  st_arms_dict : dict;
  st_min_mse : option R;
}.

(** [(i, v) for (i, v) in enumerate(mse_vals) if i in B] *)
Definition active_values (mse_vals : vec) (B : gset nat) : list (nat * R) :=
  filter (fun iv => iv.1 ∈ B) (imap (fun i v => (i, v)) mse_vals).

(** [max(..., key=lambda x: x[1])]: the running best is replaced by a
    strictly greater item only. *)
Fixpoint max_from (best : nat * R) (l : list (nat * R)) : nat * R :=
  match l with
  | [] => best
  | x :: l' => if Rgtb x.2 best.2 then max_from x l' else max_from best l'
  end.
Definition py_max_by_value (l : list (nat * R)) : result (nat * R) :=
  match l with
  | [] => Raise ValueError
  | x :: l' => Ok (max_from x l')
  end.

(** [min(...)]: the running best is replaced by a strictly smaller item. *)
Fixpoint min_from (best : R) (l : list R) : R :=
  match l with
  | [] => best
  | x :: l' => if Rltb x best then min_from x l' else min_from best l'
  end.
Definition py_min (l : list R) : result R :=
  match l with
  | [] => Raise ValueError
  | x :: l' => Ok (min_from x l')
  end.

(** [p[0] in B or p[1] in B] *)
Definition touches (B : gset nat) (p : arm_pair) : Prop := p.1 ∈ B ∨ p.2 ∈ B.
#[global] Instance touches_dec B p : Decision (touches B p).
Proof. unfold touches. apply _. Defined.

(** The statements of a phase that follow the computation of [mse_vals].
    [reject] indexes [mse_vals], which is as long as [mse_ests]. *)
Definition sr_eliminate (st : sr_state) (arms_dict : dict) (mse_vals : vec)
  : result sr_state :=
  '(reject, val) ← py_max_by_value (active_values mse_vals (st_B st));
  let mse_ests := <[reject := val]> (st_mse_ests st) in
  min_mse ← py_min (active_values mse_vals (st_B st)).*2;
  B' ← (if decide (reject ∈ st_B st) then Ok (st_B st ∖ {[reject]})
        else Raise KeyError);
  Ok (SrState B' (filter (touches B') (st_A st)) mse_ests
              (filter (fun kv => touches B' kv.1) arms_dict) (Some min_mse)).

Section SuccessiveRejects.
Context `{PySet} {G : Type}.

(** The loop [for pair in A] of one phase, drawing [t] more joint samples
    for every pair; it is left at once when [int(t) == 0]. *)
Fixpoint sample_pairs (b : bandit G) (t : Z) (pairs : list arm_pair)
    (arms_dict : dict) (g : G) : result (dict * G) :=
  match pairs with
  | [] => Ok (arms_dict, g)
  | p :: rest =>
      if decide (t = 0) then Ok (arms_dict, g)
      else
        '(xs, g') ← sample_arms b [p.1; p.2] t g;
        let arms_dict' :=
          match dict_get arms_dict p with
          | None => dict_set arms_dict p xs
          | Some old => dict_set arms_dict p (old ++ xs)
          end in
        sample_pairs b t rest arms_dict' g'
  end.

(** One iteration of [for k, t in enumerate(ts)]. *)
Definition sr_phase (b : bandit G) (t : Z) (st : sr_state) (g : G)
  : result (sr_state * G) :=
  '(arms_dict, g') ← sample_pairs b t (set_iter (st_A st)) (st_arms_dict st) g;
  mse_vals ← mse arms_dict (num_arms b);
  st' ← sr_eliminate st arms_dict mse_vals;
  Ok (st', g').

Fixpoint sr_loop (b : bandit G) (ts : list Z) (st : sr_state) (g : G)
  : result (sr_state * G) :=
  match ts with
  | [] => Ok (st, g)
  | t :: ts' => '(st', g') ← sr_phase b t st g; sr_loop b ts' st' g'
  end.

(** The state on entry to the loop. *)
Definition sr_init (K : nat) : sr_state :=
  SrState (list_to_set (seq 0 K)) (list_to_set (all_pairs K))
          (np_zeros K) [] None.

(** The statements after the loop: [arm = B.pop()] and
    [mse_ests[arm] = min_mse]. *)
Definition sr_finish (st : sr_state) : result (nat * vec) :=
  arm ← match set_pop (st_B st) with
        | Some a => Ok a
        | None => Raise KeyError
        end;
  min_mse ← match st_min_mse st with
            | Some m => Ok m
            | None => Raise NameError
            end;
  Ok (arm, <[arm := min_mse]> (st_mse_ests st)).

(** [successive_rejects(bandit, trials)] with the default [verbose=0]: the
    prints are left out. *)
Definition successive_rejects (b : bandit G) (trials : Z) (g : G)
  : result ((nat * vec) * G) :=
  let K := num_arms b in
  let ts := sr_ts trials (Z.of_nat K) in
  '(st, g') ← sr_loop b ts (sr_init K) g;
  r ← sr_finish st;
  Ok (r, g').

End SuccessiveRejects.

(** ** Vocabulary of the design document *)

(** [Σ_{p ∈ l} f p] *)
Definition sum_over {A} (l : list A) (f : A -> R) : R :=
  foldr (fun p acc => f p + acc)%R 0%R l.

(** The vector [f 0, ..., f (K-1)]. *)
Definition tabulate (K : nat) {A} (f : nat -> A) : list A := map f (seq 0 K).

(** A covariance matrix of [K] arms: [K] rows of [K] entries, symmetric,
    with positive variances on the diagonal. *)
Record valid_cov (K : nat) (cov : matrix) : Prop := {
  cov_rows : length cov = K;
  cov_cols : Forall (fun row => length row = K) cov;
  cov_sym : forall i j, (i < K)%nat -> (j < K)%nat -> mat_get cov i j = mat_get cov j i;
  cov_pos : forall i, (i < K)%nat -> (0 < mat_get cov i i)%R;
}.

(** [Var(p)] and the normalised correlation [ρ(p,i)]: the covariance entry
    [(p,i)] divided by [sqrt (Var(p) * Var(i))]. *)
Definition doc_var (cov : matrix) (p : nat) : R := mat_get cov p p.
Definition doc_rho (cov : matrix) (p i : nat) : R :=
  (mat_get cov p i / sqrt (doc_var cov p * doc_var cov i))%R.

(** [MSE(i) = Σ_{p≠i} Var(p)·(1 − ρ(p,i)²)] *)
Definition doc_true_mse (K : nat) (cov : matrix) (i : nat) : R :=
  sum_over (filter (fun p => p ≠ i) (seq 0 K))
           (fun p => doc_var cov p * (1 - (doc_rho cov p i) ^ 2))%R.

(** The observations of the first ([c = 0]) or second ([c = 1]) arm of a
    pair in a batch of joint draws. *)
Definition column (c : nat) (xs : batch) : vec := map (fun row => nth c row 0%R) xs.

(** The arithmetic mean, the population variance (divisor [N]) and the
    Pearson correlation coefficient of observations. *)
Definition arithmetic_mean (x : vec) : R := (sum_over x id / INR (length x))%R.
Definition population_variance (x : vec) : R :=
  (sum_over x (fun a => (a - arithmetic_mean x) ^ 2) / INR (length x))%R.
Definition pearson (x y : vec) : R :=
  (sum_over (zip x y)
     (fun ab => (ab.1 - arithmetic_mean x) * (ab.2 - arithmetic_mean y))
   / sqrt (sum_over x (fun a => (a - arithmetic_mean x) ^ 2) *
           sum_over y (fun b => (b - arithmetic_mean y) ^ 2)))%R.

(** What one pair [(a, b)] with cumulative observations [xs] adds to the
    estimate of arm [i]: the variance of the other arm of the pair times
    one minus the squared correlation, and nothing when [i] is not in the
    pair. *)
Definition doc_pair_term (i : nat) (item : arm_pair * batch) : R :=
  let '((a, b), xs) := item in
  let rho := pearson (column 0 xs) (column 1 xs) in
  if decide (a = i) then (population_variance (column 1 xs) * (1 - rho ^ 2))%R
  else if decide (b = i) then (population_variance (column 0 xs) * (1 - rho ^ 2))%R
  else 0%R.

(** [estimate(i) = Σ_{pairs involving i} Var_est(other)·(1 − ρ_est²)] *)
Definition doc_estimate (d : dict) (i : nat) : R := sum_over d (doc_pair_term i).

(** A map from arm pairs to sample batches: every key is a pair of two
    different arms below [K], no pair occurs twice (in either order), and
    every batch is a non-empty sequence of joint draws of two values. *)
Definition unordered (p : arm_pair) : arm_pair := (p.1 `min` p.2, p.1 `max` p.2)%nat.
Definition valid_item (K : nat) (item : arm_pair * batch) : Prop :=
  (item.1.1 < K)%nat /\ (item.1.2 < K)%nat /\ item.1.1 ≠ item.1.2 /\
  item.2 ≠ [] /\ Forall (fun row => length row = 2%nat) item.2.
Record valid_pair_samples (K : nat) (d : dict) : Prop := {
  items_valid : Forall (valid_item K) d;
  pairs_distinct : NoDup ((fun kv => unordered kv.1) <$> d);
}.

(** A sampler that answers a request for [size >= 1] joint draws with
    [size * num_arms] values. *)
Definition sampler_ok {G} (b : bandit G) : Prop :=
  forall size g, 0 < size ->
    exists data g', sample_distr b size g = Ok (data, g') /\
                    length data = (Z.to_nat size * num_arms b)%nat.

(** ** Vocabulary of the proofs *)

(** A matrix of [n] rows and [m] columns. *)
Definition has_shape (n m : nat) (M : matrix) : Prop :=
  length M = n /\ Forall (fun row => length row = m) M.

(** What the loop of [sample_stats] and the row sums of [mse] make one
    pair [(a, b)] with batch [xs] add to the entry of arm [i]. *)
Definition np_pair_term (i : nat) (item : arm_pair * batch) : R :=
  let '((a, b), xs) := item in
  let c := np_corrcoef01 (column 0 xs) (column 1 xs) in
  if decide (a = i) then (np_var (column 1 xs) * (1 - c * c))%R
  else if decide (b = i) then (np_var (column 0 xs) * (1 - c * c))%R
  else 0%R.
Definition np_estimate (d : dict) (i : nat) : R := sum_over d (np_pair_term i).

(** Row [i] of [np.transpose(evars)*(1-ecorrs*ecorrs)], summed. *)
Definition row_sum (K : nat) (evars ecorrs : matrix) (i : nat) : R :=
  sum_over (seq 0 K)
    (fun p => mat_get evars p i * (1 - mat_get ecorrs i p * mat_get ecorrs i p))%R.

(** The differences of consecutive elements of [a :: l]. *)
Fixpoint diffs (a : Z) (l : list Z) : list Z :=
  match l with
  | [] => []
  | b :: l' => (b - a) :: diffs b l'
  end.

(** Items listed by strictly increasing index. *)
Fixpoint ascending (l : list (nat * R)) : Prop :=
  match l with
  | [] => True
  | x :: l' => Forall (fun y => (x.1 < y.1)%nat) l' /\ ascending l'
  end.

(** The exception of a sampling call that cannot succeed: the sampler's
    own, or else the [ValueError] of the reshape. *)
Definition raised_by_draw {G} (b : bandit G) (size : Z) (g : G) : exn :=
  match sample_distr b size g with
  | Ok _ => ValueError
  | Raise e => e
  end.

(** Dictionaries built by the allocators: keys are pairs [(i, j)] with
    [i < j < K], each held once, with non-empty batches of pairs of values. *)
Definition dict_inv (K : nat) (d : dict) : Prop :=
  NoDup d.*1 /\
  Forall (fun kv : arm_pair * batch => (kv.1.1 < kv.1.2)%nat /\ valid_item K kv) d.

(** The invariant of the loop of [successive_rejects]. *)
Record sr_inv (K : nat) (st : sr_state) : Prop := {
  inv_B : forall i, i ∈ st_B st -> (i < K)%nat;
  inv_A : forall p, p ∈ st_A st -> (p.1 < p.2 < K)%nat;
  inv_ests : length (st_mse_ests st) = K;
  inv_dict : dict_inv K (st_arms_dict st);
}.

(** The state after [k] phases that drew no sample: arms [0 .. k-1] were
    rejected in turn, with an estimate of [0]. *)
Definition zero_B (K k : nat) : gset nat := list_to_set (seq k (K - k)).
Fixpoint zero_A (K k : nat) : gset arm_pair :=
  match k with
  | O => list_to_set (all_pairs K)
  | S k' => filter (touches (zero_B K k)) (zero_A K k')
  end.
Definition zero_state (K k : nat) : sr_state :=
  SrState (zero_B K k) (zero_A K k) (np_zeros K) []
          (match k with O => None | S _ => Some 0%R end).

(** ** Concrete instances *)

(** An interpreter that iterates a set in the order of [elements] and pops
    its first element. *)
Definition elements_order : PySet.
Proof.
  refine {| set_iter := elements; set_pop := fun X => head (elements X) |}.
  - intros X. reflexivity.
  - intros X a Ha. apply elem_of_elements. by eapply head_Some_elem_of.
  - intros X Hnone. apply head_None in Hnone.
    by apply elements_empty_inv, leibniz_equiv in Hnone.
Defined.

(** A bandit of [K] arms whose every draw is the zero vector; like NumPy
    it refuses a negative size. *)
Definition zero_bandit (K : nat) : bandit unit :=
  Bandit K (fun size g =>
              if decide (size < 0) then Raise ValueError
              else Ok (repeat 0%R (Z.to_nat size * K), g)).

(** A bandit of two arms that answers a request for four joint draws with
    four fixed ones and refuses every other request. *)
Definition replay_draws : batch := [[1; 2]; [-1; 2]; [1; -2]; [-1; -2]]%R.
Definition replay_bandit : bandit unit :=
  Bandit 2 (fun size g =>
              if decide (size = 4) then Ok (concat replay_draws, g)
              else Raise ValueError).
Definition replay_dict : dict := [((0%nat, 1%nat), replay_draws)].

(** The state of the run on [replay_bandit] after its only phase. *)
Definition replay_after : sr_state :=
  let B' := st_B (sr_init 2) ∖ {[0%nat]} in
  SrState B' (filter (touches B') (st_A (sr_init 2)))
          (<[0%nat := 4%R]> (np_zeros 2))
          (filter (fun kv => touches B' kv.1) replay_dict) (Some 1%R).

(** The covariance matrix of "Ex 0". *)
Definition S0 : matrix :=
  [[1; 6/10; 2/10; 1/10];
   [6/10; 1; 1/10; 1/10];
   [2/10; 1/10; 1; 0];
   [1/10; 1/10; 0; 1]]%R.

(** Two joint draws for the pair [(0, 1)]. *)
Definition two_draws : dict := [((0%nat, 1%nat), [[1; 2]; [3; 5]]%R)].

(** ** Further methods and functions of the notebook

    Arm indices are natural numbers here as everywhere: the negative
    indices of Python are not represented. *)

(** [v[i]] of a vector; [IndexError] outside it. *)
Definition vec_get (v : vec) (i : nat) : result R :=
  match v !! i with
  | Some x => Ok x
  | None => Raise IndexError
  end.

(** [M[i, j]] as an expression; [IndexError] outside the shape. *)
Definition mat_lookup (M : matrix) (i j : nat) : result R :=
  match M !! i with
  | Some row => vec_get row j
  | None => Raise IndexError
  end.

(** [BaseCorrelatedBandit.best_arm]: [np.argmin(self.mse())], for the
    vector [mse_vals] that the method [mse] of the bandit returns. *)
Definition best_arm (mse_vals : vec) : result nat := np_argmin mse_vals.

(** A float that may be [inf]: NumPy evaluates [1/x] at [x = 0.0] to
    [inf], with a warning and no exception; [inf] absorbs every finite
    summand. *)
Inductive xfloat : Type :=
  | Finite (x : R)
  | PosInf.

(** [1/x] for [x >= 0.0], which is the only use [hbar] makes of it. *)
Definition np_recip (x : R) : xfloat :=
  if Req_EM_T x 0 then PosInf else Finite (1 / x).

Definition xadd (a b : xfloat) : xfloat :=
  match a, b with
  | Finite x, Finite y => Finite (x + y)
  | _, _ => PosInf
  end.

(** [sum(...)] of such floats, from the start value [0]. *)
Definition py_sum_x (l : list xfloat) : xfloat := fold_left xadd l (Finite 0).

(** [BaseCorrelatedBandit.hbar]:
    [sum(1/(v - mse_vals[best_arm])**2 for i,v in enumerate(mse_vals)
         if i != best_arm)].  The method [mse] is pure, so its two calls
    (one inside [best_arm]) return the same [mse_vals]. *)
Definition hbar (mse_vals : vec) : result xfloat :=
  best ← best_arm mse_vals;
  terms ← mapM (fun iv : nat * R =>
                  m ← vec_get mse_vals best;
                  Ok (np_recip ((iv.2 - m) ^ 2)))
               (filter (fun iv : nat * R => iv.1 ≠ best)
                       (imap (fun i v => (i, v)) mse_vals));
  Ok (py_sum_x terms).

(** [mse_arm(i, evars, ecorrs)]:
    [sum(evars[p,i]*(1-ecorrs[p,i]**2) for p in range(ecorrs.shape[0])
         if p != i)]. *)
Definition mse_arm (i : nat) (evars ecorrs : matrix) : result R :=
  terms ← mapM (fun p =>
                  ev ← mat_lookup evars p i;
                  ec ← mat_lookup ecorrs p i;
                  Ok (ev * (1 - ec ^ 2))%R)
               (filter (fun p => p ≠ i) (seq 0 (length ecorrs)));
  Ok (fold_left Rplus terms 0%R).

(** [sample_arms(size=size)] without [arms]: the columns selected are
    [range(len(multi_sample))].  The array that [_sample_distr] returns
    is given by its elements; its first dimension, which [len] reads, is
    the argument [first_dim]. *)
Definition sample_arms_none {G} (b : bandit G) (first_dim : nat) (size : Z) (g : G)
  : result (batch * G) :=
  '(multi_sample, g') ← sample_distr b size g;
  let arms := seq 0 first_dim in
  samples ← np_reshape_rows size multi_sample;
  cols ← select_columns arms samples;
  Ok (cols, g').

(** ** Counting the draws of a run *)

(** The bandit [b] with a meter: the generator state carries the number
    of joint draws requested so far, which every successful call of
    [_sample_distr(size)] raises by [size]. *)
Definition metered {G} (b : bandit G) : bandit (G * Z) :=
  Bandit (num_arms b)
         (fun size gc =>
            '(data, g') ← sample_distr b size gc.1;
            Ok (data, (g', gc.2 + size))).

(** Twice the number of pairs of [K] arms that hold an arm outside a set
    of [k] rejected ones: [K(K-1) - k(k-1)]. *)
Definition twice_active_pairs (K k : nat) : Z :=
  Z.of_nat K * (Z.of_nat K - 1) - Z.of_nat k * (Z.of_nat k - 1).

(** Twice the number of draws of the phases with increments [ts], the
    first of which starts with [k] arms rejected. *)
Fixpoint twice_draws (K k : nat) (ts : list Z) : Z :=
  match ts with
  | [] => 0
  | t :: ts' => t * twice_active_pairs K k + twice_draws K (S k) ts'
  end.

(** [Σ_j 2 (k + j) l_j] for the elements [l_0, l_1, ...] of [l]. *)
Fixpoint weighted_sum (k : nat) (l : list Z) : Z :=
  match l with
  | [] => 0
  | b :: l' => 2 * Z.of_nat k * b + weighted_sum (S k) l'
  end.

(** [Σ ts] *)
Definition total (ts : list Z) : Z := foldr Z.add 0 ts.

(** ** Invariants of the loop of Successive Rejects *)

(** The bookkeeping of [successive_rejects] after [k] rejections: [B]
    holds [K - k] arms, all below [K], and [A] holds the pairs of arms
    below [K] with an arm in [B]. *)
Record pairs_inv (K k : nat) (st : sr_state) : Prop := {
  pi_B : forall i, i ∈ st_B st -> (i < K)%nat;
  pi_size : (size (st_B st) + k = K)%nat;
  pi_A : st_A st = filter (touches (st_B st)) (list_to_set (all_pairs K));
  pi_count : 2 * Z.of_nat (size (st_A st)) = twice_active_pairs K k;
}.

(** The batches of [arms_dict] after phases that added [n >= 0] draws
    per pair in all: every stored pair is in [A] and holds [n] draws, and
    once a draw was made every pair of [A] is stored. *)
Record counts_inv (n : Z) (st : sr_state) : Prop := {
  ci_stored : forall p xs, dict_get (st_arms_dict st) p = Some xs ->
                p ∈ st_A st /\ 0 < n /\ length xs = Z.to_nat n;
  ci_all : 0 < n -> forall p, p ∈ st_A st -> is_Some (dict_get (st_arms_dict st) p);
}.

(** ** Vocabulary of the further properties *)

(** The estimated variance of the other arm of a pair that involves arm
    [i], and [0] for a pair that does not. *)
Definition doc_other_variance (i : nat) (item : arm_pair * batch) : R :=
  let '((a, b), xs) := item in
  if decide (a = i) then population_variance (column 1 xs)
  else if decide (b = i) then population_variance (column 0 xs)
  else 0%R.

(** Observations that are not all equal, for both arms of every pair. *)
Definition columns_vary (d : dict) : Prop :=
  Forall (fun kv : arm_pair * batch =>
            (0 < population_variance (column 0 kv.2))%R /\
            (0 < population_variance (column 1 kv.2))%R) d.

(** The inequality [cov(i,j)² <= Var(i) Var(j)] that the covariances of
    random variables satisfy. *)
Definition cov_bounded (K : nat) (cov : matrix) : Prop :=
  forall i j, (i < K)%nat -> (j < K)%nat ->
    (mat_get cov i j * mat_get cov i j <= mat_get cov i i * mat_get cov j j)%R.

(** [enumerate(v)] without the item of index [a]. *)
Definition others (a : nat) (v : vec) : list (nat * R) :=
  filter (fun iv : nat * R => iv.1 ≠ a) (imap (fun i x => (i, x)) v).

(** ** Further instances *)

(** Joint draws for the pairs [(0, 1)] and [(1, 2)] of three arms. *)
Definition two_pairs : dict :=
  [((0%nat, 1%nat), [[1; 2]; [3; 5]]%R); ((1%nat, 2%nat), [[2; 1]; [4; 7]]%R)].

(** The covariance matrix of two uncorrelated arms of unit variance. *)
Definition eye2 : matrix := [[1; 0]; [0; 1]]%R.

(** * Properties *)

(** ** The phase schedule *)

Lemma fold_left_Qplus_big_sum (f : Z -> Q) (lo : Z) (n s : nat) (acc : Q) :
  (fold_left Qplus (map f (map (fun i => (lo + Z.of_nat i)%Z) (seq s n))) acc
   == acc + big_sum f (lo + Z.of_nat s)%Z n)%Q.
Proof.
  revert s acc. induction n as [|n IH]; intros s acc; simpl.
  - ring.
  - rewrite IH.
    replace (lo + Z.of_nat (S s)) with (lo + Z.of_nat s + 1) by lia.
    ring.
Qed.

Lemma py_sum_range (f : Z -> Q) (lo hi : Z) :
  (py_sum (map f (range lo hi)) == big_sum f lo (Z.to_nat (hi - lo)%Z))%Q.
Proof.
  unfold py_sum, range. rewrite fold_left_Qplus_big_sum.
  replace (lo + Z.of_nat 0) with lo by lia. ring.
Qed.

Lemma sr_ck_weighted_logbar (K : Z) : (sr_ck K == weighted_logbar K)%Q.
Proof.
  unfold sr_ck, weighted_logbar. rewrite py_sum_range.
  replace (K - 1 - 1) with (K - 2) by lia. reflexivity.
Qed.

Lemma ceiling_division (x y : Q) : - Qfloor (- x / y)%Q = Qceiling (x / y)%Q.
Proof.
  unfold Qceiling. f_equal. apply Qfloor_comp.
  unfold Qdiv. ring.
Qed.

Lemma sr_trials_closed_form (budget K k : Z) :
  - Qfloor (- (inject_Z budget - sr_K2 K) / (sr_ck K * inject_Z (K + 1 - k)))%Q
  = closed_form_n (weighted_logbar K) budget K k.
Proof.
  rewrite ceiling_division. unfold closed_form_n, sr_K2.
  apply Qceiling_comp. rewrite sr_ck_weighted_logbar. reflexivity.
Qed.



(** The increments of the run of "Ex 0": four arms, a budget of 50000. *)
Example sr_ts_ex0 : sr_ts 50000 4 = [4412; 1470; 2941].
Proof. by vm_compute. Qed.

(** ** Vectors and matrices as tables *)

Lemma fold_left_Rplus (l : vec) (a : R) :
  fold_left Rplus l a = (a + foldr Rplus 0 l)%R.
Proof.
  revert a. induction l as [|x l IH]; intros a; simpl.
  - lra.
  - rewrite IH. lra.
Qed.

Lemma np_sum_tabulate (K : nat) (f : nat -> R) :
  np_sum (tabulate K f) = sum_over (seq 0 K) f.
Proof.
  unfold np_sum, tabulate, sum_over. rewrite fold_left_Rplus.
  generalize (seq 0 K) as l. induction l as [|p l IH]; simpl; lra.
Qed.

Lemma tabulate_length (K : nat) {A} (f : nat -> A) : length (tabulate K f) = K.
Proof. unfold tabulate. by rewrite length_map, length_seq. Qed.

Lemma tabulate_lookup (K : nat) {A} (f : nat -> A) (i : nat) :
  (i < K)%nat -> tabulate K f !! i = Some (f i).
Proof.
  intros Hi. unfold tabulate. rewrite list_lookup_fmap, lookup_seq_lt by done.
  done.
Qed.

Lemma tabulate_ext (K : nat) {A} (f g : nat -> A) :
  (forall i, (i < K)%nat -> f i = g i) -> tabulate K f = tabulate K g.
Proof.
  intros Hfg. unfold tabulate. apply map_ext_in. intros i Hi.
  apply in_seq in Hi. apply Hfg. lia.
Qed.

Lemma tabulate_nth (l : vec) : l = tabulate (length l) (fun i => nth i l 0%R).
Proof.
  apply list_eq. intros i. destruct (decide (i < length l)%nat) as [Hi|Hi].
  - rewrite tabulate_lookup by done. rewrite nth_lookup.
    destruct (lookup_lt_is_Some_2 l i Hi) as [x Hx]. by rewrite Hx.
  - rewrite !lookup_ge_None_2; [done | rewrite tabulate_length; lia | lia].
Qed.

Lemma tabulate_map (K : nat) {A B} (h : A -> B) (f : nat -> A) :
  map h (tabulate K f) = tabulate K (fun i => h (f i)).
Proof. unfold tabulate. by rewrite map_map. Qed.

Lemma tabulate_zip_with (K : nat) {A B C} (h : A -> B -> C) f g :
  zip_with h (tabulate K f) (tabulate K g) = tabulate K (fun i => h (f i) (g i)).
Proof.
  unfold tabulate. generalize (seq 0 K) as l.
  induction l as [|p l IH]; simpl; [done | by rewrite IH].
Qed.

Lemma tabulate_imap (K : nat) {A B} (h : nat -> A -> B) (f : nat -> A) :
  imap h (tabulate K f) = tabulate K (fun i => h i (f i)).
Proof.
  apply list_eq. intros i. rewrite list_lookup_imap.
  destruct (decide (i < K)%nat) as [Hi|Hi].
  - by rewrite !tabulate_lookup.
  - rewrite !lookup_ge_None_2; [done | rewrite tabulate_length; lia
                                | rewrite tabulate_length; lia].
Qed.

Lemma matrix_tabulate (n m : nat) (M : matrix) :
  has_shape n m M ->
  M = tabulate n (fun i => tabulate m (fun j => mat_get M i j)).
Proof.
  intros [Hn Hm]. apply list_eq. intros i.
  destruct (decide (i < n)%nat) as [Hi|Hi].
  - rewrite tabulate_lookup by done.
    destruct (lookup_lt_is_Some_2 M i) as [row Hrow]; [lia|].
    rewrite Hrow. f_equal.
    assert (length row = m) as Hlen.
    { rewrite Forall_forall in Hm. apply Hm. by eapply list_elem_of_lookup_2. }
    unfold mat_get. rewrite (nth_lookup_Some _ _ _ _ Hrow).
    rewrite <- Hlen. apply tabulate_nth.
  - rewrite !lookup_ge_None_2; [done | rewrite tabulate_length; lia | lia].
Qed.

Lemma sum_over_ext {A} (l : list A) (f g : A -> R) :
  (forall p, p ∈ l -> f p = g p) -> sum_over l f = sum_over l g.
Proof.
  induction l as [|p l IH]; intros Hfg; simpl; [done|].
  rewrite (Hfg p) by left. rewrite IH; [done|].
  intros q Hq. apply Hfg. by right.
Qed.

Lemma sum_over_filter_ne (l : list nat) (i : nat) (f : nat -> R) :
  sum_over (filter (fun p => p ≠ i) l) f
  = sum_over l (fun p => if decide (p = i) then 0 else f p)%R.
Proof.
  induction l as [|p l IH]; simpl; [done|].
  rewrite filter_cons. destruct (decide (p = i)) as [->|Hne].
  - rewrite decide_False by (intros Hc; by apply Hc). rewrite IH. lra.
  - rewrite decide_True by done. simpl. by rewrite IH.
Qed.

(** ** The analytic MSE of the Gaussian bandit *)

Lemma np_diagonal_tabulate (K : nat) (f : nat -> nat -> R) :
  np_diagonal (tabulate K (fun i => tabulate K (f i))) = tabulate K (fun i => f i i).
Proof.
  unfold np_diagonal. rewrite tabulate_imap. apply tabulate_ext. intros i Hi.
  by rewrite (nth_lookup_Some _ _ _ _ (tabulate_lookup K _ i Hi)).
Qed.

Lemma gaussian_mse_table (K : nat) (f : nat -> nat -> R) :
  GaussianBandit.mse (tabulate K (fun i => tabulate K (f i))) =
  tabulate K (fun i => sum_over (seq 0 K) (fun p =>
    let c := (f i p / sqrt (f p p) / sqrt (f i i))%R in
    (f p p * (1 - c * c))%R)).
Proof.
  unfold GaussianBandit.mse. cbv zeta. rewrite np_diagonal_tabulate.
  unfold div_row, div_col, row_mul, mat_one_minus, mat_mul, np_sum_axis1.
  rewrite !tabulate_map, !tabulate_zip_with, !tabulate_map.
  apply tabulate_ext. intros i Hi.
  rewrite !tabulate_zip_with, !tabulate_map, !tabulate_zip_with, !tabulate_map.
  rewrite !tabulate_zip_with. by rewrite np_sum_tabulate.
Qed.

(** C2: for every valid [K × K] covariance matrix, the analytic MSE is the
    vector of length [K] whose [i]-th entry is the sum, over the arms [p]
    different from [i], of [Var(p) * (1 - ρ(p,i)²)], with [ρ(p,i)] the
    covariance entry [(p,i)] divided by [sqrt (Var(p) * Var(i))]. *)
Theorem gaussian_mse_formula (K : nat) (cov : matrix) :
  valid_cov K cov ->
  GaussianBandit.mse cov = tabulate K (doc_true_mse K cov).
Proof.
  intros [Hrows Hcols Hsym Hpos].
  transitivity (GaussianBandit.mse
                  (tabulate K (fun i => tabulate K (fun j => mat_get cov i j)))).
  { f_equal. by apply matrix_tabulate. }
  rewrite gaussian_mse_table.
  apply tabulate_ext. intros i Hi. unfold doc_true_mse.
  rewrite sum_over_filter_ne. apply sum_over_ext. intros p Hp.
  apply list_elem_of_In, in_seq in Hp. simpl.
  assert (0 < mat_get cov i i)%R as Hvi by (apply Hpos; lia).
  assert (0 < mat_get cov p p)%R as Hvp by (apply Hpos; lia).
  assert (0 < sqrt (mat_get cov i i))%R as Hsi by (by apply sqrt_lt_R0).
  assert (0 < sqrt (mat_get cov p p))%R as Hsp by (by apply sqrt_lt_R0).
  destruct (decide (p = i)) as [->|Hne].
  - replace (mat_get cov i i / sqrt (mat_get cov i i) / sqrt (mat_get cov i i))%R
      with 1%R; [lra|].
    rewrite <- (sqrt_sqrt (mat_get cov i i)) at 1 by lra. field. lra.
  - unfold doc_rho, doc_var. rewrite sqrt_mult by lra.
    rewrite (Hsym p i) by lia. field. lra.
Qed.

(** The covariance matrix of "Ex 0": arm 0 has the least analytic MSE. *)
Example gaussian_mse_S0 :
  GaussianBandit.mse S0 = [259/100; 262/100; 295/100; 298/100]%R.
Proof.
  assert (has_shape 4 4 S0) as Hshape by (split; [done | repeat constructor]).
  rewrite (matrix_tabulate 4 4 S0 Hshape), gaussian_mse_table.
  unfold tabulate, sum_over, mat_get, S0. simpl.
  rewrite sqrt_1. repeat (apply f_equal2; [field|]). done.
Qed.

(** ** NumPy statistics and their textbook definitions *)

Lemma np_sum_sum_over (v : vec) : np_sum v = sum_over v id.
Proof.
  unfold np_sum, sum_over. rewrite fold_left_Rplus.
  induction v as [|x v IH]; simpl; [lra|]. unfold id at 1. lra.
Qed.

Lemma np_sum_map {A} (f : A -> R) (l : list A) : np_sum (map f l) = sum_over l f.
Proof.
  unfold np_sum, sum_over. rewrite fold_left_Rplus.
  induction l as [|x l IH]; simpl; lra.
Qed.

Lemma np_mean_arithmetic (x : vec) : np_mean x = arithmetic_mean x.
Proof. unfold np_mean, arithmetic_mean. by rewrite np_sum_sum_over. Qed.

Lemma np_var_population (x : vec) : np_var x = population_variance x.
Proof.
  unfold np_var, population_variance. cbv zeta. unfold np_mean at 1.
  rewrite np_sum_map, length_map, np_mean_arithmetic.
  f_equal. apply sum_over_ext. intros a _. ring.
Qed.

Lemma np_sum_zip_with (f : R -> R -> R) (x y : vec) :
  np_sum (zip_with f x y) = sum_over (zip x y) (fun ab => f ab.1 ab.2).
Proof.
  unfold np_sum, sum_over. rewrite fold_left_Rplus. revert y.
  induction x as [|a x IH]; intros [|b y]; simpl; try lra.
  specialize (IH y). lra.
Qed.

Lemma np_cov_sum (x y : vec) :
  np_cov x y =
  (sum_over (zip x y)
     (fun ab => (ab.1 - arithmetic_mean x) * (ab.2 - arithmetic_mean y))
   / (INR (length x) - 1))%R.
Proof.
  unfold np_cov. cbv zeta.
  by rewrite !np_mean_arithmetic, np_sum_zip_with.
Qed.

Lemma sum_over_diag (x : vec) (f : R -> R) :
  sum_over (zip x x) (fun ab => f ab.1 * f ab.2)%R = sum_over x (fun a => f a ^ 2)%R.
Proof. induction x as [|a x IH]; simpl in *; [done|]. rewrite IH. ring. Qed.

Lemma sum_over_nonneg {A} (l : list A) (f : A -> R) :
  (forall a, 0 <= f a)%R -> (0 <= sum_over l f)%R.
Proof.
  intros Hf. induction l as [|a l IH]; simpl; [lra|]. specialize (Hf a). lra.
Qed.

Lemma sum_over_squares_zero (x : vec) (f : R -> R) :
  sum_over x (fun a => f a ^ 2)%R = 0%R -> Forall (fun a => f a = 0%R) x.
Proof.
  induction x as [|a x IH]; simpl in *; intros Hsum; [constructor|].
  assert (0 <= sum_over x (fun a => f a * (f a * 1)))%R as Hrest.
  { apply sum_over_nonneg. intros b. nra. }
  constructor; [nra|]. apply IH. nra.
Qed.

Lemma sum_over_zip_zero_l (x y : vec) (f g : R -> R) :
  length x = length y -> Forall (fun a => f a = 0%R) x ->
  sum_over (zip x y) (fun ab => f ab.1 * g ab.2)%R = 0%R.
Proof.
  intros _ Hx. revert y. induction Hx as [|a x Ha Hx IH]; intros [|b y]; simpl;
    try done.
  rewrite IH, Ha. ring.
Qed.

Lemma sum_over_zip_zero_r (x y : vec) (f g : R -> R) :
  length x = length y -> Forall (fun b => g b = 0%R) y ->
  sum_over (zip x y) (fun ab => f ab.1 * g ab.2)%R = 0%R.
Proof.
  intros _ Hy. revert x. induction Hy as [|b y Hb Hy IH]; intros [|a x]; simpl;
    try done.
  rewrite IH, Hb. ring.
Qed.

(** The coefficient NumPy computes from the covariance matrix is the
    Pearson coefficient of the observations. *)
Lemma np_corrcoef01_pearson (x y : vec) :
  length x = length y -> np_corrcoef01 x y = pearson x y.
Proof.
  intros Hlen. unfold np_corrcoef01, pearson. rewrite !np_cov_sum.
  rewrite <- Hlen.
  rewrite (sum_over_diag x (fun a => a - arithmetic_mean x)%R).
  rewrite (sum_over_diag y (fun b => b - arithmetic_mean y)%R).
  set (sxy := sum_over (zip x y) _).
  set (sxx := sum_over x _). set (syy := sum_over y _).
  assert (0 <= sxx)%R as Hxx by (apply sum_over_nonneg; intros; apply pow2_ge_0).
  assert (0 <= syy)%R as Hyy by (apply sum_over_nonneg; intros; apply pow2_ge_0).
  set (n1 := (INR (length x) - 1)%R).
  destruct (Req_dec n1 0) as [Hz|Hnz].
  - (* a single draw: every deviation from the mean is zero *)
    assert (length x = 1%nat) as Hone.
    { apply INR_eq. subst n1. simpl. lra. }
    destruct x as [|a [|? ?]]; try done. destruct y as [|b [|? ?]]; try done.
    subst sxy. unfold arithmetic_mean, Rdiv. simpl. unfold id.
    rewrite Rinv_1. ring.
  - destruct (Rlt_dec n1 0) as [Hneg|Hpos].
    + (* only the empty batch has [N - 1 < 0] *)
      assert (x = []) as ->.
      { destruct x; [done|]. subst n1. rewrite length_cons, S_INR in Hneg.
        pose proof (pos_INR (length x)). lra. }
      destruct y; [|done]. subst sxy. simpl. unfold Rdiv. ring.
    + assert (0 < n1)%R as Hn1 by lra.
      replace (sxx / n1 * (syy / n1))%R with ((sxx * syy) / (n1 * n1))%R
        by (field; lra).
      rewrite sqrt_div_alt by nra. rewrite sqrt_square by lra.
      destruct (Req_dec (sqrt (sxx * syy)) 0) as [Hs|Hs].
      * (* a constant column: the cross products vanish with it *)
        assert (sxy = 0%R) as ->.
        { apply sqrt_eq_0 in Hs; [|nra].
          apply Rmult_integral in Hs as [Hs|Hs]; subst sxy sxx syy.
          - apply (sum_over_zip_zero_l x y (fun a => a - arithmetic_mean x)%R
                     (fun b => b - arithmetic_mean y)%R); [done|].
            by apply sum_over_squares_zero.
          - apply (sum_over_zip_zero_r x y (fun a => a - arithmetic_mean x)%R
                     (fun b => b - arithmetic_mean y)%R); [done|].
            by apply sum_over_squares_zero. }
        unfold Rdiv. ring.
      * field. split; lra.
Qed.

(** ** Sample statistics *)

Lemma bind_Ok {A B} (a : A) (k : A -> result B) : (Ok a ≫= k) = k a.
Proof. reflexivity. Qed.

Lemma mat_set_spec (n m : nat) (M : matrix) (i j : nat) (v : R) :
  has_shape n m M -> (i < n)%nat -> (j < m)%nat ->
  exists M', mat_set M i j v = Ok M' /\ has_shape n m M' /\
    forall p q, mat_get M' p q = if decide (p = i /\ q = j) then v else mat_get M p q.
Proof.
  intros [Hn Hm] Hi Hj. unfold mat_set.
  destruct (lookup_lt_is_Some_2 M i) as [row Hrow]; [lia|]. rewrite Hrow.
  assert (length row = m) as Hlen.
  { rewrite Forall_forall in Hm. apply Hm. by eapply list_elem_of_lookup_2. }
  rewrite decide_True by lia.
  eexists; split; [done|]. split.
  - split; [by rewrite length_insert|].
    apply Forall_insert; [done|]. by rewrite length_insert.
  - intros p q. unfold mat_get. rewrite !(nth_lookup _ p).
    destruct (decide (p = i)) as [Hp|Hp]; [subst p|].
    + rewrite list_lookup_insert_eq by lia. rewrite Hrow. simpl.
      rewrite !nth_lookup. destruct (decide (q = j)) as [Hq|Hq]; [subst q|].
      * rewrite decide_True by done. rewrite list_lookup_insert_eq by lia. done.
      * rewrite decide_False by lia.
        rewrite list_lookup_insert_ne by done. done.
    + rewrite decide_False by lia.
      rewrite list_lookup_insert_ne by done. done.
Qed.

Lemma unpack2_ok (xs : batch) :
  Forall (fun row => length row = 2%nat) xs ->
  unpack2 xs = Ok (column 0 xs, column 1 xs).
Proof.
  unfold unpack2. intros Hxs.
  assert (mapM (fun row : list R => match row with
                                    | [x; y] => Ok (x, y)
                                    | _ => Raise ValueError
                                    end) xs
          = Ok (zip (column 0 xs) (column 1 xs))) as ->.
  { induction Hxs as [|row xs Hrow Hxs IH]; [done|].
    destruct row as [|x [|y [|? ?]]]; try done.
    cbn. cbn in IH. by rewrite IH. }
  rewrite bind_Ok. f_equal.
  assert (length (column 0 xs) = length (column 1 xs)) as Hlen
    by (unfold column; by rewrite !length_map).
  by rewrite fst_zip, snd_zip by lia.
Qed.

Lemma repeat_tabulate {A} (x : A) (m : nat) : repeat x m = tabulate m (fun _ => x).
Proof.
  unfold tabulate. generalize 0%nat as s.
  induction m as [|m IH]; intros s; simpl; [done | by rewrite (IH (S s))].
Qed.

Lemma np_transpose_map (m : nat) (f : nat -> nat -> R) (l : list nat) :
  np_transpose m (map (fun i => tabulate m (f i)) l)
  = tabulate m (fun j => map (fun i => f i j) l).
Proof.
  induction l as [|a l IH]; simpl.
  - apply repeat_tabulate.
  - rewrite IH. by rewrite tabulate_zip_with.
Qed.

Lemma mse_of_stats_table (K : nat) (f g : nat -> nat -> R) :
  mse_of_stats K (tabulate K (fun i => tabulate K (f i)))
                 (tabulate K (fun i => tabulate K (g i)))
  = tabulate K (fun i => sum_over (seq 0 K)
                 (fun p => f p i * (1 - g i p * g i p))%R).
Proof.
  unfold mse_of_stats, np_sum_axis1, mat_mul, mat_one_minus.
  change (tabulate K (fun i => tabulate K (f i)))
    with (map (fun i => tabulate K (f i)) (seq 0 K)).
  rewrite np_transpose_map.
  rewrite !tabulate_zip_with, !tabulate_map, !tabulate_zip_with, !tabulate_map.
  apply tabulate_ext. intros i Hi.
  change (map (fun i0 => f i0 i) (seq 0 K)) with (tabulate K (fun i0 => f i0 i)).
  rewrite !tabulate_zip_with, !tabulate_map, !tabulate_zip_with.
  by rewrite np_sum_tabulate.
Qed.

Lemma mse_of_stats_row_sum (K : nat) (evars ecorrs : matrix) :
  has_shape K K evars -> has_shape K K ecorrs ->
  mse_of_stats K evars ecorrs = tabulate K (row_sum K evars ecorrs).
Proof.
  intros Hev Hec. unfold row_sum.
  rewrite <- (mse_of_stats_table K (mat_get evars) (mat_get ecorrs)).
  f_equal; by apply matrix_tabulate.
Qed.

Lemma sum_over_point_update (l : list nat) (p0 : nat) (f f' : nat -> R) (delta : R) :
  NoDup l -> p0 ∈ l ->
  (forall q, q ∈ l -> q ≠ p0 -> f' q = f q) ->
  f' p0 = (f p0 + delta)%R ->
  sum_over l f' = (sum_over l f + delta)%R.
Proof.
  intros Hnd. induction Hnd as [|a l Ha Hnd IH]; intros Hin Hsame Hp0.
  - by apply elem_of_nil in Hin.
  - simpl. destruct (decide (a = p0)) as [->|Hne].
    + rewrite Hp0. rewrite (sum_over_ext l f' f); [lra|].
      intros q Hq. apply Hsame; [by right|]. intros ->. done.
    + rewrite (Hsame a) by (done || left). rewrite IH; [lra | | | done].
      * apply elem_of_cons in Hin as [->|Hin]; done.
      * intros q Hq. apply Hsame. by right.
Qed.

Lemma mat_get_zeros (n m p q : nat) : mat_get (np_zeros2 n m) p q = 0%R.
Proof.
  unfold mat_get, np_zeros2, np_zeros.
  destruct (decide (p < n)%nat) as [Hp|Hp].
  - rewrite nth_repeat_lt by done.
    destruct (decide (q < m)%nat); [by rewrite nth_repeat_lt|].
    apply nth_overflow. rewrite repeat_length. lia.
  - rewrite (nth_overflow (repeat _ n)) by (rewrite repeat_length; lia).
    by destruct q.
Qed.

Lemma has_shape_zeros (n m : nat) : has_shape n m (np_zeros2 n m).
Proof.
  unfold np_zeros2, np_zeros. split; [apply repeat_length|].
  apply Forall_forall. intros row Hrow. apply list_elem_of_In, repeat_spec in Hrow.
  subst. apply repeat_length.
Qed.

Lemma unordered_swap (a b : nat) : unordered (b, a) = unordered (a, b).
Proof. unfold unordered. simpl. f_equal; lia. Qed.

Lemma sum_over_zero {A} (l : list A) (f : A -> R) :
  (forall p, p ∈ l -> f p = 0%R) -> sum_over l f = 0%R.
Proof.
  intros Hf. induction l as [|p l IH]; simpl; [done|].
  rewrite (Hf p) by left. rewrite IH; [lra|]. intros q Hq. apply Hf. by right.
Qed.

Ltac split_updates :=
  repeat case_decide; try lia; try done.

Lemma stats_step_spec (K : nat) (em ev ec : matrix) (a b : nat) (xs : batch) :
  has_shape K K em -> has_shape K K ev -> has_shape K K ec ->
  valid_item K ((a, b), xs) ->
  mat_get ev a b = 0%R -> mat_get ev b a = 0%R ->
  exists em' ev' ec',
    stats_step (em, ev, ec) ((a, b), xs) = Ok (em', ev', ec') /\
    has_shape K K em' /\ has_shape K K ev' /\ has_shape K K ec' /\
    (forall p q, unordered (p, q) ≠ unordered (a, b) ->
                 mat_get ev' p q = mat_get ev p q) /\
    (forall i, (i < K)%nat ->
       row_sum K ev' ec' i
       = (row_sum K ev ec i + np_pair_term i ((a, b), xs))%R).
Proof.
  intros Hem Hev Hec (Ha & Hb & Hab & Hne & Hrows) Hab0 Hba0.
  simpl in Ha, Hb, Hab, Hne, Hrows.
  unfold stats_step. rewrite (unpack2_ok xs Hrows), bind_Ok.
  set (x := column 0 xs). set (y := column 1 xs).
  assert (length x = length y) as Hlen
    by (subst x y; unfold column; by rewrite !length_map).
  destruct (mat_set_spec K K em a b (np_mean x) Hem Ha Hb) as (em1 & -> & Hem1 & _).
  rewrite bind_Ok.
  destruct (mat_set_spec K K em1 b a (np_mean y) Hem1 Hb Ha) as (em2 & -> & Hem2 & _).
  rewrite bind_Ok.
  destruct (mat_set_spec K K ev a b (np_var x) Hev Ha Hb) as (ev1 & -> & Hev1 & Hg1).
  rewrite bind_Ok.
  destruct (mat_set_spec K K ev1 b a (np_var y) Hev1 Hb Ha) as (ev2 & -> & Hev2 & Hg2).
  rewrite bind_Ok. cbv zeta.
  destruct (mat_set_spec K K ec a b (np_corrcoef01 x y) Hec Ha Hb)
    as (ec1 & -> & Hec1 & Hc1).
  rewrite bind_Ok.
  destruct (mat_set_spec K K ec1 b a (np_corrcoef01 x y) Hec1 Hb Ha)
    as (ec2 & -> & Hec2 & Hc2).
  rewrite bind_Ok.
  exists em2, ev2, ec2. split; [done|]. do 3 (split; [done|]). split.
  - intros p q Hpq. rewrite Hg2, Hg1.
    assert (~ (p = a /\ q = b)) by (intros [-> ->]; done).
    assert (~ (p = b /\ q = a)) by (intros [-> ->]; by rewrite unordered_swap in Hpq).
    by rewrite !decide_False.
  - intros i Hi. unfold np_pair_term. fold x y. cbv zeta.
    set (c := np_corrcoef01 x y) in *.
    unfold row_sum.
    destruct (decide (a = i)) as [Hai|Hai]; [subst i|].
    + apply (sum_over_point_update (seq 0 K) b).
      * apply NoDup_seq.
      * apply elem_of_seq. lia.
      * intros q Hq Hqb. rewrite Hg2, Hg1, Hc2, Hc1. split_updates.
      * rewrite Hg2, Hg1, Hc2, Hc1. split_updates. rewrite Hba0. ring.
    + destruct (decide (b = i)) as [Hbi|Hbi]; [subst i|].
      * apply (sum_over_point_update (seq 0 K) a).
        -- apply NoDup_seq.
        -- apply elem_of_seq. lia.
        -- intros q Hq Hqa. rewrite Hg2, Hg1, Hc2, Hc1. split_updates.
        -- rewrite Hg2, Hg1, Hc2, Hc1. split_updates. rewrite Hab0. ring.
      * rewrite Rplus_0_r. apply sum_over_ext. intros p Hp.
        rewrite Hg2, Hg1, Hc2, Hc1. split_updates.
Qed.

Lemma stats_fold_spec (K : nat) (d : dict) :
  forall em ev ec,
  has_shape K K em -> has_shape K K ev -> has_shape K K ec ->
  Forall (valid_item K) d ->
  NoDup ((fun kv => unordered kv.1) <$> d) ->
  Forall (fun kv : arm_pair * batch =>
            mat_get ev kv.1.1 kv.1.2 = 0%R /\ mat_get ev kv.1.2 kv.1.1 = 0%R) d ->
  exists em' ev' ec',
    foldlM stats_step (em, ev, ec) d = Ok (em', ev', ec') /\
    has_shape K K ev' /\ has_shape K K ec' /\
    forall i, (i < K)%nat ->
      row_sum K ev' ec' i = (row_sum K ev ec i + sum_over d (np_pair_term i))%R.
Proof.
  induction d as [|[[a b] xs] d IH]; intros em ev ec Hem Hev Hec Hvalid Hnd Hzero.
  - exists em, ev, ec. split; [done|]. do 2 (split; [done|]).
    intros i Hi. unfold sum_over. simpl. lra.
  - apply Forall_cons in Hvalid as [Hitem Hvalid].
    apply Forall_cons in Hzero as [[Hab0 Hba0] Hzero].
    rewrite fmap_cons in Hnd. apply NoDup_cons in Hnd as [Hfresh Hnd].
    simpl in Hab0, Hba0, Hfresh.
    destruct (stats_step_spec K em ev ec a b xs Hem Hev Hec Hitem Hab0 Hba0)
      as (em1 & ev1 & ec1 & Hstep & Hem1 & Hev1 & Hec1 & Hframe & Hsum1).
    destruct (IH em1 ev1 ec1 Hem1 Hev1 Hec1 Hvalid Hnd)
      as (em2 & ev2 & ec2 & Hfold & Hev2 & Hec2 & Hsum2).
    { rewrite Forall_forall in Hzero |- *. intros [[a' b'] xs'] Hin.
      specialize (Hzero _ Hin). simpl in Hzero |- *.
      assert (unordered (a', b') ≠ unordered (a, b)) as Hne.
      { intros Heq. apply Hfresh. rewrite <- Heq.
        apply (list_elem_of_fmap_2 (fun kv : arm_pair * batch => unordered kv.1)
                 d ((a', b'), xs')). done. }
      rewrite !Hframe; [done | by rewrite unordered_swap | done]. }
    exists em2, ev2, ec2. split.
    + change (foldlM stats_step (em, ev, ec) (((a, b), xs) :: d))
        with (stats_step (em, ev, ec) ((a, b), xs) ≫= fun a' => foldlM stats_step a' d).
      by rewrite Hstep, bind_Ok.
    + do 2 (split; [done|]). intros i Hi. rewrite Hsum2, Hsum1 by done.
      simpl. lra.
Qed.

(** ** The MSE estimator *)

Lemma mse_np_estimate (K : nat) (d : dict) :
  valid_pair_samples K d -> mse d K = Ok (tabulate K (np_estimate d)).
Proof.
  intros [Hvalid Hnd]. unfold mse, sample_stats.
  destruct (stats_fold_spec K d (np_zeros2 K K) (np_zeros2 K K) (np_zeros2 K K))
    as (em & ev & ec & -> & Hev & Hec & Hsum);
    try apply has_shape_zeros; try done.
  { apply Forall_forall. intros kv _. by rewrite !mat_get_zeros. }
  rewrite bind_Ok. f_equal. rewrite mse_of_stats_row_sum by done.
  apply tabulate_ext. intros i Hi. rewrite Hsum by done.
  unfold np_estimate, row_sum. rewrite sum_over_zero; [lra|].
  intros p _. rewrite mat_get_zeros. ring.
Qed.


(** ** Signs of the phase increments *)

Lemma np_subtract_diffs (a : Z) (l : list Z) :
  np_subtract (drop 1 (a :: l)) (take (length (a :: l) - 1) (a :: l)) = diffs a l.
Proof.
  unfold np_subtract.
  replace (length (a :: l) - 1)%nat with (length l) by (simpl; lia).
  change (drop 1 (a :: l)) with l. revert a.
  induction l as [|b l IH]; intros a; [done|].
  change (take (length (b :: l)) (a :: b :: l)) with (a :: take (length l) (b :: l)).
  simpl. f_equal. apply IH.
Qed.

Lemma sr_ts_diffs (budget K : Z) :
  sr_ts budget K
  = diffs 0 (map (closed_form_n (weighted_logbar K) budget K) (range 1 K)).
Proof.
  assert (sr_trials budget K
          = map (closed_form_n (weighted_logbar K) budget K) (range 1 K)) as Htr.
  { apply map_ext. intros k. apply sr_trials_closed_form. }
  unfold sr_ts, sr_ns. cbv zeta. rewrite Htr. apply np_subtract_diffs.
Qed.

Lemma length_diffs (a : Z) (l : list Z) : length (diffs a l) = length l.
Proof. revert a. induction l as [|b l IH]; intros a; simpl; [done | by rewrite IH]. Qed.

Lemma length_range (a b : Z) : length (range a b) = Z.to_nat (b - a).
Proof. unfold range. by rewrite length_map, length_seq. Qed.

Lemma length_sr_ts (budget : Z) (K : nat) :
  length (sr_ts budget (Z.of_nat K)) = (K - 1)%nat.
Proof. rewrite sr_ts_diffs, length_diffs, length_map, length_range. lia. Qed.

Lemma big_sum_nonneg (f : Z -> Q) (cnt : nat) (lo : Z) :
  (forall j, lo <= j < lo + Z.of_nat cnt -> (0 <= f j)%Q) ->
  (0 <= big_sum f lo cnt)%Q.
Proof.
  revert lo. induction cnt as [|cnt IH]; intros lo Hf; simpl; [Lqa.lra|].
  assert (0 <= f lo)%Q by (apply Hf; lia).
  assert (0 <= big_sum f (lo + 1) cnt)%Q by (apply IH; intros j Hj; apply Hf; lia).
  Lqa.lra.
Qed.

Lemma inject_Z_pos (z : Z) : 0 < z -> (0 < inject_Z z)%Q.
Proof. intros Hz. unfold Qlt, inject_Z. simpl. lia. Qed.

Lemma inject_Z_nonneg (z : Z) : 0 <= z -> (0 <= inject_Z z)%Q.
Proof. intros Hz. unfold Qle, inject_Z. simpl. lia. Qed.

Lemma weighted_logbar_pos (K : Z) : 2 <= K -> (0 < weighted_logbar K)%Q.
Proof.
  intros HK. unfold weighted_logbar.
  assert (0 < inject_Z (K - 1) / 2)%Q as Hhalf.
  { apply Qlt_shift_div_l; [done|]. rewrite Qmult_0_l. apply inject_Z_pos. lia. }
  assert (0 <= big_sum (fun j => inject_Z j / inject_Z (K - j)) 1
                       (Z.to_nat (K - 2)))%Q as Hsum.
  { apply big_sum_nonneg. intros j Hj.
    apply Qle_shift_div_l; [apply inject_Z_pos; lia|].
    rewrite Qmult_0_l. apply inject_Z_nonneg. lia. }
  Lqa.lra.
Qed.

Section Schedule.
Variables (budget K : Z).
Hypothesis HK : 2 <= K.

Let x : Q := (inject_Z budget - inject_Z (K * (K - 1)) / 2)%Q.
Let den (k : Z) : Q := (weighted_logbar K * inject_Z (K + 1 - k))%Q.

Lemma den_pos (k : Z) : k <= K -> (0 < den k)%Q.
Proof.
  intros Hk. unfold den. apply Qmult_lt_0_compat.
  - by apply weighted_logbar_pos.
  - apply inject_Z_pos. lia.
Qed.

Lemma den_antitone (k : Z) : (den (k + 1) <= den k)%Q.
Proof.
  unfold den. rewrite !(Qmult_comm (weighted_logbar K)).
  apply Qmult_le_compat_r; [|apply Qlt_le_weak; by apply weighted_logbar_pos].
  rewrite <- Zle_Qle. lia.
Qed.

Lemma inv_den_monotone (k : Z) : k + 1 <= K -> (/ den k <= / den (k + 1))%Q.
Proof.
  intros Hk.
  assert (0 < den k)%Q as H1 by (apply den_pos; lia).
  assert (0 < den (k + 1))%Q as H2 by (apply den_pos; lia).
  apply Qle_shift_inv_l; [done|].
  rewrite Qmult_comm. apply Qle_shift_div_r; [done|].
  rewrite Qmult_1_l. apply den_antitone.
Qed.

Lemma x_sign_nonneg : K * (K - 1) <= 2 * budget -> (0 <= x)%Q.
Proof.
  intros Hb. unfold x.
  assert (inject_Z (K * (K - 1)) <= inject_Z (2 * budget))%Q as Hle
    by (by rewrite <- Zle_Qle).
  rewrite (inject_Z_mult 2 budget) in Hle.
  change (inject_Z 2) with 2%Q in Hle. unfold Qdiv.
  change (/ 2)%Q with (1 # 2)%Q. Lqa.lra.
Qed.

Lemma x_sign_neg : 2 * budget < K * (K - 1) -> (x < 0)%Q.
Proof.
  intros Hb. unfold x.
  assert (inject_Z (2 * budget) < inject_Z (K * (K - 1)))%Q as Hlt
    by (by rewrite <- Zlt_Qlt).
  rewrite (inject_Z_mult 2 budget) in Hlt.
  change (inject_Z 2) with 2%Q in Hlt. unfold Qdiv.
  change (/ 2)%Q with (1 # 2)%Q. Lqa.lra.
Qed.

Lemma closed_form_n_unfold (k : Z) :
  closed_form_n (weighted_logbar K) budget K k = Qceiling (x * / den k)%Q.
Proof. reflexivity. Qed.

(** A budget of at least [K(K-1)/2] makes the cumulative counts
    non-negative and non-decreasing. *)
Lemma closed_form_n_nonneg (k : Z) :
  K * (K - 1) <= 2 * budget -> k <= K ->
  0 <= closed_form_n (weighted_logbar K) budget K k.
Proof.
  intros Hb Hk. rewrite closed_form_n_unfold.
  change 0 with (Qceiling 0). apply Qceiling_resp_le.
  apply Qmult_le_0_compat; [by apply x_sign_nonneg|].
  apply Qinv_le_0_compat, Qlt_le_weak, den_pos. lia.
Qed.

Lemma closed_form_n_monotone (k : Z) :
  K * (K - 1) <= 2 * budget -> k + 1 <= K ->
  closed_form_n (weighted_logbar K) budget K k
  <= closed_form_n (weighted_logbar K) budget K (k + 1).
Proof.
  intros Hb Hk. rewrite !closed_form_n_unfold. apply Qceiling_resp_le.
  rewrite !(Qmult_comm x). apply Qmult_le_compat_r; [|by apply x_sign_nonneg].
  by apply inv_den_monotone.
Qed.

(** A smaller budget makes them non-positive and non-increasing. *)
Lemma closed_form_n_nonpos (k : Z) :
  2 * budget < K * (K - 1) -> k <= K ->
  closed_form_n (weighted_logbar K) budget K k <= 0.
Proof.
  intros Hb Hk. rewrite closed_form_n_unfold.
  change 0 with (Qceiling 0). apply Qceiling_resp_le.
  assert (0 <= / den k)%Q as Hinv
    by (apply Qinv_le_0_compat, Qlt_le_weak, den_pos; lia).
  assert (0 <= (- x) * / den k)%Q as Hprod.
  { apply Qmult_le_0_compat; [|done]. pose proof (x_sign_neg Hb). Lqa.lra. }
  Lqa.lra.
Qed.

Lemma closed_form_n_antitone (k : Z) :
  2 * budget < K * (K - 1) -> k + 1 <= K ->
  closed_form_n (weighted_logbar K) budget K (k + 1)
  <= closed_form_n (weighted_logbar K) budget K k.
Proof.
  intros Hb Hk. rewrite !closed_form_n_unfold. apply Qceiling_resp_le.
  assert ((- x) * / den k <= (- x) * / den (k + 1))%Q as Hle.
  { rewrite !(Qmult_comm (- x)). apply Qmult_le_compat_r.
    - by apply inv_den_monotone.
    - pose proof (x_sign_neg Hb). Lqa.lra. }
  Lqa.lra.
Qed.

End Schedule.

Lemma diffs_range_sign (P : Z -> Prop) (N : Z -> Z) (lo : Z) (n : nat) :
  forall (s : nat) (a : Z),
  P (N (lo + Z.of_nat s) - a) ->
  (forall i : nat, (s <= i)%nat -> (S i < s + n)%nat ->
      P (N (lo + Z.of_nat (S i)) - N (lo + Z.of_nat i))) ->
  Forall P (diffs a (map N (map (fun i => lo + Z.of_nat i) (seq s n)))).
Proof.
  induction n as [|n IH]; intros s a Hfirst Hstep; simpl; [constructor|].
  constructor; [done|]. destruct n as [|n]; [constructor|].
  apply IH.
  - apply Hstep; lia.
  - intros i Hi1 Hi2. apply Hstep; lia.
Qed.

Lemma sr_ts_nonneg (budget : Z) (K : nat) :
  (2 <= K)%nat -> Z.of_nat K * (Z.of_nat K - 1) <= 2 * budget ->
  Forall (fun t => 0 <= t) (sr_ts budget (Z.of_nat K)).
Proof.
  intros HK Hb. rewrite sr_ts_diffs. unfold range.
  apply diffs_range_sign.
  - pose proof (closed_form_n_nonneg budget (Z.of_nat K) ltac:(lia) (1 + Z.of_nat 0) Hb).
    lia.
  - intros i Hi1 Hi2.
    pose proof (closed_form_n_monotone budget (Z.of_nat K) ltac:(lia)
                  (1 + Z.of_nat i) Hb) as Hm.
    replace (1 + Z.of_nat i + 1) with (1 + Z.of_nat (S i)) in Hm by lia.
    lia.
Qed.

Lemma sr_ts_nonpos (budget : Z) (K : nat) :
  (2 <= K)%nat -> 2 * budget < Z.of_nat K * (Z.of_nat K - 1) ->
  Forall (fun t => t <= 0) (sr_ts budget (Z.of_nat K)).
Proof.
  intros HK Hb. rewrite sr_ts_diffs. unfold range.
  apply diffs_range_sign.
  - pose proof (closed_form_n_nonpos budget (Z.of_nat K) ltac:(lia) (1 + Z.of_nat 0) Hb).
    lia.
  - intros i Hi1 Hi2.
    pose proof (closed_form_n_antitone budget (Z.of_nat K) ltac:(lia)
                  (1 + Z.of_nat i) Hb) as Hm.
    replace (1 + Z.of_nat i + 1) with (1 + Z.of_nat (S i)) in Hm by lia.
    lia.
Qed.

(** ** Selecting the arm to reject *)

Lemma Rgtb_true (a b : R) : Rgtb a b = true <-> (a > b)%R.
Proof. unfold Rgtb. destruct (Rgt_dec a b); split; (done || lra). Qed.

Lemma Rgtb_false (a b : R) : Rgtb a b = false <-> (a <= b)%R.
Proof. unfold Rgtb. destruct (Rgt_dec a b); split; (done || lra). Qed.

Lemma Rltb_true (a b : R) : Rltb a b = true <-> (a < b)%R.
Proof. unfold Rltb. destruct (Rlt_dec a b); split; (done || lra). Qed.

Lemma Rltb_false (a b : R) : Rltb a b = false <-> (b <= a)%R.
Proof. unfold Rltb. destruct (Rlt_dec a b); split; (done || lra). Qed.

Lemma elem_of_active_values (vals : vec) (B : gset nat) (i : nat) (w : R) :
  (i, w) ∈ active_values vals B <-> vals !! i = Some w /\ i ∈ B.
Proof.
  unfold active_values. rewrite list_elem_of_filter, elem_of_lookup_imap. simpl.
  split.
  - intros [HB (j & y & Heq & Hl)]. by simplify_eq.
  - intros [Hl HB]. split; [done|]. by exists i, w.
Qed.

Lemma enumerate_filter_ascending (P : nat * R -> Prop) `{!forall x, Decision (P x)}
    (l : vec) (k : nat) :
  ascending (filter P (imap (fun i v => ((k + i)%nat, v)) l)).
Proof.
  revert k. induction l as [|x l IH]; intros k; [done|].
  assert (ascending (filter P (imap ((fun i v => ((k + i)%nat, v)) ∘ S) l))
          /\ Forall (fun y : nat * R => (k + 0 < y.1)%nat)
                    (filter P (imap ((fun i v => ((k + i)%nat, v)) ∘ S) l)))
    as [Hasc Hall].
  { rewrite (imap_ext _ (fun i v => ((S k + i)%nat, v))) by (intros; simpl; f_equal; lia).
    split; [apply IH|]. apply Forall_forall. intros [j w] Hin.
    apply list_elem_of_filter in Hin as [_ Hin].
    apply elem_of_lookup_imap in Hin as (i & y & Heq & _). simplify_eq. simpl. lia. }
  cbn [imap]. rewrite filter_cons. case_decide; [split|]; done.
Qed.

Lemma active_values_ascending (vals : vec) (B : gset nat) :
  ascending (active_values vals B).
Proof. apply (enumerate_filter_ascending _ vals 0). Qed.

Lemma max_from_spec (l : list (nat * R)) :
  forall best, ascending (best :: l) ->
    max_from best l ∈ best :: l /\
    forall x, x ∈ best :: l ->
      (x.2 <= (max_from best l).2)%R /\
      (x.2 = (max_from best l).2 -> ((max_from best l).1 <= x.1)%nat).
Proof.
  induction l as [|x l IH]; intros best Hasc.
  - simpl. split; [left|]. intros y Hy. apply list_elem_of_singleton in Hy as ->.
    split; [lra | lia].
  - destruct Hasc as [Hbest [Hx Hl]].
    apply Forall_cons in Hbest as [Hbx Hbl]. simpl.
    destruct (Rgtb x.2 best.2) eqn:Hcmp.
    + apply Rgtb_true in Hcmp.
      destruct (IH x) as [Hin Hmax]; [by split|].
      split; [by right|]. intros y Hy.
      apply elem_of_cons in Hy as [->|Hy]; [|by apply Hmax].
      destruct (Hmax x) as [Hle _]; [left|]. split; [lra|]. intros Heq. lra.
    + apply Rgtb_false in Hcmp.
      destruct (IH best) as [Hin Hmax]; [by split|].
      destruct (Hmax best) as [Hble Hbtie]; [left|].
      split.
      { apply elem_of_cons in Hin as [->|Hin]; [left | by do 2 right]. }
      intros y Hy. apply elem_of_cons in Hy as [->|Hy]; [by apply Hmax; left|].
      apply elem_of_cons in Hy as [->|Hy]; [|by apply Hmax; right].
      split; [lra|]. intros Heq.
      assert (best.2 = (max_from best l).2) as Htie by lra.
      specialize (Hbtie Htie). lia.
Qed.

(** The item chosen by [max] holds the greatest estimate among the active
    arms, and among the arms that hold it, the lowest index. *)
Lemma py_max_active_spec (vals : vec) (B : gset nat) (r : nat) (v : R) :
  py_max_by_value (active_values vals B) = Ok (r, v) ->
  vals !! r = Some v /\ r ∈ B /\
  forall i w, i ∈ B -> vals !! i = Some w -> (w <= v)%R /\ (w = v -> (r <= i)%nat).
Proof.
  intros Hmax. pose proof (active_values_ascending vals B) as Hasc.
  unfold py_max_by_value in Hmax.
  destruct (active_values vals B) as [|x l] eqn:Hav; [done|].
  injection Hmax as Hmax.
  destruct (max_from_spec l x Hasc) as [Hin Hall]. rewrite Hmax in Hin, Hall.
  rewrite <- Hav in Hin, Hall.
  apply elem_of_active_values in Hin as [Hr HB]. do 2 (split; [done|]).
  intros i w Hi Hw. apply (Hall (i, w)). by apply elem_of_active_values.
Qed.

Lemma py_max_active_ok (vals : vec) (B : gset nat) (i : nat) :
  i ∈ B -> (i < length vals)%nat ->
  exists r v, py_max_by_value (active_values vals B) = Ok (r, v).
Proof.
  intros Hi Hlen. destruct (lookup_lt_is_Some_2 vals i Hlen) as [w Hw].
  assert ((i, w) ∈ active_values vals B) as Hin by (by apply elem_of_active_values).
  unfold py_max_by_value. destruct (active_values vals B) as [|x l].
  - by apply elem_of_nil in Hin.
  - destruct (max_from x l) as [r v]. by exists r, v.
Qed.

Lemma min_from_spec (l : list R) :
  forall best, min_from best l ∈ best :: l /\
               forall w, w ∈ best :: l -> (min_from best l <= w)%R.
Proof.
  induction l as [|x l IH]; intros best; simpl.
  - split; [left|]. intros w Hw. apply list_elem_of_singleton in Hw as ->. lra.
  - destruct (Rltb x best) eqn:Hcmp.
    + apply Rltb_true in Hcmp. destruct (IH x) as [Hin Hmin].
      split; [by right|]. intros w Hw.
      apply elem_of_cons in Hw as [->|Hw]; [|by apply Hmin].
      specialize (Hmin x ltac:(left)). lra.
    + apply Rltb_false in Hcmp. destruct (IH best) as [Hin Hmin].
      split.
      { apply elem_of_cons in Hin as [->|Hin]; [left | by do 2 right]. }
      intros w Hw. apply elem_of_cons in Hw as [->|Hw]; [by apply Hmin; left|].
      apply elem_of_cons in Hw as [->|Hw]; [|by apply Hmin; right].
      specialize (Hmin best ltac:(left)). lra.
Qed.

(** The value chosen by [min] is the least estimate among the active arms. *)
Lemma py_min_active_spec (vals : vec) (B : gset nat) (m : R) :
  py_min (active_values vals B).*2 = Ok m ->
  (exists i, i ∈ B /\ vals !! i = Some m) /\
  forall i w, i ∈ B -> vals !! i = Some w -> (m <= w)%R.
Proof.
  intros Hmin. unfold py_min in Hmin.
  destruct ((active_values vals B).*2) as [|x l] eqn:Hav; [done|].
  injection Hmin as Hmin. destruct (min_from_spec l x) as [Hin Hall].
  rewrite Hmin in Hin, Hall. rewrite <- Hav in Hin, Hall. split.
  - apply list_elem_of_fmap in Hin as ([i w] & -> & Hin).
    apply elem_of_active_values in Hin as [Hw Hi]. by exists i.
  - intros i w Hi Hw. apply Hall. apply list_elem_of_fmap. exists (i, w).
    split; [done|]. by apply elem_of_active_values.
Qed.

Lemma py_min_active_ok (vals : vec) (B : gset nat) (i : nat) :
  i ∈ B -> (i < length vals)%nat ->
  exists m, py_min (active_values vals B).*2 = Ok m.
Proof.
  intros Hi Hlen. destruct (lookup_lt_is_Some_2 vals i Hlen) as [w Hw].
  assert ((i, w) ∈ active_values vals B) as Hin by (by apply elem_of_active_values).
  unfold py_min. destruct (active_values vals B) as [|x l].
  - by apply elem_of_nil in Hin.
  - simpl. by eexists.
Qed.

(** ** One elimination *)

Lemma sr_eliminate_spec (st st' : sr_state) (arms_dict : dict) (mse_vals : vec) :
  sr_eliminate st arms_dict mse_vals = Ok st' ->
  exists r v m,
    py_max_by_value (active_values mse_vals (st_B st)) = Ok (r, v) /\
    py_min (active_values mse_vals (st_B st)).*2 = Ok m /\
    r ∈ st_B st /\
    st' = SrState (st_B st ∖ {[r]})
                  (filter (touches (st_B st ∖ {[r]})) (st_A st))
                  (<[r := v]> (st_mse_ests st))
                  (filter (fun kv => touches (st_B st ∖ {[r]}) kv.1) arms_dict)
                  (Some m).
Proof.
  unfold sr_eliminate. intros Hel.
  destruct (py_max_by_value _) as [[r v]|e]; [|done]. rewrite bind_Ok in Hel.
  destruct (py_min _) as [m|e]; [|done]. rewrite bind_Ok in Hel.
  destruct (decide (r ∈ st_B st)) as [Hr|Hr]; [|done]. rewrite bind_Ok in Hel.
  exists r, v, m. by simplify_eq.
Qed.

Lemma sr_eliminate_ok (st : sr_state) (arms_dict : dict) (mse_vals : vec) (i : nat) :
  i ∈ st_B st -> (i < length mse_vals)%nat ->
  exists st', sr_eliminate st arms_dict mse_vals = Ok st'.
Proof.
  intros Hi Hlen. unfold sr_eliminate.
  destruct (py_max_active_ok mse_vals (st_B st) i Hi Hlen) as (r & v & Hmax).
  destruct (py_min_active_ok mse_vals (st_B st) i Hi Hlen) as (m & Hmin).
  rewrite Hmax, bind_Ok, Hmin, bind_Ok.
  apply py_max_active_spec in Hmax as (_ & Hr & _).
  rewrite decide_True by done. rewrite bind_Ok. by eexists.
Qed.

(** ** Drawing samples *)

Lemma chunks_shape (w rows : nat) (l : vec) :
  length l = (rows * w)%nat ->
  length (chunks w rows l) = rows /\
  Forall (fun r => length r = w) (chunks w rows l).
Proof.
  revert l. induction rows as [|rows IH]; intros l Hlen; simpl; [by split|].
  destruct (IH (drop w l)) as [Hrows Hall]; [rewrite length_drop; lia|].
  split; [by rewrite Hrows|]. constructor; [|done].
  rewrite length_take. lia.
Qed.

Lemma np_reshape_rows_ok (size : Z) (w : nat) (a : vec) :
  0 < size -> length a = (Z.to_nat size * w)%nat ->
  np_reshape_rows size a = Ok (chunks w (Z.to_nat size) a).
Proof.
  intros Hsize Hlen. unfold np_reshape_rows.
  rewrite decide_False by lia. rewrite Hlen.
  assert (Z.to_nat size ≠ 0%nat) as Hnz by lia.
  rewrite (Nat.mul_comm (Z.to_nat size) w), Nat.Div0.mod_mul.
  rewrite decide_True by done. by rewrite Nat.div_mul.
Qed.

Lemma np_reshape_rows_nonpos (size : Z) (a : vec) :
  size <= 0 -> np_reshape_rows size a = Raise ValueError.
Proof. intros Hsize. unfold np_reshape_rows. by rewrite decide_True. Qed.

Lemma mapM_result_ok {A B} (f : A -> result B) (Q : B -> Prop) (l : list A) :
  Forall (fun x => exists y, f x = Ok y /\ Q y) l ->
  exists ys, mapM f l = Ok ys /\ length ys = length l /\ Forall Q ys.
Proof.
  induction 1 as [|x l (y & Hy & HQ) _ (ys & Hys & Hlen & Hall)].
  - by exists [].
  - exists (y :: ys). cbn. rewrite Hy. cbn. rewrite Hys. cbn.
    split; [done|]. split; [by rewrite Hlen | by constructor].
Qed.

Lemma select_columns_ok (w : nat) (arms : list nat) (samples : batch) :
  Forall (fun row => length row = w) samples ->
  Forall (fun a => (a < w)%nat) arms ->
  exists xs, select_columns arms samples = Ok xs /\
             length xs = length samples /\
             Forall (fun r => length r = length arms) xs.
Proof.
  intros Hrows Harms. unfold select_columns. apply mapM_result_ok.
  eapply Forall_impl; [exact Hrows|]. intros row Hrow. simpl in Hrow |- *.
  destruct (mapM_result_ok
              (fun a => match row !! a with
                        | Some x => Ok x
                        | None => Raise IndexError
                        end) (fun _ => True) arms) as (ys & Hys & Hlen & _).
  { eapply Forall_impl; [exact Harms|]. intros a Ha. simpl in Ha |- *.
    destruct (lookup_lt_is_Some_2 row a) as [x Hx]; [lia|]. rewrite Hx. by eexists. }
  by exists ys.
Qed.

Lemma sample_arms_ok {G} (b : bandit G) (arms : list nat) (size : Z) (g : G) :
  sampler_ok b -> 0 < size ->
  Forall (fun a => (a < num_arms b)%nat) arms ->
  exists xs g', sample_arms b arms size g = Ok (xs, g') /\
                length xs = Z.to_nat size /\
                Forall (fun r => length r = length arms) xs.
Proof.
  intros Hok Hsize Harms. unfold sample_arms.
  destruct (Hok size g Hsize) as (data & g' & -> & Hlen). rewrite bind_Ok.
  rewrite (np_reshape_rows_ok size (num_arms b)) by done. rewrite bind_Ok.
  destruct (chunks_shape (num_arms b) (Z.to_nat size) data Hlen) as [Hrows Hall].
  destruct (select_columns_ok (num_arms b) arms _ Hall Harms)
    as (xs & -> & Hxs & Hcols).
  rewrite bind_Ok. exists xs, g'. split; [done|]. split; [lia | done].
Qed.

(** A request for no draw, or for a negative number of draws, always
    raises: the sampler does, or else the reshape of its answer. *)
Lemma sample_arms_nonpos {G} (b : bandit G) (arms : list nat) (size : Z) (g : G) :
  size <= 0 ->
  sample_arms b arms size g
  = match sample_distr b size g with
    | Ok _ => Raise ValueError
    | Raise e => Raise e
    end.
Proof.
  intros Hsize. unfold sample_arms.
  destruct (sample_distr b size g) as [[data g']|e]; [|done].
  rewrite bind_Ok. by rewrite np_reshape_rows_nonpos.
Qed.

(** ** Dictionaries *)

Lemma dict_get_None (d : dict) (p : arm_pair) :
  dict_get d p = None <-> p ∉ d.*1.
Proof.
  induction d as [|[q v] d IH].
  - simpl. split; [intros _; apply not_elem_of_nil | done].
  - rewrite fmap_cons, not_elem_of_cons. cbn [dict_get fst].
    destruct (decide (q = p)) as [Heq|Hne].
    + split; [done | intros [Hc _]; by destruct Hc].
    + rewrite IH. split; [by split | by intros [_ ?]].
Qed.

Lemma dict_get_Some (d : dict) (p : arm_pair) (v : batch) :
  dict_get d p = Some v -> (p, v) ∈ d.
Proof.
  induction d as [|[q w] d IH]; simpl; [done|].
  case_decide; subst.
  - intros [= ->]. left.
  - intros Hget. right. by apply IH.
Qed.

Lemma dict_set_new (d : dict) (p : arm_pair) (v : batch) :
  dict_get d p = None -> dict_set d p v = d ++ [(p, v)].
Proof.
  induction d as [|[q w] d IH]; simpl; [done|].
  case_decide; [done|]. intros Hget. by rewrite IH.
Qed.

Lemma dict_set_keys (d : dict) (p : arm_pair) (v : batch) :
  is_Some (dict_get d p) -> (dict_set d p v).*1 = d.*1.
Proof.
  induction d as [|[q w] d IH]; cbn [dict_get dict_set]; [by intros [? ?]|].
  destruct (decide (q = p)) as [->|Hne]; [done|]. intros Hget.
  rewrite !fmap_cons. by rewrite IH.
Qed.

Lemma dict_set_Forall (P : arm_pair * batch -> Prop) (d : dict) (p : arm_pair)
    (v : batch) :
  Forall P d -> P (p, v) -> Forall P (dict_set d p v).
Proof.
  intros Hd Hp. induction Hd as [|[q w] d Hq Hd IH]; simpl.
  - by constructor.
  - case_decide; constructor; done.
Qed.

Lemma dict_inv_nil (K : nat) : dict_inv K [].
Proof. split; constructor. Qed.

Lemma dict_inv_filter (K : nat) (P : arm_pair * batch -> Prop)
    `{!forall x, Decision (P x)} (d : dict) :
  dict_inv K d -> dict_inv K (filter P d).
Proof.
  intros [Hnd Hall]. split.
  - eapply sublist_NoDup; [exact Hnd|]. apply fmap_sublist, sublist_filter.
  - apply Forall_forall. intros x Hx. apply list_elem_of_filter in Hx as [_ Hx].
    rewrite Forall_forall in Hall. by apply Hall.
Qed.

Lemma dict_inv_valid (K : nat) (d : dict) : dict_inv K d -> valid_pair_samples K d.
Proof.
  intros [Hnd Hall]. split.
  - eapply Forall_impl; [exact Hall|]. by intros kv [_ ?].
  - replace ((fun kv : arm_pair * batch => unordered kv.1) <$> d) with d.*1; [done|].
    apply Forall_fmap_ext. eapply Forall_impl; [exact Hall|].
    intros [[a b'] xs] [Hlt _]. simpl in *. unfold unordered. simpl.
    f_equal; lia.
Qed.

Lemma mse_dict_inv (K : nat) (d : dict) :
  dict_inv K d -> mse d K = Ok (tabulate K (np_estimate d)).
Proof. intros Hd. by apply mse_np_estimate, dict_inv_valid. Qed.

Lemma mse_empty (K : nat) : mse [] K = Ok (np_zeros K).
Proof.
  rewrite mse_dict_inv by apply dict_inv_nil. f_equal.
  unfold np_zeros. by rewrite repeat_tabulate.
Qed.

(** ** Batches accumulate *)

Lemma dict_get_set_eq (d : dict) (p : arm_pair) (v : batch) :
  dict_get (dict_set d p v) p = Some v.
Proof.
  induction d as [|[q w] d IH]; cbn [dict_set dict_get].
  - by rewrite decide_True.
  - destruct (decide (q = p)) as [->|Hne]; cbn [dict_get].
    + by rewrite decide_True.
    + by rewrite decide_False.
Qed.

Lemma dict_get_set_ne (d : dict) (p q : arm_pair) (v : batch) :
  q ≠ p -> dict_get (dict_set d q v) p = dict_get d p.
Proof.
  intros Hne. induction d as [|[q' w] d IH]; cbn [dict_set dict_get].
  - by rewrite decide_False.
  - destruct (decide (q' = q)) as [->|Hne']; cbn [dict_get].
    + by rewrite !decide_False.
    + destruct (decide (q' = p)); [done | apply IH].
Qed.

Section Accumulation.
Context {G : Type}.

(** A phase leaves alone the batch of a pair it does not visit, and
    appends the new draws of a pair it visits to the batch already held:
    the statistics of a pair are always those of all its draws so far. *)
Lemma sample_pairs_accumulates (b : bandit G) (t : Z) (pairs : list arm_pair) :
  forall (d d' : dict) (g g' : G) (p : arm_pair),
  t ≠ 0 -> NoDup pairs ->
  sample_pairs b t pairs d g = Ok (d', g') ->
  (p ∉ pairs -> dict_get d' p = dict_get d p) /\
  (p ∈ pairs ->
   exists xs g1 g2,
     sample_arms b [p.1; p.2] t g1 = Ok (xs, g2) /\
     dict_get d' p = Some (default [] (dict_get d p) ++ xs)).
Proof.
  induction pairs as [|q pairs IH]; intros d d' g g' p Ht Hnd Hrun.
  - simpl in Hrun. simplify_eq. split; [done|]. by intros ?%elem_of_nil.
  - apply NoDup_cons in Hnd as [Hq Hnd]. cbn [sample_pairs] in Hrun.
    rewrite decide_False in Hrun by done.
    destruct (sample_arms b [q.1; q.2] t g) as [[xs g1]|e] eqn:Hdraw; [|done].
    rewrite bind_Ok in Hrun. cbv beta iota zeta in Hrun.
    destruct (IH _ _ _ _ p Ht Hnd Hrun) as [Hout Hin].
    split.
    + intros Hp. apply not_elem_of_cons in Hp as [Hpq Hp].
      rewrite (Hout Hp). destruct (dict_get d q); by apply dict_get_set_ne.
    + intros Hp. apply elem_of_cons in Hp as [->|Hp].
      * exists xs, g, g1. split; [done|]. rewrite (Hout Hq).
        destruct (dict_get d q) as [old|]; by rewrite dict_get_set_eq.
      * destruct (Hin Hp) as (ys & g2 & g3 & Hys & Hget).
        exists ys, g2, g3. split; [done|]. rewrite Hget. f_equal. f_equal.
        f_equal. assert (q ≠ p) as Hne by (by intros ->).
        destruct (dict_get d q); by apply dict_get_set_ne.
Qed.

End Accumulation.

(** ** The phases of Successive Rejects *)

Lemma elem_of_all_pairs (K : nat) (p : arm_pair) :
  p ∈ all_pairs K <-> (p.1 < p.2 < K)%nat.
Proof.
  unfold all_pairs. rewrite list_elem_of_bind. split.
  - intros (i & Hin & Hi). apply list_elem_of_fmap in Hin as (j & -> & Hj).
    apply elem_of_seq in Hi, Hj. simpl. lia.
  - intros Hp. exists p.1. split; [|apply elem_of_seq; lia].
    apply list_elem_of_fmap. exists p.2. split; [by destruct p|].
    apply elem_of_seq. lia.
Qed.

Lemma sr_inv_init (K : nat) : sr_inv K (sr_init K).
Proof.
  split; simpl.
  - intros i Hi. apply elem_of_list_to_set, elem_of_seq in Hi. lia.
  - intros p Hp. by apply elem_of_list_to_set, elem_of_all_pairs in Hp.
  - apply repeat_length.
  - apply dict_inv_nil.
Qed.

Lemma size_sr_init (K : nat) : size (st_B (sr_init K)) = K.
Proof. simpl. rewrite size_list_to_set by apply NoDup_seq. apply length_seq. Qed.

Section SuccessiveRejectsFacts.
Context `{PySet} {G : Type}.
Implicit Types (b : bandit G) (st : sr_state) (g : G).

Lemma sample_pairs_zero b (pairs : list arm_pair) (d : dict) g :
  sample_pairs b 0 pairs d g = Ok (d, g).
Proof. by destruct pairs. Qed.

Lemma sample_pairs_ok b (t : Z) (pairs : list arm_pair) :
  forall (d : dict) g,
  sampler_ok b -> 0 < t ->
  Forall (fun p : arm_pair => (p.1 < p.2 < num_arms b)%nat) pairs ->
  dict_inv (num_arms b) d ->
  exists d' g', sample_pairs b t pairs d g = Ok (d', g') /\
                dict_inv (num_arms b) d'.
Proof.
  induction pairs as [|p pairs IH]; intros d g Hok Ht Hpairs Hd.
  - by exists d, g.
  - apply Forall_cons in Hpairs as [Hp Hpairs]. cbn [sample_pairs].
    rewrite decide_False by lia.
    destruct (sample_arms_ok b [p.1; p.2] t g Hok Ht) as (xs & g' & -> & Hlen & Hcols).
    { repeat constructor; lia. }
    rewrite bind_Ok. cbv beta iota zeta. apply IH; try done.
    destruct Hd as [Hnd Hall].
    assert (xs ≠ []) as Hxs by (destruct xs; simpl in Hlen; [lia | done]).
    destruct (dict_get d p) as [old|] eqn:Hget.
    + split.
      * rewrite dict_set_keys; [done|]. rewrite Hget. by eexists.
      * apply dict_set_Forall; [done|].
        apply dict_get_Some in Hget. rewrite Forall_forall in Hall.
        destruct (Hall _ Hget) as [Hlt (Ha & Hb & Hab & Hne & Hrows)].
        simpl in *. split; [done|]. unfold valid_item. simpl.
        do 3 (split; [done|]). split.
        -- intros Happ. by apply app_eq_nil in Happ as [? ?].
        -- by apply Forall_app.
    + rewrite dict_set_new by done. split.
      * rewrite fmap_app. apply NoDup_app. split; [done|]. split.
        -- intros q Hq Hq'. apply list_elem_of_singleton in Hq' as ->.
           by apply dict_get_None in Hget.
        -- apply NoDup_singleton.
      * apply Forall_app. split; [done|]. constructor; [|constructor].
        simpl. split; [lia|]. unfold valid_item. simpl.
        repeat split; try lia; done.
Qed.

Lemma sr_phase_ok b (t : Z) st g (i : nat) :
  sampler_ok b -> sr_inv (num_arms b) st -> 0 <= t -> i ∈ st_B st ->
  exists st' g' r,
    sr_phase b t st g = Ok (st', g') /\ sr_inv (num_arms b) st' /\
    r ∈ st_B st /\ st_B st' = st_B st ∖ {[r]} /\ is_Some (st_min_mse st').
Proof.
  intros Hok [HB HA Hests Hdict] Ht Hi. unfold sr_phase.
  assert (exists d' g',
            sample_pairs b t (set_iter (st_A st)) (st_arms_dict st) g = Ok (d', g')
            /\ dict_inv (num_arms b) d') as (d' & g' & -> & Hd').
  { destruct (decide (t = 0)) as [->|Hne].
    - rewrite sample_pairs_zero. by eexists _, _.
    - apply sample_pairs_ok; try done; [lia|].
      apply Forall_forall. intros p Hp. apply HA.
      rewrite set_iter_perm in Hp. by apply elem_of_elements in Hp. }
  rewrite bind_Ok. cbv beta iota. rewrite (mse_dict_inv _ d' Hd'), bind_Ok.
  destruct (sr_eliminate_ok st d' (tabulate (num_arms b) (np_estimate d')) i Hi)
    as [st' Hel].
  { rewrite tabulate_length. by apply HB. }
  rewrite Hel, bind_Ok.
  destruct (sr_eliminate_spec _ _ _ _ Hel) as (r & v & m & Hmax & Hmin & Hr & ->).
  eexists _, g', r. split; [done|]. split; [|simpl; by eauto].
  split; simpl.
  - intros j Hj. apply elem_of_difference in Hj as [Hj _]. by apply HB.
  - intros p Hp. apply HA. apply elem_of_filter in Hp. tauto.
  - by rewrite length_insert.
  - by apply dict_inv_filter.
Qed.

Lemma sr_loop_ok b (ts : list Z) :
  forall st g,
  sampler_ok b -> sr_inv (num_arms b) st ->
  Forall (fun t => 0 <= t) ts -> (length ts <= size (st_B st))%nat ->
  exists st' g',
    sr_loop b ts st g = Ok (st', g') /\ sr_inv (num_arms b) st' /\
    size (st_B st') = (size (st_B st) - length ts)%nat /\
    (ts ≠ [] -> is_Some (st_min_mse st')).
Proof.
  induction ts as [|t ts IH]; intros st g Hok Hinv Hts Hlen.
  - exists st, g. simpl. split; [done|]. split; [done|]. split; [lia | done].
  - apply Forall_cons in Hts as [Ht Hts]. simpl in Hlen.
    destruct (size_pos_elem_of (st_B st)) as [i Hi]; [lia|].
    destruct (sr_phase_ok b t st g i Hok Hinv Ht Hi)
      as (st1 & g1 & r & Hphase & Hinv1 & Hr & HB1 & Hmin1).
    assert (size (st_B st1) = (size (st_B st) - 1)%nat) as Hsize1.
    { rewrite HB1, size_difference by (by apply singleton_subseteq_l).
      by rewrite size_singleton. }
    destruct (IH st1 g1 Hok Hinv1 Hts) as (st' & g' & Hloop & Hinv' & Hsize' & Hmin');
      [lia|].
    exists st', g'. cbn [sr_loop]. rewrite Hphase, bind_Ok. cbv beta iota.
    split; [done|]. split; [done|]. split; [simpl; lia|].
    intros _. destruct ts as [|t' ts']; [|by apply Hmin'].
    simpl in Hloop. by simplify_eq.
Qed.

Lemma sr_finish_singleton st (arm : nat) (m : R) :
  st_B st = {[arm]} -> st_min_mse st = Some m ->
  sr_finish st = Ok (arm, <[arm := m]> (st_mse_ests st)).
Proof.
  intros HB Hmin. unfold sr_finish. rewrite Hmin.
  destruct (set_pop (st_B st)) as [a|] eqn:Hpop.
  - apply set_pop_elem in Hpop. rewrite HB in Hpop.
    apply elem_of_singleton in Hpop as ->. done.
  - apply set_pop_none in Hpop. rewrite HB in Hpop.
    exfalso. eapply (non_empty_singleton_L (C:=gset nat)). exact Hpop.
Qed.

(** C4: with [K >= 2] arms, a budget of at least [K(K-1)/2] and a sampler
    that answers every request, a run of Successive Rejects executes
    exactly [K-1] phases; after [k] phases [K - k] arms are active; every
    phase removes exactly one arm of the active set; and the run returns
    the single arm that remains. *)
Theorem successive_rejects_phases b (budget : Z) g :
  (2 <= num_arms b)%nat ->
  Z.of_nat (num_arms b) * (Z.of_nat (num_arms b) - 1) <= 2 * budget ->
  sampler_ok b ->
  let K := num_arms b in
  let ts := sr_ts budget (Z.of_nat K) in
  length ts = (K - 1)%nat /\
  (forall k, (k <= K - 1)%nat ->
     exists st g1,
       sr_loop b (take k ts) (sr_init K) g = Ok (st, g1) /\
       size (st_B st) = (K - k)%nat /\
       forall t, ts !! k = Some t ->
         exists st' g2 r,
           sr_phase b t st g1 = Ok (st', g2) /\
           r ∈ st_B st /\ st_B st' = st_B st ∖ {[r]}) /\
  exists st g' arm ests,
    sr_loop b ts (sr_init K) g = Ok (st, g') /\
    st_B st = {[arm]} /\
    successive_rejects b budget g = Ok ((arm, ests), g').
Proof.
  intros HK Hbudget Hok K ts.
  assert (length ts = (K - 1)%nat) as Hlen by apply length_sr_ts.
  assert (Forall (fun t => 0 <= t) ts) as Hts by (by apply sr_ts_nonneg).
  split; [done|]. split.
  - intros k Hk.
    destruct (sr_loop_ok b (take k ts) (sr_init K) g Hok (sr_inv_init K))
      as (st & g1 & Hloop & Hinv & Hsize & _).
    { by apply Forall_take. }
    { rewrite length_take, size_sr_init. lia. }
    rewrite length_take, size_sr_init in Hsize.
    exists st, g1. split; [done|]. split; [lia|].
    intros t Hlook. apply lookup_lt_Some in Hlook as Hklt.
    destruct (size_pos_elem_of (st_B st)) as [i Hi]; [lia|].
    destruct (sr_phase_ok b t st g1 i Hok Hinv) as (st' & g2 & r & ? & _ & ? & ? & _);
      [|done|by exists st', g2, r].
    rewrite Forall_forall in Hts. apply Hts. by eapply list_elem_of_lookup_2.
  - destruct (sr_loop_ok b ts (sr_init K) g Hok (sr_inv_init K) Hts)
      as (st & g' & Hloop & Hinv & Hsize & Hmin).
    { rewrite size_sr_init. lia. }
    rewrite size_sr_init in Hsize.
    destruct (size_1_elem_of (st_B st)) as [arm Harm]; [lia|].
    apply leibniz_equiv in Harm.
    destruct Hmin as [m Hm]; [intros ->; simpl in Hlen; lia|].
    exists st, g', arm, (<[arm := m]> (st_mse_ests st)).
    split; [done|]. split; [done|].
    unfold successive_rejects. fold K. fold ts. rewrite Hloop, bind_Ok.
    cbv beta iota. by rewrite (sr_finish_singleton st arm m Harm Hm), bind_Ok.
Qed.

End SuccessiveRejectsFacts.

(** ** Phases that draw no sample *)

Lemma sample_arms_raises {G} (b : bandit G) (arms : list nat) (size : Z) (g : G) :
  size <= 0 -> sample_arms b arms size g = Raise (raised_by_draw b size g).
Proof.
  intros Hsize. rewrite sample_arms_nonpos by done. unfold raised_by_draw.
  by destruct (sample_distr b size g).
Qed.

Lemma elem_of_zero_B (K k i : nat) : i ∈ zero_B K k <-> (k <= i < K)%nat.
Proof. unfold zero_B. rewrite elem_of_list_to_set, elem_of_seq. lia. Qed.

Lemma zero_B_remove (K k : nat) : zero_B K k ∖ {[k]} = zero_B K (S k).
Proof.
  apply set_eq. intros i.
  rewrite elem_of_difference, elem_of_singleton, !elem_of_zero_B. lia.
Qed.

Lemma zero_B_last (K : nat) : (1 <= K)%nat -> zero_B K (K - 1) = {[(K - 1)%nat]}.
Proof.
  intros HK. apply set_eq. intros i.
  rewrite elem_of_singleton, elem_of_zero_B. lia.
Qed.

Lemma zero_state_init (K : nat) : zero_state K 0 = sr_init K.
Proof. unfold zero_state, sr_init, zero_B. simpl. by rewrite Nat.sub_0_r. Qed.

Lemma lookup_np_zeros (K i : nat) (w : R) : np_zeros K !! i = Some w -> w = 0%R.
Proof.
  unfold np_zeros. intros Hl. apply list_elem_of_lookup_2, list_elem_of_In in Hl.
  by apply repeat_spec in Hl.
Qed.

Lemma lookup_np_zeros_lt (K i : nat) : (i < K)%nat -> np_zeros K !! i = Some 0%R.
Proof.
  intros Hi. destruct (lookup_lt_is_Some_2 (np_zeros K) i) as [w Hw].
  - unfold np_zeros. by rewrite repeat_length.
  - by rewrite Hw, (lookup_np_zeros _ _ _ Hw).
Qed.

Lemma sr_eliminate_zeros (K k : nat) :
  (k < K)%nat ->
  sr_eliminate (zero_state K k) [] (np_zeros K) = Ok (zero_state K (S k)).
Proof.
  intros Hk.
  assert (k ∈ zero_B K k) as HkB by (apply elem_of_zero_B; lia).
  destruct (sr_eliminate_ok (zero_state K k) [] (np_zeros K) k) as [st' Hel];
    [done | unfold np_zeros; by rewrite repeat_length |].
  rewrite Hel. f_equal.
  destruct (sr_eliminate_spec _ _ _ _ Hel) as (r & v & m & Hmax & Hmin & Hr & ->).
  simpl in *.
  apply py_max_active_spec in Hmax as (Hv & _ & Hties).
  apply py_min_active_spec in Hmin as [(i & _ & Hm) _].
  apply lookup_np_zeros in Hv as ->. apply lookup_np_zeros in Hm as ->.
  assert (r = k) as ->.
  { apply elem_of_zero_B in Hr.
    destruct (Hties k 0%R HkB (lookup_np_zeros_lt K k Hk)) as [_ Hle].
    specialize (Hle eq_refl). lia. }
  unfold zero_state. rewrite zero_B_remove. f_equal.
  apply list_insert_id. by apply lookup_np_zeros_lt.
Qed.

Section ZeroSampleRuns.
Context `{PySet} {G : Type}.
Implicit Types (b : bandit G) (g : G).

Lemma sr_phase_zero b g (k : nat) :
  (k < num_arms b)%nat ->
  sr_phase b 0 (zero_state (num_arms b) k) g
  = Ok (zero_state (num_arms b) (S k), g).
Proof.
  intros Hk. unfold sr_phase. rewrite sample_pairs_zero, bind_Ok.
  cbv beta iota. change (st_arms_dict (zero_state (num_arms b) k)) with (@nil (arm_pair * batch)).
  rewrite mse_empty, bind_Ok. by rewrite sr_eliminate_zeros.
Qed.

Lemma sr_loop_zero b g (n : nat) :
  forall k, (k + n <= num_arms b)%nat ->
  sr_loop b (repeat 0 n) (zero_state (num_arms b) k) g
  = Ok (zero_state (num_arms b) (k + n), g).
Proof.
  induction n as [|n IH]; intros k Hk; simpl.
  - by rewrite Nat.add_0_r.
  - rewrite sr_phase_zero by lia. rewrite bind_Ok. cbv beta iota.
    rewrite IH by lia. do 3 f_equal. lia.
Qed.

Lemma sr_loop_app b (ts1 ts2 : list Z) (st : sr_state) g :
  sr_loop b (ts1 ++ ts2) st g
  = '(st1, g1) ← sr_loop b ts1 st g; sr_loop b ts2 st1 g1.
Proof.
  revert st g. induction ts1 as [|t ts1 IH]; intros st g; [done|].
  cbn [app sr_loop]. destruct (sr_phase b t st g) as [[st1 g1]|e]; [|done].
  rewrite !bind_Ok. cbv beta iota. apply IH.
Qed.

(** When every increment is zero the run draws nothing, rejects the arms
    [0, 1, ...] in turn and returns the last arm with an all-zero vector. *)
Lemma successive_rejects_zero b (budget : Z) g :
  (2 <= num_arms b)%nat ->
  Forall (fun t => t = 0) (sr_ts budget (Z.of_nat (num_arms b))) ->
  successive_rejects b budget g
  = Ok (((num_arms b - 1)%nat, np_zeros (num_arms b)), g).
Proof.
  intros HK Hts. unfold successive_rejects. cbv zeta.
  assert (sr_ts budget (Z.of_nat (num_arms b)) = repeat 0 (num_arms b - 1)) as ->.
  { rewrite <- (length_sr_ts budget (num_arms b)).
    induction Hts as [|t ts -> _ IH]; simpl; [done | by rewrite <- IH]. }
  rewrite <- zero_state_init, sr_loop_zero by lia. rewrite bind_Ok. cbv beta iota.
  rewrite (sr_finish_singleton _ (num_arms b - 1) 0%R).
  - simpl. rewrite list_insert_id; [done|]. apply lookup_np_zeros_lt. lia.
  - simpl. apply zero_B_last. lia.
  - simpl. by destruct (num_arms b - 1)%nat eqn:E; [lia|].
Qed.

Lemma zero_A_last_pair (K k : nat) :
  (2 <= K)%nat -> (k <= K - 1)%nat -> ((K - 2)%nat, (K - 1)%nat) ∈ zero_A K k.
Proof.
  intros HK. induction k as [|k IH]; intros Hk; simpl.
  - apply elem_of_list_to_set, elem_of_all_pairs. simpl. lia.
  - apply elem_of_filter. split; [|apply IH; lia].
    right. simpl. apply elem_of_zero_B. lia.
Qed.

(** A negative increment stops the run at the first sampling call. *)
Lemma sr_phase_negative b g (t : Z) (k : nat) :
  (2 <= num_arms b)%nat -> (k <= num_arms b - 1)%nat -> t < 0 ->
  sr_phase b t (zero_state (num_arms b) k) g = Raise (raised_by_draw b t g).
Proof.
  intros HK Hk Ht. unfold sr_phase.
  destruct (set_iter (st_A (zero_state (num_arms b) k))) as [|p pairs] eqn:Hiter.
  - exfalso. pose proof (zero_A_last_pair (num_arms b) k HK Hk) as Hin.
    apply elem_of_elements in Hin. rewrite <- set_iter_perm in Hin.
    simpl in Hiter. rewrite Hiter in Hin. by apply elem_of_nil in Hin.
  - cbn [sample_pairs]. rewrite decide_False by lia.
    by rewrite sample_arms_raises by lia.
Qed.

Lemma successive_rejects_negative b (budget : Z) g (n : nat) (t : Z) (rest : list Z) :
  (2 <= num_arms b)%nat ->
  sr_ts budget (Z.of_nat (num_arms b)) = repeat 0 n ++ t :: rest ->
  t < 0 ->
  successive_rejects b budget g = Raise (raised_by_draw b t g).
Proof.
  intros HK Hts Ht. unfold successive_rejects. cbv zeta.
  assert (n < num_arms b - 1)%nat as Hn.
  { rewrite <- (length_sr_ts budget (num_arms b)), Hts.
    rewrite length_app, repeat_length. simpl. lia. }
  rewrite Hts, sr_loop_app, <- zero_state_init, sr_loop_zero by lia.
  rewrite bind_Ok. cbv beta iota. cbn [sr_loop].
  by rewrite sr_phase_negative by (simpl; lia).
Qed.

End ZeroSampleRuns.

Lemma nonpos_split (ts : list Z) :
  Forall (fun t => t <= 0) ts ->
  Forall (fun t => t = 0) ts \/
  exists n t rest, ts = repeat 0 n ++ t :: rest /\ t < 0.
Proof.
  induction 1 as [|t ts Ht _ IH]; [by left|].
  destruct (decide (t = 0)) as [->|Hne].
  - destruct IH as [IH|(n & t' & rest & -> & Ht')].
    + left. by constructor.
    + right. by exists (S n), t', rest.
  - right. exists 0%nat, t, ts. split; [done | lia].
Qed.

(** ** Uniform sampling *)

Lemma all_pairs_head (K : nat) :
  (2 <= K)%nat -> exists rest, all_pairs K = (0%nat, 1%nat) :: rest.
Proof.
  intros HK. destruct K as [|[|K]]; [lia | lia |]. by eexists.
Qed.

Lemma NoDup_all_pairs (K : nat) : NoDup (all_pairs K).
Proof.
  unfold all_pairs. apply NoDup_bind.
  - intros i1 i2 p _ _ H1 H2.
    apply list_elem_of_fmap in H1 as (j1 & -> & _).
    apply list_elem_of_fmap in H2 as (j2 & Heq & _). by simplify_eq.
  - intros i _. apply NoDup_fmap_2; [|apply NoDup_seq].
    intros j1 j2 Heq. by simplify_eq.
  - apply NoDup_seq.
Qed.

Lemma length_pairs_from (K n : nat) :
  forall s, (s + n = K)%nat ->
  (2 * length (seq s n ≫= fun i => (fun j => (i, j)) <$> seq (S i) (K - S i))
   = n * (n - 1))%nat.
Proof.
  induction n as [|n IH]; intros s Hs; [done|].
  cbn [seq]. rewrite bind_cons, length_app, length_fmap, length_seq.
  specialize (IH (S s) ltac:(lia)). destruct n; simpl in *; lia.
Qed.

(** There are [K(K-1)/2] pairs. *)
Lemma length_all_pairs (K : nat) : (2 * length (all_pairs K) = K * (K - 1))%nat.
Proof. unfold all_pairs. by apply length_pairs_from. Qed.

Lemma argmin_from_spec (l : vec) :
  forall (pre : vec) (best : nat) (bv : R),
  pre !! best = Some bv ->
  (forall j w, pre !! j = Some w -> (bv <= w)%R /\ (w = bv -> (best <= j)%nat)) ->
  exists v, (pre ++ l) !! argmin_from best bv (length pre) l = Some v /\
    forall j w, (pre ++ l) !! j = Some w ->
                (v <= w)%R /\ (w = v -> (argmin_from best bv (length pre) l <= j)%nat).
Proof.
  induction l as [|x l IH]; intros pre best bv Hbest Hmin.
  - rewrite app_nil_r. simpl. by exists bv.
  - cbn [argmin_from].
    replace (pre ++ x :: l) with ((pre ++ [x]) ++ l) by (by rewrite <- app_assoc).
    replace (S (length pre)) with (length (pre ++ [x]))
      by (rewrite length_app; simpl; lia).
    destruct (Rltb x bv) eqn:Hcmp.
    + apply Rltb_true in Hcmp. apply IH.
      * rewrite lookup_app_r by lia. by rewrite Nat.sub_diag.
      * intros j w Hj. apply lookup_app_Some in Hj as [Hj|[Hlen Hj]].
        -- destruct (Hmin j w Hj). split; [lra|]. intros ->. lra.
        -- apply list_lookup_singleton_Some in Hj as [Hj ->]. split; [lra|].
           intros _. lia.
    + apply Rltb_false in Hcmp. apply IH.
      * by apply lookup_app_l_Some.
      * intros j w Hj. apply lookup_app_Some in Hj as [Hj|[Hlen Hj]].
        -- by apply Hmin.
        -- apply list_lookup_singleton_Some in Hj as [Hj ->]. split; [lra|].
           intros _. apply lookup_lt_Some in Hbest. lia.
Qed.

(** [np.argmin] returns the lowest index that holds the least value. *)
Lemma np_argmin_spec (vals : vec) :
  vals ≠ [] ->
  exists arm v, np_argmin vals = Ok arm /\ vals !! arm = Some v /\
    forall j w, vals !! j = Some w -> (v <= w)%R /\ (w = v -> (arm <= j)%nat).
Proof.
  destruct vals as [|x l]; [done|]. intros _.
  destruct (argmin_from_spec l [x] 0%nat x) as (v & Hv & Hmin); [done| |].
  - intros j w Hj. apply list_lookup_singleton_Some in Hj as [-> ->].
    split; [lra | lia].
  - by exists (argmin_from 0 x 1 l), v.
Qed.

Lemma uniform_fold_ok {G} (b : bandit G) (n : Z) (pairs : list arm_pair) :
  forall (d : dict) (g : G),
  sampler_ok b -> 0 < n ->
  Forall (fun p : arm_pair => (p.1 < p.2 < num_arms b)%nat) pairs ->
  NoDup (d.*1 ++ pairs) ->
  dict_inv (num_arms b) d ->
  Forall (fun kv : arm_pair * batch => length kv.2 = Z.to_nat n) d ->
  exists d' g',
    foldlM (uniform_step b n) (d, g) pairs = Ok (d', g') /\
    d'.*1 = d.*1 ++ pairs /\ dict_inv (num_arms b) d' /\
    Forall (fun kv : arm_pair * batch => length kv.2 = Z.to_nat n) d'.
Proof.
  induction pairs as [|[i j] pairs IH]; intros d g Hok Hn Hpairs Hnd Hd Hrows.
  - exists d, g. by rewrite app_nil_r.
  - apply Forall_cons in Hpairs as [Hp Hpairs]. simpl in Hp.
    cbn [foldlM uniform_step].
    destruct (sample_arms_ok b [i; j] n g Hok Hn) as (xs & g' & -> & Hlen & Hcols).
    { repeat constructor; lia. }
    rewrite !bind_Ok. cbv beta iota.
    assert (dict_get d (i, j) = None) as Hget.
    { apply dict_get_None. apply NoDup_app in Hnd as (_ & Hdisj & _).
      intros Hin. apply (Hdisj _ Hin). left. }
    rewrite dict_set_new by done.
    destruct (IH (d ++ [((i, j), xs)]) g') as (d' & g'' & Hfold & Hkeys & Hd' & Hrows');
      try done.
    + by rewrite fmap_app, <- app_assoc.
    + destruct Hd as [Hnd' Hall]. split.
      * rewrite fmap_app. apply NoDup_app in Hnd as (? & Hdisj & ?).
        apply NoDup_app. split; [done|]. split; [|apply NoDup_singleton].
        intros q Hq Hq'. apply list_elem_of_singleton in Hq' as ->.
        apply (Hdisj _ Hq). left.
      * apply Forall_app. split; [done|]. constructor; [|constructor].
        simpl. split; [lia|]. unfold valid_item. simpl.
        repeat split; try lia; [|done]. intros ->. simpl in Hlen. lia.
    + apply Forall_app. split; [done|]. by repeat constructor.
    + exists d', g''. split; [done|]. split; [|done].
      by rewrite Hkeys, fmap_app, <- app_assoc.
Qed.

(** A per-pair count of zero (or less) stops the allocator at its first
    sampling call. *)
Lemma uniform_sampling_nonpos {G} (b : bandit G) (budget : Z) (g : G) :
  (2 <= num_arms b)%nat ->
  2 * budget < Z.of_nat (num_arms b) * (Z.of_nat (num_arms b) - 1) ->
  uniform_sampling b budget g
  = Raise (raised_by_draw b
             ((2 * budget) `div` (Z.of_nat (num_arms b) * (Z.of_nat (num_arms b) - 1)))
             g).
Proof.
  intros HK Hb. unfold uniform_sampling. cbv zeta.
  set (d := Z.of_nat (num_arms b) * (Z.of_nat (num_arms b) - 1)) in *.
  assert (0 < d) as Hd by (subst d; nia).
  rewrite decide_False by lia.
  assert ((2 * budget) `div` d <= 0) as Hn.
  { assert ((2 * budget) `div` d < 1); [|lia].
    apply Z.div_lt_upper_bound; lia. }
  destruct (all_pairs_head (num_arms b) HK) as [rest ->].
  cbn [foldlM uniform_step]. by rewrite sample_arms_raises by done.
Qed.


(** C9, as the code has it: with [K >= 2] arms and a budget below
    [K(K-1)/2] (zero included) the uniform allocator never returns: its
    first sampling call, for zero draws, raises the exception of the
    sampler or else NumPy's [ValueError]; no budget check names the
    cause. *)
Theorem uniform_sampling_small_budget {G} (b : bandit G) (budget : Z) (g : G) :
  (2 <= num_arms b)%nat ->
  2 * budget < Z.of_nat (num_arms b) * (Z.of_nat (num_arms b) - 1) ->
  let n := (2 * budget) `div` (Z.of_nat (num_arms b) * (Z.of_nat (num_arms b) - 1)) in
  n <= 0 /\
  uniform_sampling b budget g = Raise (raised_by_draw b n g) /\
  (forall data g', sample_distr b n g = Ok (data, g') ->
     uniform_sampling b budget g = Raise ValueError).
Proof.
  intros HK Hb n.
  assert (n <= 0) as Hn.
  { assert (n < 1); [|lia]. apply Z.div_lt_upper_bound; nia. }
  split; [done|]. split; [by apply uniform_sampling_nonpos|].
  intros data g' Hdraw. rewrite uniform_sampling_nonpos by done.
  unfold raised_by_draw. fold n. by rewrite Hdraw.
Qed.

(** ** What a phase keeps *)

Section EliminationFacts.
Context `{PySet} {G : Type}.
Implicit Types (b : bandit G) (st : sr_state) (g : G).

Lemma sr_phase_inv b (t : Z) st g st' g' :
  sr_phase b t st g = Ok (st', g') ->
  exists d mse_vals,
    sample_pairs b t (set_iter (st_A st)) (st_arms_dict st) g = Ok (d, g') /\
    mse d (num_arms b) = Ok mse_vals /\
    sr_eliminate st d mse_vals = Ok st'.
Proof.
  unfold sr_phase. intros Hphase.
  destruct (sample_pairs _ _ _ _ _) as [[d g1]|e] eqn:Hdraw; [|done].
  rewrite bind_Ok in Hphase. cbv beta iota in Hphase.
  destruct (mse d (num_arms b)) as [mse_vals|e] eqn:Hmse; [|done].
  rewrite bind_Ok in Hphase.
  destruct (sr_eliminate st d mse_vals) as [st1|e] eqn:Hel; [|done].
  rewrite bind_Ok in Hphase. simplify_eq. by exists d, mse_vals.
Qed.

Lemma sr_phase_frame b (t : Z) st g st' g' :
  sr_phase b t st g = Ok (st', g') ->
  st_B st' ⊆ st_B st /\
  length (st_mse_ests st') = length (st_mse_ests st) /\
  forall i, i ∉ st_B st -> st_mse_ests st' !! i = st_mse_ests st !! i.
Proof.
  intros Hphase. apply sr_phase_inv in Hphase as (d & mse_vals & _ & _ & Hel).
  apply sr_eliminate_spec in Hel as (r & v & m & _ & _ & Hr & ->). simpl.
  split; [apply subseteq_difference_l; done|]. split; [by rewrite length_insert|].
  intros i Hi. apply list_lookup_insert_ne. by intros ->.
Qed.

Lemma sr_loop_frame b (ts : list Z) :
  forall st g st' g',
  sr_loop b ts st g = Ok (st', g') ->
  st_B st' ⊆ st_B st /\
  length (st_mse_ests st') = length (st_mse_ests st) /\
  forall i, i ∉ st_B st -> st_mse_ests st' !! i = st_mse_ests st !! i.
Proof.
  induction ts as [|t ts IH]; intros st g st' g' Hloop.
  - simpl in Hloop. by simplify_eq.
  - cbn [sr_loop] in Hloop.
    destruct (sr_phase b t st g) as [[st1 g1]|e] eqn:Hphase; [|done].
    rewrite bind_Ok in Hloop. cbv beta iota in Hloop.
    apply sr_phase_frame in Hphase as (HB1 & Hlen1 & Hkeep1).
    apply IH in Hloop as (HB2 & Hlen2 & Hkeep2).
    split; [by etrans|]. split; [congruence|].
    intros i Hi. rewrite Hkeep2, Hkeep1; [done | done |].
    intros Hi1. by apply Hi, HB1.
Qed.

Lemma sr_phase_keeps_active b (t : Z) st g st' g' :
  sr_phase b t st g = Ok (st', g') ->
  forall i, i ∈ st_B st' -> st_mse_ests st' !! i = st_mse_ests st !! i.
Proof.
  intros Hphase. apply sr_phase_inv in Hphase as (d & mse_vals & _ & _ & Hel).
  apply sr_eliminate_spec in Hel as (r & v & m & _ & _ & Hr & ->). simpl.
  intros i Hi. apply list_lookup_insert_ne. intros ->.
  apply elem_of_difference in Hi as [_ Hi]. by apply Hi, elem_of_singleton.
Qed.

Lemma sr_loop_keeps_active b (ts : list Z) :
  forall st g st' g',
  sr_loop b ts st g = Ok (st', g') ->
  forall i, i ∈ st_B st' -> st_mse_ests st' !! i = st_mse_ests st !! i.
Proof.
  induction ts as [|t ts IH]; intros st g st' g' Hloop i Hi.
  - simpl in Hloop. by simplify_eq.
  - cbn [sr_loop] in Hloop.
    destruct (sr_phase b t st g) as [[st1 g1]|e] eqn:Hphase; [|done].
    rewrite bind_Ok in Hloop. cbv beta iota in Hloop.
    pose proof (sr_loop_frame _ _ _ _ _ _ Hloop) as (HB & _ & _).
    rewrite (IH _ _ _ _ Hloop i Hi).
    apply (sr_phase_keeps_active _ _ _ _ _ _ Hphase). by apply HB.
Qed.

Lemma sr_finish_inv st (arm : nat) (ests : vec) :
  sr_finish st = Ok (arm, ests) ->
  exists m, arm ∈ st_B st /\ st_min_mse st = Some m /\
            ests = <[arm := m]> (st_mse_ests st).
Proof.
  unfold sr_finish. intros Hfin.
  destruct (set_pop (st_B st)) as [a|] eqn:Hpop; [|done]. rewrite bind_Ok in Hfin.
  destruct (st_min_mse st) as [m|] eqn:Hmin; [|done]. rewrite bind_Ok in Hfin.
  simplify_eq. exists m. split; [by apply set_pop_elem | done].
Qed.

Lemma successive_rejects_inv b (budget : Z) g (arm : nat) (ests : vec) g' :
  successive_rejects b budget g = Ok ((arm, ests), g') ->
  exists st, sr_loop b (sr_ts budget (Z.of_nat (num_arms b))) (sr_init (num_arms b)) g
             = Ok (st, g') /\
             sr_finish st = Ok (arm, ests).
Proof.
  unfold successive_rejects. cbv zeta. intros Hrun.
  destruct (sr_loop _ _ _ _) as [[st g1]|e] eqn:Hloop; [|done].
  rewrite bind_Ok in Hrun. cbv beta iota in Hrun.
  destruct (sr_finish st) as [[a e]|e] eqn:Hfin; [|done].
  rewrite bind_Ok in Hrun. simplify_eq. by exists st.
Qed.

(** ** The output vector *)


(** C7: the entry of the output vector for an arm [r] still holds its
    initial [0] when the phase that eliminates [r] begins; that phase
    writes into it the estimate [v] that [r] has at that moment; [r] is in
    no later active set, so that no later phase writes its entry again:
    every later state, and the vector the run returns, hold [v] for [r]. *)
Theorem rejected_estimate_is_frozen b (budget : Z) g
    (ts1 ts2 : list Z) (t : Z) st1 g1 st2 g2 (r : nat) :
  sr_ts budget (Z.of_nat (num_arms b)) = ts1 ++ t :: ts2 ->
  sr_loop b ts1 (sr_init (num_arms b)) g = Ok (st1, g1) ->
  sr_phase b t st1 g1 = Ok (st2, g2) ->
  r ∈ st_B st1 -> (r ∉ st_B st2) ->
  exists d mse_vals v,
    sample_pairs b t (set_iter (st_A st1)) (st_arms_dict st1) g1 = Ok (d, g2) /\
    mse d (num_arms b) = Ok mse_vals /\
    mse_vals !! r = Some v /\
    st_mse_ests st1 !! r = Some 0%R /\
    st_mse_ests st2 !! r = Some v /\
    (forall ts3 ts4 st3 g3,
       ts2 = ts3 ++ ts4 -> sr_loop b ts3 st2 g2 = Ok (st3, g3) ->
       (r ∉ st_B st3) /\ st_mse_ests st3 !! r = Some v) /\
    (forall arm ests g',
       successive_rejects b budget g = Ok ((arm, ests), g') ->
       arm ≠ r /\ ests !! r = Some v).
Proof.
  intros Hts Hpre Hphase Hr1 Hr2.
  pose proof (sr_loop_frame _ _ _ _ _ _ Hpre) as (HB1 & Hlen1 & _).
  destruct (sr_phase_inv _ _ _ _ _ _ Hphase) as (d & mse_vals & Hdraw & Hmse & Hel).
  destruct (sr_eliminate_spec _ _ _ _ Hel) as (r' & v & m & Hmax & _ & Hr' & Hst).
  assert (r' = r) as ->.
  { destruct (decide (r' = r)) as [|Hne]; [done|]. exfalso. apply Hr2.
    subst st2. simpl. apply elem_of_difference. split; [done|].
    by intros ->%elem_of_singleton. }
  apply py_max_active_spec in Hmax as (Hv & _ & _).
  assert (st_mse_ests st2 !! r = Some v) as Hfrozen.
  { subst st2. simpl. apply list_lookup_insert_eq. rewrite Hlen1. simpl.
    unfold np_zeros. rewrite repeat_length. apply HB1 in Hr1. simpl in Hr1.
    apply elem_of_list_to_set, elem_of_seq in Hr1. lia. }
  assert (r < num_arms b)%nat as HrK.
  { apply HB1 in Hr1. simpl in Hr1.
    apply elem_of_list_to_set, elem_of_seq in Hr1. lia. }
  assert (st_mse_ests st1 !! r = Some 0%R) as Hinit.
  { rewrite (sr_loop_keeps_active _ _ _ _ _ _ Hpre r Hr1). simpl.
    by apply lookup_np_zeros_lt. }
  exists d, mse_vals, v. do 5 (split; [done|]). split.
  - intros ts3 ts4 st3 g3 _ Hlater.
    apply sr_loop_frame in Hlater as (HB3 & _ & Hkeep).
    split; [by intros ?%HB3 | by rewrite Hkeep].
  - intros arm ests g' Hrun.
    apply successive_rejects_inv in Hrun as (st & Hloop & Hfin).
    rewrite Hts, sr_loop_app, Hpre, bind_Ok in Hloop. cbv beta iota in Hloop.
    cbn [sr_loop] in Hloop. rewrite Hphase, bind_Ok in Hloop.
    cbv beta iota in Hloop.
    apply sr_loop_frame in Hloop as (HB & _ & Hkeep).
    apply sr_finish_inv in Hfin as (m' & Harm & _ & ->).
    assert (arm ≠ r) as Hne by (intros ->; by apply Hr2, HB).
    split; [done|]. rewrite list_lookup_insert_ne by done. by rewrite Hkeep.
Qed.


(** C8, as the code has it: with [K >= 2] arms and a budget below
    [K(K-1)/2], no phase of Successive Rejects draws a sample, and no
    budget check ends the run.  When every increment of the schedule is
    zero the run proceeds and returns arm [K-1] with an all-zero vector;
    otherwise it stops with the exception of its first sampling call, made
    for a negative number of draws. *)
Theorem successive_rejects_small_budget b (budget : Z) g :
  (2 <= num_arms b)%nat ->
  2 * budget < Z.of_nat (num_arms b) * (Z.of_nat (num_arms b) - 1) ->
  let K := num_arms b in
  let ts := sr_ts budget (Z.of_nat K) in
  Forall (fun t => t <= 0) ts /\
  ((Forall (fun t => t = 0) ts /\
    successive_rejects b budget g = Ok (((K - 1)%nat, np_zeros K), g)) \/
   (exists t, t ∈ ts /\ t < 0 /\
              successive_rejects b budget g = Raise (raised_by_draw b t g))).
Proof.
  intros HK Hb K ts.
  assert (Forall (fun t => t <= 0) ts) as Hts by (by apply sr_ts_nonpos).
  split; [done|].
  destruct (nonpos_split ts Hts) as [Hzero|(n & t & rest & Hsplit & Ht)].
  - left. split; [done|]. by apply successive_rejects_zero.
  - right. exists t. split; [|split; [done|]].
    + rewrite Hsplit. apply elem_of_app. right. left.
    + by apply (successive_rejects_negative b budget g n t rest).
Qed.

End EliminationFacts.

(** ** A run on four fixed draws *)

Lemma replay_dict_valid : valid_pair_samples 2 replay_dict.
Proof.
  split.
  - constructor; [|constructor]. unfold valid_item. simpl.
    repeat split; try lia; try done. repeat constructor.
  - simpl. apply NoDup_singleton.
Qed.

Lemma replay_pearson :
  pearson (column 0 replay_draws) (column 1 replay_draws) = 0%R.
Proof.
  unfold pearson, arithmetic_mean, Rdiv. simpl. unfold id.
  match goal with |- (?n * _)%R = _ => replace n with 0%R by field end.
  ring.
Qed.

Lemma replay_variance_0 : population_variance (column 0 replay_draws) = 1%R.
Proof. unfold population_variance, arithmetic_mean. simpl. unfold id. field. Qed.

Lemma replay_variance_1 : population_variance (column 1 replay_draws) = 4%R.
Proof. unfold population_variance, arithmetic_mean. simpl. unfold id. field. Qed.

Lemma replay_mse : mse replay_dict 2 = Ok [4; 1]%R.
Proof.
  rewrite (mse_np_estimate 2 replay_dict replay_dict_valid). f_equal.
  unfold tabulate, np_estimate, replay_dict, sum_over, np_pair_term.
  cbn -[np_corrcoef01 np_var column replay_draws].
  rewrite np_corrcoef01_pearson by done. rewrite !np_var_population.
  rewrite replay_pearson, replay_variance_0, replay_variance_1.
  repeat (case_decide; try done). f_equal; [ring | f_equal; ring].
Qed.

Lemma replay_sample_pairs :
  @sample_pairs unit replay_bandit 4
    (@set_iter elements_order (st_A (sr_init 2))) (st_arms_dict (sr_init 2)) tt
  = Ok (replay_dict, tt).
Proof. by vm_compute. Qed.

Lemma replay_active_values :
  active_values [4; 1]%R (st_B (sr_init 2)) = [(0%nat, 4%R); (1%nat, 1%R)].
Proof. by vm_compute. Qed.

Lemma replay_eliminate :
  sr_eliminate (sr_init 2) replay_dict [4; 1]%R = Ok replay_after.
Proof.
  unfold sr_eliminate. rewrite replay_active_values.
  assert (py_max_by_value [(0%nat, 4%R); (1%nat, 1%R)] = Ok (0%nat, 4%R)) as ->.
  { simpl. by assert (Rgtb 1 4 = false) as -> by (apply Rgtb_false; lra). }
  assert (py_min [(0%nat, 4%R); (1%nat, 1%R)].*2 = Ok 1%R) as ->.
  { simpl. by assert (Rltb 1 4 = true) as -> by (apply Rltb_true; lra). }
  rewrite !bind_Ok. cbv beta iota zeta.
  rewrite decide_True; [done|].
  apply elem_of_list_to_set, elem_of_seq. lia.
Qed.

Lemma replay_phase :
  @sr_phase elements_order unit replay_bandit 4 (sr_init 2) tt
  = Ok (replay_after, tt).
Proof.
  unfold sr_phase. rewrite replay_sample_pairs, bind_Ok. cbv beta iota.
  change (num_arms replay_bandit) with 2%nat.
  by rewrite replay_mse, bind_Ok, replay_eliminate.
Qed.

Lemma replay_ts : sr_ts 5 (Z.of_nat 2) = [4].
Proof. by vm_compute. Qed.

(** With a budget of 5 the two-armed run draws four samples of the pair,
    estimates [4] for arm 0 and [1] for arm 1, rejects arm 0 and returns
    arm 1 with the smaller estimate. *)
Lemma replay_run :
  @successive_rejects elements_order unit replay_bandit 5 tt
  = Ok ((1%nat, [4; 1]%R), tt).
Proof.
  unfold successive_rejects. cbv zeta. change (num_arms replay_bandit) with 2%nat.
  rewrite replay_ts. cbn [sr_loop]. rewrite replay_phase, !bind_Ok.
  cbv beta iota.
  rewrite (sr_finish_singleton replay_after 1 1%R); [done | | done].
  change (st_B replay_after) with (list_to_set (seq 0 2) ∖ {[0%nat]} : gset nat).
  apply set_eq. intros i.
  rewrite elem_of_difference, elem_of_list_to_set, elem_of_seq, !elem_of_singleton.
  lia.
Qed.

(** ** Instances *)

Lemma sampler_ok_zero_bandit (K : nat) : sampler_ok (zero_bandit K).
Proof.
  intros size g Hsize. exists (repeat 0%R (Z.to_nat size * K)), g. simpl.
  rewrite decide_False by lia. split; [done | apply repeat_length].
Qed.

Lemma S0_valid : valid_cov 4 S0.
Proof.
  split.
  - done.
  - repeat constructor.
  - intros i j Hi Hj.
    do 4 (destruct i as [|i];
          [do 4 (destruct j as [|j]; [unfold mat_get; simpl; lra|]); lia|]).
    lia.
  - intros i Hi.
    do 4 (destruct i as [|i]; [unfold mat_get; simpl; lra|]). lia.
Qed.

Lemma two_draws_valid : valid_pair_samples 2 two_draws.
Proof.
  split.
  - constructor; [|constructor]. unfold valid_item. simpl.
    repeat split; try lia; try done. repeat constructor.
  - simpl. apply NoDup_singleton.
Qed.

Lemma sr_ts_3_3 : sr_ts 3 (Z.of_nat 3) = [0; 0].
Proof. by vm_compute. Qed.

Lemma sr_ts_2_3 : sr_ts 2 (Z.of_nat 3) = [0; 0].
Proof. by vm_compute. Qed.

Lemma zero_run_3 (budget : Z) :
  sr_ts budget (Z.of_nat 3) = [0; 0] ->
  @successive_rejects elements_order unit (zero_bandit 3) budget tt
  = Ok ((2%nat, [0; 0; 0]%R), tt).
Proof.
  intros Hts.
  rewrite (successive_rejects_zero (zero_bandit 3) budget tt); [done | simpl; lia |].
  simpl num_arms. rewrite Hts. by repeat constructor.
Qed.

(** *** C2 *)

Lemma gaussian_mse_formula_witness :
  valid_cov 4 S0 /\ GaussianBandit.mse S0 = tabulate 4 (doc_true_mse 4 S0).
Proof.
  split; [exact S0_valid | apply (gaussian_mse_formula 4 S0); exact S0_valid].
Defined.

(** *** C3 *)


(** *** C4 *)

Lemma successive_rejects_phases_witness :
  (2 <= 3)%nat /\ 3 * (3 - 1) <= 2 * 30 /\ sampler_ok (zero_bandit 3) /\
  exists st g' arm ests,
    @sr_loop elements_order unit (zero_bandit 3) (sr_ts 30 3) (sr_init 3) tt
    = Ok (st, g') /\
    st_B st = {[arm]} /\
    @successive_rejects elements_order unit (zero_bandit 3) 30 tt
    = Ok ((arm, ests), g').
Proof.
  split; [lia|]. split; [lia|]. split; [apply sampler_ok_zero_bandit|].
  destruct (@successive_rejects_phases elements_order unit (zero_bandit 3) 30 tt)
    as (_ & _ & Hrun);
    [simpl; lia | simpl; lia | apply sampler_ok_zero_bandit | exact Hrun].
Defined.

(** *** C5 *)



(** *** C6 *)


(** *** C7 *)

Lemma replay_rejected : 0%nat ∈ st_B (sr_init 2) /\ (0%nat ∉ st_B replay_after).
Proof.
  change (st_B replay_after) with (list_to_set (seq 0 2) ∖ {[0%nat]} : gset nat).
  split; [apply elem_of_list_to_set, elem_of_seq; lia|].
  rewrite elem_of_difference, elem_of_singleton. by intros [_ ?].
Qed.

Lemma rejected_estimate_is_frozen_witness :
  sr_ts 5 (Z.of_nat 2) = [] ++ 4 :: [] /\
  @sr_phase elements_order unit replay_bandit 4 (sr_init 2) tt
  = Ok (replay_after, tt) /\
  0%nat ∈ st_B (sr_init 2) /\ (0%nat ∉ st_B replay_after) /\
  exists v,
    st_mse_ests (sr_init 2) !! 0%nat = Some 0%R /\
    st_mse_ests replay_after !! 0%nat = Some v /\
    forall arm ests g',
      @successive_rejects elements_order unit replay_bandit 5 tt
      = Ok ((arm, ests), g') ->
      arm ≠ 0%nat /\ ests !! 0%nat = Some v.
Proof.
  destruct replay_rejected as [Hin Hout].
  split; [exact replay_ts|]. split; [exact replay_phase|]. split; [exact Hin|].
  split; [exact Hout|].
  destruct (@rejected_estimate_is_frozen elements_order unit replay_bandit 5 tt
              [] [] 4 (sr_init 2) tt replay_after tt 0%nat
              replay_ts eq_refl replay_phase Hin Hout)
    as (d & vals & v & _ & _ & _ & Hinit & Hv & _ & Hfinal).
  by exists v.
Defined.

(** *** C8 *)

Lemma successive_rejects_small_budget_witness :
  (2 <= 3)%nat /\ 2 * 2 < 3 * (3 - 1) /\
  (Forall (fun t => t <= 0) (sr_ts 2 (Z.of_nat 3)) /\
   ((Forall (fun t => t = 0) (sr_ts 2 (Z.of_nat 3)) /\
     @successive_rejects elements_order unit (zero_bandit 3) 2 tt
     = Ok ((2%nat, np_zeros 3), tt)) \/
    (exists t, t ∈ sr_ts 2 (Z.of_nat 3) /\ t < 0 /\
       @successive_rejects elements_order unit (zero_bandit 3) 2 tt
       = Raise (raised_by_draw (zero_bandit 3) t tt)))).
Proof.
  split; [lia|]. split; [lia|].
  apply (@successive_rejects_small_budget elements_order unit (zero_bandit 3) 2 tt);
    simpl; lia.
Defined.

(** C8, as stated, fails: with three arms and a budget of 2, below
    [K(K-1)/2 = 3], the run does not fail; it proceeds without any sample
    and returns arm 2 with an all-zero vector. *)
Lemma successive_rejects_proceeds_below_budget :
  2 * 2 < 3 * (3 - 1) /\
  @successive_rejects elements_order unit (zero_bandit 3) 2 tt
  = Ok ((2%nat, [0; 0; 0]%R), tt) /\
  @successive_rejects elements_order unit (zero_bandit 3) 2 tt
  ≠ Raise InvalidBudget.
Proof.
  pose proof (zero_run_3 2 sr_ts_2_3) as Hrun.
  split; [lia|]. split; [done|]. by rewrite Hrun.
Qed.

(** *** C9 *)

Lemma uniform_sampling_small_budget_witness :
  (2 <= 3)%nat /\ 2 * 0 < 3 * (3 - 1) /\
  (2 * 0) `div` (3 * (3 - 1)) <= 0 /\
  uniform_sampling (zero_bandit 3) 0 tt
  = Raise (raised_by_draw (zero_bandit 3) ((2 * 0) `div` (3 * (3 - 1))) tt).
Proof.
  split; [lia|]. split; [lia|].
  destruct (uniform_sampling_small_budget (zero_bandit 3) 0 tt) as (Hn & Hrun & _);
    [simpl; lia | simpl; lia |].
  split; [exact Hn | exact Hrun].
Defined.

(** C9, as stated, fails: with three arms and a budget of 0 the allocator
    does raise, but what it raises is the [ValueError] of reshaping an
    empty draw, not [InvalidBudget]. *)
Lemma uniform_sampling_raises_value_error :
  uniform_sampling (zero_bandit 3) 0 tt = Raise ValueError /\
  uniform_sampling (zero_bandit 3) 0 tt ≠ Raise InvalidBudget.
Proof.
  assert (uniform_sampling (zero_bandit 3) 0 tt = Raise ValueError) as Hrun
    by (by vm_compute).
  split; [done|]. by rewrite Hrun.
Qed.

(** *** C10 *)


(** ** The metered bandit *)

Lemma sample_arms_metered {G} (b : bandit G) (arms : list nat) (size : Z) (g : G)
    (c : Z) :
  sample_arms (metered b) arms size (g, c)
  = '(xs, g') ← sample_arms b arms size g; Ok (xs, (g', c + size)).
Proof.
  unfold sample_arms, metered; simpl.
  destruct (sample_distr b size g) as [[data g']|e]; simpl; [|done].
  destruct (np_reshape_rows size data) as [samples|e]; simpl; [|done].
  by destruct (select_columns arms samples).
Qed.

Lemma sampler_ok_metered {G} (b : bandit G) : sampler_ok b -> sampler_ok (metered b).
Proof.
  intros Hb size [g c] Hsize.
  destruct (Hb size g Hsize) as (data & g' & Hd & Hlen).
  exists data, (g', c + size). simpl. by rewrite Hd.
Qed.

Section MeteredRuns.
Context `{PySet} {G : Type}.

Lemma sample_pairs_metered (b : bandit G) (t : Z) (pairs : list arm_pair) :
  forall (d : dict) (g : G) (c : Z),
  sample_pairs (metered b) t pairs d (g, c)
  = '(d', g') ← sample_pairs b t pairs d g;
    Ok (d', (g', c + t * Z.of_nat (length pairs))).
Proof.
  induction pairs as [|p rest IH]; intros d g c; simpl.
  - do 3 f_equal. lia.
  - case_decide as Ht.
    + subst t. simpl. do 3 f_equal. lia.
    + rewrite sample_arms_metered.
      destruct (sample_arms b [p.1; p.2] t g) as [[xs g1]|e]; simpl; [|done].
      rewrite IH.
      destruct (sample_pairs b t rest _ g1) as [[d' g']|e]; simpl; [|done].
      do 3 f_equal. lia.
Qed.

Lemma length_set_iter (X : gset arm_pair) : length (set_iter X) = size X.
Proof. by rewrite (Permutation_length (set_iter_perm X)). Qed.

Lemma sr_phase_metered (b : bandit G) (t : Z) (st : sr_state) (g : G) (c : Z) :
  sr_phase (metered b) t st (g, c)
  = '(st', g') ← sr_phase b t st g;
    Ok (st', (g', c + t * Z.of_nat (size (st_A st)))).
Proof.
  unfold sr_phase. rewrite sample_pairs_metered, length_set_iter.
  destruct (sample_pairs b t _ _ g) as [[d g1]|e]; simpl; [|done].
  destruct (mse d (num_arms b)) as [vals|e]; simpl; [|done].
  by destruct (sr_eliminate st d vals).
Qed.

End MeteredRuns.

(** ** The pairs that stay active *)

Lemma size_complement (K : nat) (B : gset nat) :
  (forall i, i ∈ B -> (i < K)%nat) ->
  size (list_to_set (seq 0 K) ∖ B : gset nat) = (K - size B)%nat.
Proof.
  intros HB. rewrite size_difference.
  - rewrite size_list_to_set by apply NoDup_seq. by rewrite length_seq.
  - intros i Hi. apply elem_of_list_to_set, elem_of_seq. specialize (HB i Hi). lia.
Qed.

Lemma lost_pairs_size (K : nat) (B : gset nat) (r : nat) :
  (forall i, i ∈ B -> (i < K)%nat) -> r ∈ B ->
  size (filter (fun p => ¬ touches (B ∖ {[r]}) p)
               (filter (touches B) (list_to_set (all_pairs K) : gset arm_pair)))
  = (K - size B)%nat.
Proof.
  intros HB Hr.
  set (R := list_to_set (seq 0 K) ∖ B : gset nat).
  assert (HR : forall x, x ∈ R <-> (x < K)%nat /\ x ∉ B).
  { intros x. unfold R. rewrite elem_of_difference, elem_of_list_to_set, elem_of_seq.
    split; intros [? ?]; split; (lia || done). }
  assert (Heq : filter (fun p => ¬ touches (B ∖ {[r]}) p)
                  (filter (touches B) (list_to_set (all_pairs K) : gset arm_pair))
                = list_to_set ((fun x => unordered (x, r)) <$> elements R)).
  { apply set_eq. intros [p q].
    rewrite !elem_of_filter, !elem_of_list_to_set, elem_of_all_pairs, list_elem_of_fmap.
    unfold touches, unordered; simpl.
    rewrite !elem_of_difference, !elem_of_singleton. split.
    - intros (Hnot & Hin & Hlt).
      destruct (decide (p ∈ B)) as [Hp|Hp].
      + assert (p = r) by (destruct (decide (p = r)); [done|]; exfalso; apply Hnot; by left).
        subst p. exists q. split.
        * f_equal; lia.
        * apply elem_of_elements, HR. split; [lia|].
          intros Hq. apply Hnot. right. split; [done|lia].
      + destruct Hin as [Hin|Hin]; [done|].
        assert (q = r) by (destruct (decide (q = r)); [done|]; exfalso; apply Hnot; by right).
        subst q. exists p. split.
        * f_equal; lia.
        * apply elem_of_elements, HR. split; [lia|done].
    - intros (x & Hpq & Hx). apply elem_of_elements, HR in Hx as [HxK HxB].
      assert (x ≠ r) by (intros ->; done).
      pose proof (HB r Hr) as HrK.
      injection Hpq as -> ->.
      destruct (Nat.min_spec x r) as [[? ->]|[? ->]];
        destruct (Nat.max_spec x r) as [[? ->]|[? ->]]; try lia.
      + split; [|split; [by right|lia]]. intros [[? ?]|[? ?]]; done.
      + split; [|split; [by left|lia]]. intros [[? ?]|[? ?]]; done. }
  rewrite Heq, size_list_to_set.
  - rewrite length_fmap. change (length (elements R)) with (size R).
    unfold R. by apply size_complement.
  - apply NoDup_fmap_2_strong; [|apply NoDup_elements].
    intros x y Hx Hy Hxy. apply elem_of_elements, HR in Hx as [_ Hx].
    apply elem_of_elements, HR in Hy as [_ Hy].
    assert (x ≠ r) by (intros ->; done). assert (y ≠ r) by (intros ->; done).
    unfold unordered in Hxy; simpl in Hxy. injection Hxy as H1 H2. lia.
Qed.

Lemma twice_active_pairs_S (K k : nat) :
  twice_active_pairs K (S k) = twice_active_pairs K k - 2 * Z.of_nat k.
Proof. unfold twice_active_pairs. lia. Qed.

Lemma pairs_inv_init (K : nat) : pairs_inv K 0 (sr_init K).
Proof.
  split; simpl.
  - intros i Hi. apply elem_of_list_to_set, elem_of_seq in Hi. lia.
  - rewrite size_list_to_set by apply NoDup_seq. rewrite length_seq. lia.
  - apply set_eq. intros p. rewrite elem_of_filter, elem_of_list_to_set.
    split; [|by intros [_ ?]]. intros Hp. split; [|done].
    left. apply elem_of_list_to_set, elem_of_seq.
    apply elem_of_all_pairs in Hp. lia.
  - rewrite size_list_to_set by apply NoDup_all_pairs.
    pose proof (length_all_pairs K) as Hlen. unfold twice_active_pairs.
    destruct K as [|K]; [simpl in *; lia|].
    replace (S K - 1)%nat with K in Hlen by lia. nia.
Qed.

Lemma pairs_inv_step (K k : nat) (st st' : sr_state) (d : dict) (vals : vec) :
  pairs_inv K k st -> sr_eliminate st d vals = Ok st' -> pairs_inv K (S k) st'.
Proof.
  intros [HB Hsize HA Hcount] Hel.
  apply sr_eliminate_spec in Hel as (r & v & m & _ & _ & Hr & ->).
  assert (Hsz : (size (st_B st ∖ {[r]}) = size (st_B st) - 1)%nat).
  { rewrite size_difference by (by apply singleton_subseteq_l).
    by rewrite size_singleton. }
  assert (Hpos : (0 < size (st_B st))%nat).
  { destruct (size (st_B st)) eqn:E; [|lia].
    apply size_empty_inv, leibniz_equiv in E. rewrite E in Hr.
    by apply not_elem_of_empty in Hr. }
  split; simpl.
  - intros i Hi. apply HB. by apply elem_of_difference in Hi as [? _].
  - lia.
  - rewrite HA. apply set_eq. intros p. rewrite !elem_of_filter.
    split; [by intros (? & _ & ?)|]. intros [Ht Hp]. split; [done|].
    split; [|done]. unfold touches in *.
    destruct Ht as [Ht|Ht]; apply elem_of_difference in Ht as [? _]; auto.
  - pose proof (lost_pairs_size K (st_B st) r HB Hr) as Hlost.
    rewrite <- HA in Hlost.
    pose proof (size_union _ _
      (disjoint_filter_complement (touches (st_B st ∖ {[r]})) (st_A st))) as Hun.
    rewrite (leibniz_equiv _ _
      (filter_union_complement (touches (st_B st ∖ {[r]})) (st_A st))) in Hun.
    rewrite twice_active_pairs_S. lia.
Qed.

(** ** The draws of the whole schedule *)

Lemma last_cons_default {A} (l : list A) (a b : A) :
  List.last (b :: l) a = List.last l b.
Proof.
  revert a b. induction l as [|c l IH]; intros a b; [done|].
  change (List.last (b :: c :: l) a) with (List.last (c :: l) a).
  by rewrite !IH.
Qed.

(** Summation by parts: the draws of the phases in terms of the
    cumulative counts. *)
Lemma twice_draws_diffs (K : nat) (l : list Z) :
  forall (k : nat) (a : Z),
  twice_draws K k (diffs a l)
  = weighted_sum k l + List.last l a * twice_active_pairs K (k + length l)
    - a * twice_active_pairs K k.
Proof.
  induction l as [|b l IH]; intros k a.
  - simpl. rewrite Nat.add_0_r. lia.
  - change (diffs a (b :: l)) with ((b - a) :: diffs b l).
    change (twice_draws K k ((b - a) :: diffs b l))
      with ((b - a) * twice_active_pairs K k + twice_draws K (S k) (diffs b l)).
    rewrite IH, last_cons_default.
    change (weighted_sum k (b :: l)) with (2 * Z.of_nat k * b + weighted_sum (S k) l).
    replace (k + length (b :: l))%nat with (S k + length l)%nat by (simpl; lia).
    rewrite (twice_active_pairs_S K k). lia.
Qed.

Lemma big_sum_inject_Z (n : nat) :
  forall lo : Z,
  (big_sum inject_Z lo n
   == inject_Z (Z.of_nat n) * inject_Z lo
      + inject_Z (Z.of_nat n) * (inject_Z (Z.of_nat n) - 1) / 2)%Q.
Proof.
  induction n as [|n IH]; intros lo.
  - simpl. unfold Qdiv. change (inject_Z 0) with 0%Q. ring.
  - change (big_sum inject_Z lo (S n))
      with (inject_Z lo + big_sum inject_Z (lo + 1) n)%Q.
    rewrite IH, Nat2Z.inj_succ. unfold Z.succ. rewrite !inject_Z_plus.
    change (inject_Z 1) with 1%Q. field.
Qed.

Section Budget.
Variables (budget K : Z).
Hypothesis HK : 2 <= K.

Let c : Q := weighted_logbar K.
Let X : Q := ((inject_Z budget - inject_Z (K * (K - 1)) / 2) / c)%Q.
Let g (j : Z) : Q := (inject_Z j / inject_Z (K - j))%Q.
Let N (k : Z) : Z := closed_form_n (weighted_logbar K) budget K k.

Lemma c_pos : (0 < c)%Q.
Proof. by apply weighted_logbar_pos. Qed.

(** A ceiling exceeds its argument by less than one. *)
Lemma closed_form_n_upper (k : Z) :
  k <= K -> (inject_Z (N k) <= X / inject_Z (K + 1 - k) + 1)%Q.
Proof.
  intros Hk. unfold N, closed_form_n. fold c.
  set (y := ((inject_Z budget - inject_Z (K * (K - 1)) / 2) /
             (c * inject_Z (K + 1 - k)))%Q).
  pose proof (Qceiling_lt y) as Hlt.
  assert (inject_Z (Qceiling y - 1) == inject_Z (Qceiling y) - 1)%Q as Hn.
  { unfold Z.sub. rewrite inject_Z_plus. reflexivity. }
  assert (0 < inject_Z (K + 1 - k))%Q as Hd by (apply inject_Z_pos; lia).
  pose proof c_pos as Hc.
  assert (y == X / inject_Z (K + 1 - k))%Q as Heq.
  { unfold y, X. field. split; Lqa.lra. }
  set (z := (X / inject_Z (K + 1 - k))%Q) in *.
  set (n := inject_Z (Qceiling y)) in *.
  set (n1 := inject_Z (Qceiling y - 1)) in *.
  Lqa.lra.
Qed.

Lemma weighted_sum_upper (n : nat) :
  forall s : nat,
  Z.of_nat s + Z.of_nat n <= K - 1 -> (0 <= X)%Q ->
  (inject_Z (weighted_sum s (map N (map (fun i => (1 + Z.of_nat i)%Z) (seq s n))))
   <= 2 * (X * big_sum g (Z.of_nat s) n + big_sum inject_Z (Z.of_nat s) n))%Q.
Proof.
  induction n as [|n IH]; intros s Hs HX.
  - simpl. change (inject_Z 0) with 0%Q. Lqa.lra.
  - change (seq s (S n)) with (s :: seq (S s) n).
    change (weighted_sum s (map N (map (fun i => 1 + Z.of_nat i) (s :: seq (S s) n))))
      with (2 * Z.of_nat s * N (1 + Z.of_nat s)
            + weighted_sum (S s) (map N (map (fun i => 1 + Z.of_nat i) (seq (S s) n)))).
    change (big_sum g (Z.of_nat s) (S n))
      with (g (Z.of_nat s) + big_sum g (Z.of_nat s + 1) n)%Q.
    change (big_sum inject_Z (Z.of_nat s) (S n))
      with (inject_Z (Z.of_nat s) + big_sum inject_Z (Z.of_nat s + 1) n)%Q.
    specialize (IH (S s)). rewrite Nat2Z.inj_succ in IH. unfold Z.succ in IH.
    assert (Z.of_nat s + 1 + Z.of_nat n <= K - 1) as Hs' by lia.
    specialize (IH Hs' HX).
    rewrite inject_Z_plus, !inject_Z_mult. change (inject_Z 2) with 2%Q.
    pose proof (closed_form_n_upper (1 + Z.of_nat s) ltac:(lia)) as Hup.
    replace (K + 1 - (1 + Z.of_nat s)) with (K - Z.of_nat s) in Hup by lia.
    assert (0 <= inject_Z (Z.of_nat s))%Q as Hs0 by (apply inject_Z_nonneg; lia).
    assert (0 < inject_Z (K - Z.of_nat s))%Q as Hd by (apply inject_Z_pos; lia).
    assert (inject_Z (Z.of_nat s) * inject_Z (N (1 + Z.of_nat s))
            <= X * g (Z.of_nat s) + inject_Z (Z.of_nat s))%Q as Hterm.
    { assert (X * g (Z.of_nat s) + inject_Z (Z.of_nat s)
              == inject_Z (Z.of_nat s) * (X / inject_Z (K - Z.of_nat s) + 1))%Q as ->.
      { unfold g. field. Lqa.lra. }
      rewrite !(Qmult_comm (inject_Z (Z.of_nat s))).
      by apply Qmult_le_compat_r. }
    Lqa.lra.
Qed.

(** The allocation never exceeds the budget: the ceilings add at most
    [K(K-1)/2] draws, which is what the schedule sets aside. *)
Lemma twice_draws_within_budget :
  K * (K - 1) <= 2 * budget ->
  twice_draws (Z.to_nat K) 0 (sr_ts budget K) <= 2 * budget.
Proof.
  intros Hb. rewrite sr_ts_diffs, twice_draws_diffs.
  change (closed_form_n (weighted_logbar K) budget K) with N.
  rewrite length_map, length_range. unfold range.
  replace (Z.to_nat (K - 1)) with (S (Z.to_nat (K - 2))) by lia.
  set (m := Z.to_nat (K - 2)).
  assert (HX : (0 <= X)%Q).
  { unfold X. apply Qle_shift_div_l; [apply c_pos|]. rewrite Qmult_0_l.
    assert (inject_Z (K * (K - 1)) <= inject_Z (2 * budget))%Q as Hle
      by (by rewrite <- Zle_Qle).
    rewrite (inject_Z_mult 2 budget) in Hle. change (inject_Z 2) with 2%Q in Hle.
    unfold Qdiv. change (/ 2)%Q with (1 # 2)%Q. Lqa.lra. }
  assert (Hlast : List.last (map N (map (fun i => 1 + Z.of_nat i) (seq 0 (S m)))) 0
                  = N (K - 1)).
  { rewrite seq_S, !map_app. simpl. rewrite last_last. f_equal. lia. }
  rewrite Hlast.
  pose proof (weighted_sum_upper (S m) 0 ltac:(lia) HX) as Hw.
  change (Z.of_nat 0) with 0 in Hw.
  change (big_sum g 0 (S m)) with (g 0 + big_sum g (0 + 1) m)%Q in Hw.
  rewrite big_sum_inject_Z in Hw.
  pose proof (closed_form_n_upper (K - 1) ltac:(lia)) as Hup.
  replace (K + 1 - (K - 1)) with 2 in Hup by lia. change (inject_Z 2) with 2%Q in Hup.
  unfold twice_active_pairs.
  replace (Z.of_nat (Z.to_nat K)) with K by lia.
  replace (Z.of_nat (0 + S m)) with (K - 1) by lia.
  change (Z.of_nat 0) with 0.
  replace (weighted_sum 0 (map N (map (fun i => 1 + Z.of_nat i) (seq 0 (S m))))
           + N (K - 1) * (K * (K - 1) - (K - 1) * (K - 1 - 1)) - 0 * (K * (K - 1) - 0 * (0 - 1)))
    with (weighted_sum 0 (map N (map (fun i => 1 + Z.of_nat i) (seq 0 (S m))))
          + 2 * (K - 1) * N (K - 1)) by lia.
  rewrite Zle_Qle.
  rewrite inject_Z_plus, !inject_Z_mult. change (inject_Z 2) with 2%Q.
  assert (0 <= inject_Z (K - 1))%Q as HK1 by (apply inject_Z_nonneg; lia).
  assert (inject_Z (K - 1) * inject_Z (N (K - 1)) <= inject_Z (K - 1) * (X / 2 + 1))%Q
    as Hlastterm.
  { rewrite !(Qmult_comm (inject_Z (K - 1))). by apply Qmult_le_compat_r. }
  assert (g 0 == 0)%Q as Hg0.
  { unfold g. change (inject_Z 0) with 0%Q. unfold Qdiv. ring. }
  assert (Hc : (c == inject_Z (K - 1) / 2 + big_sum g (0 + 1) m)%Q) by reflexivity.
  assert (HXc : (X * c == inject_Z budget - inject_Z (K * (K - 1)) / 2)%Q).
  { unfold X. field. pose proof c_pos. Lqa.lra. }
  assert (Hm : (inject_Z (Z.of_nat (S m)) == inject_Z (K - 1))%Q).
  { replace (Z.of_nat (S m)) with (K - 1) by lia. reflexivity. }
  rewrite Hm, Hg0 in Hw.
  assert (HKK : (inject_Z (K * (K - 1)) == (inject_Z (K - 1) + 1) * inject_Z (K - 1))%Q).
  { rewrite inject_Z_mult. replace K with ((K - 1) + 1) at 1 by lia.
    rewrite inject_Z_plus. reflexivity. }
  rewrite HKK in HXc. rewrite Hc in HXc.
  change (inject_Z 0) with 0%Q in Hw.
  set (W := big_sum g (0 + 1) m) in *.
  set (k1 := inject_Z (K - 1)) in *.
  set (w := inject_Z (weighted_sum 0 _)) in *.
  set (nl := inject_Z (N (K - 1))) in *.
  assert (X * (k1 / 2 + W) == X * k1 / 2 + X * W)%Q as HXc' by (field).
  rewrite HXc' in HXc.
  assert (k1 * (X / 2 + 1) == X * k1 / 2 + k1)%Q as Hl' by (field).
  rewrite Hl' in Hlastterm.
  assert (2 * (X * (0 + W) + (k1 * 0 + k1 * (k1 - 1) / 2))
          == 2 * (X * W) + k1 * k1 - k1)%Q as Hw' by (field).
  rewrite Hw' in Hw.
  assert ((k1 + 1) * k1 == k1 * k1 + k1)%Q as Hkk by ring.
  rewrite Hkk in HXc.
  unfold Qdiv in *. change (/ 2)%Q with (1 # 2)%Q in *.
  Lqa.lra.
Qed.

(** A ceiling is not below its argument. *)
Lemma closed_form_n_lower (k : Z) :
  k <= K -> (X / inject_Z (K + 1 - k) <= inject_Z (N k))%Q.
Proof.
  intros Hk. unfold N, closed_form_n. fold c.
  set (y := ((inject_Z budget - inject_Z (K * (K - 1)) / 2) /
             (c * inject_Z (K + 1 - k)))%Q).
  pose proof (Qle_ceiling y) as Hle.
  assert (0 < inject_Z (K + 1 - k))%Q as Hd by (apply inject_Z_pos; lia).
  pose proof c_pos as Hc.
  assert (y == X / inject_Z (K + 1 - k))%Q as Heq.
  { unfold y, X. field. split; Lqa.lra. }
  set (z := (X / inject_Z (K + 1 - k))%Q) in *.
  set (n := inject_Z (Qceiling y)) in *.
  Lqa.lra.
Qed.

Lemma weighted_sum_lower (n : nat) :
  forall s : nat,
  Z.of_nat s + Z.of_nat n <= K - 1 ->
  (2 * (X * big_sum g (Z.of_nat s) n)
   <= inject_Z (weighted_sum s (map N (map (fun i => (1 + Z.of_nat i)%Z) (seq s n)))))%Q.
Proof.
  induction n as [|n IH]; intros s Hs.
  - simpl. change (inject_Z 0) with 0%Q. Lqa.lra.
  - change (seq s (S n)) with (s :: seq (S s) n).
    change (weighted_sum s (map N (map (fun i => 1 + Z.of_nat i) (s :: seq (S s) n))))
      with (2 * Z.of_nat s * N (1 + Z.of_nat s)
            + weighted_sum (S s) (map N (map (fun i => 1 + Z.of_nat i) (seq (S s) n)))).
    change (big_sum g (Z.of_nat s) (S n))
      with (g (Z.of_nat s) + big_sum g (Z.of_nat s + 1) n)%Q.
    specialize (IH (S s)). rewrite Nat2Z.inj_succ in IH. unfold Z.succ in IH.
    assert (Z.of_nat s + 1 + Z.of_nat n <= K - 1) as Hs' by lia.
    specialize (IH Hs').
    rewrite inject_Z_plus, !inject_Z_mult. change (inject_Z 2) with 2%Q.
    pose proof (closed_form_n_lower (1 + Z.of_nat s) ltac:(lia)) as Hlo.
    replace (K + 1 - (1 + Z.of_nat s)) with (K - Z.of_nat s) in Hlo by lia.
    assert (0 <= inject_Z (Z.of_nat s))%Q as Hs0 by (apply inject_Z_nonneg; lia).
    assert (0 < inject_Z (K - Z.of_nat s))%Q as Hd by (apply inject_Z_pos; lia).
    assert (X * g (Z.of_nat s)
            <= inject_Z (Z.of_nat s) * inject_Z (N (1 + Z.of_nat s)))%Q as Hterm.
    { assert (X * g (Z.of_nat s)
              == inject_Z (Z.of_nat s) * (X / inject_Z (K - Z.of_nat s)))%Q as ->.
      { unfold g. field. Lqa.lra. }
      rewrite !(Qmult_comm (inject_Z (Z.of_nat s))).
      by apply Qmult_le_compat_r. }
    Lqa.lra.
Qed.

(** The allocation leaves less than [K(K-1)/2] draws of the budget
    unused. *)
Lemma twice_draws_uses_budget :
  2 * budget - K * (K - 1) <= twice_draws (Z.to_nat K) 0 (sr_ts budget K).
Proof.
  rewrite sr_ts_diffs, twice_draws_diffs.
  change (closed_form_n (weighted_logbar K) budget K) with N.
  rewrite length_map, length_range. unfold range.
  replace (Z.to_nat (K - 1)) with (S (Z.to_nat (K - 2))) by lia.
  set (m := Z.to_nat (K - 2)).
  assert (Hlast : List.last (map N (map (fun i => 1 + Z.of_nat i) (seq 0 (S m)))) 0
                  = N (K - 1)).
  { rewrite seq_S, !map_app. simpl. rewrite last_last. f_equal. lia. }
  rewrite Hlast.
  pose proof (weighted_sum_lower (S m) 0 ltac:(lia)) as Hw.
  change (Z.of_nat 0) with 0 in Hw.
  change (big_sum g 0 (S m)) with (g 0 + big_sum g (0 + 1) m)%Q in Hw.
  pose proof (closed_form_n_lower (K - 1) ltac:(lia)) as Hlo.
  replace (K + 1 - (K - 1)) with 2 in Hlo by lia. change (inject_Z 2) with 2%Q in Hlo.
  unfold twice_active_pairs.
  replace (Z.of_nat (Z.to_nat K)) with K by lia.
  replace (Z.of_nat (0 + S m)) with (K - 1) by lia.
  change (Z.of_nat 0) with 0.
  replace (weighted_sum 0 (map N (map (fun i => 1 + Z.of_nat i) (seq 0 (S m))))
           + N (K - 1) * (K * (K - 1) - (K - 1) * (K - 1 - 1)) - 0 * (K * (K - 1) - 0 * (0 - 1)))
    with (weighted_sum 0 (map N (map (fun i => 1 + Z.of_nat i) (seq 0 (S m))))
          + 2 * (K - 1) * N (K - 1)) by lia.
  rewrite Zle_Qle.
  rewrite inject_Z_plus, !inject_Z_mult. change (inject_Z 2) with 2%Q.
  unfold Z.sub at 1. rewrite inject_Z_plus, inject_Z_opp, inject_Z_mult.
  change (inject_Z 2) with 2%Q.
  assert (0 <= inject_Z (K - 1))%Q as HK1 by (apply inject_Z_nonneg; lia).
  assert (inject_Z (K - 1) * (X / 2) <= inject_Z (K - 1) * inject_Z (N (K - 1)))%Q
    as Hlastterm.
  { rewrite !(Qmult_comm (inject_Z (K - 1))). by apply Qmult_le_compat_r. }
  assert (g 0 == 0)%Q as Hg0.
  { unfold g. change (inject_Z 0) with 0%Q. unfold Qdiv. ring. }
  assert (Hc : (c == inject_Z (K - 1) / 2 + big_sum g (0 + 1) m)%Q) by reflexivity.
  assert (HXc : (X * c == inject_Z budget - inject_Z (K * (K - 1)) / 2)%Q).
  { unfold X. field. pose proof c_pos. Lqa.lra. }
  rewrite Hc in HXc.
  set (KK := inject_Z (K * (K - 1))) in *.
  set (W := big_sum g (0 + 1) m) in *.
  set (k1 := inject_Z (K - 1)) in *.
  set (w := inject_Z (weighted_sum 0 _)) in *.
  set (nl := inject_Z (N (K - 1))) in *.
  set (g0 := g 0) in *.
  assert (X * (k1 / 2 + W) == X * k1 / 2 + X * W)%Q as HXc' by (field).
  rewrite HXc' in HXc.
  assert (k1 * (X / 2) == X * k1 / 2)%Q as Hl' by (field).
  rewrite Hl' in Hlastterm.
  assert (2 * (X * (g0 + W)) == 2 * (X * g0) + 2 * (X * W))%Q as Hw' by ring.
  rewrite Hw' in Hw.
  assert (X * g0 == 0)%Q as Hxg by (rewrite Hg0; ring).
  unfold Qdiv in *. change (/ 2)%Q with (1 # 2)%Q in *.
  Lqa.lra.
Qed.

End Budget.

(** ** Runs with a meter *)

Lemma twice_active_pairs_nonneg (K k : nat) :
  (k <= K)%nat -> 0 <= twice_active_pairs K k.
Proof.
  intros Hk. unfold twice_active_pairs.
  destruct K as [|K]; [replace k with 0%nat by lia; simpl; lia|].
  assert (0 <= (Z.of_nat (S K) - Z.of_nat k) * (Z.of_nat (S K) + Z.of_nat k - 1))
    by (apply Z.mul_nonneg_nonneg; lia).
  lia.
Qed.

Lemma twice_draws_nonneg (K : nat) (ts : list Z) :
  forall k : nat,
  Forall (fun t => 0 <= t) ts -> (k + length ts <= K)%nat ->
  0 <= twice_draws K k ts.
Proof.
  induction ts as [|t ts IH]; intros k Hts Hk; simpl; [lia|].
  apply Forall_cons in Hts as [Ht Hts]. simpl in Hk.
  assert (0 <= twice_draws K (S k) ts) by (apply IH; [done|lia]).
  assert (0 <= twice_active_pairs K k) by (apply twice_active_pairs_nonneg; lia).
  nia.
Qed.

Section MeteredLoop.
Context `{PySet} {G : Type}.

Lemma sr_phase_pairs_inv (b : bandit G) (t : Z) st g st' g' (K k : nat) :
  pairs_inv K k st -> sr_phase b t st g = Ok (st', g') -> pairs_inv K (S k) st'.
Proof.
  intros Hinv Hph. apply sr_phase_inv in Hph as (d & vals & _ & _ & Hel).
  by eapply pairs_inv_step.
Qed.

Lemma sr_loop_pairs_inv (b : bandit G) (ts : list Z) (K : nat) :
  forall st g st' g' (k : nat),
  pairs_inv K k st -> sr_loop b ts st g = Ok (st', g') ->
  pairs_inv K (k + length ts) st'.
Proof.
  induction ts as [|t ts IH]; intros st g st' g' k Hinv Hloop; simpl in Hloop.
  - injection Hloop as <- <-. simpl. by rewrite Nat.add_0_r.
  - destruct (sr_phase b t st g) as [[st1 g1]|e] eqn:Hph; simpl in Hloop; [|done].
    replace (k + length (t :: ts))%nat with (S k + length ts)%nat by (simpl; lia).
    eapply IH; [|done]. by eapply sr_phase_pairs_inv.
Qed.

(** The meter after a loop that succeeds: every phase adds its increment
    once for each pair of [A]. *)
Lemma sr_loop_metered (b : bandit G) (ts : list Z) (K : nat) :
  forall st g (c : Z) (k : nat) st' g',
  pairs_inv K k st -> sr_loop b ts st g = Ok (st', g') ->
  exists c', sr_loop (metered b) ts st (g, c) = Ok (st', (g', c')) /\
             2 * c' = 2 * c + twice_draws K k ts.
Proof.
  induction ts as [|t ts IH]; intros st g c k st' g' Hinv Hloop; simpl in Hloop.
  - injection Hloop as <- <-. exists c. split; [done | simpl; lia].
  - destruct (sr_phase b t st g) as [[st1 g1]|e] eqn:Hph; simpl in Hloop; [|done].
    pose proof (sr_phase_pairs_inv b t st g st1 g1 K k Hinv Hph) as Hinv1.
    destruct (IH st1 g1 (c + t * Z.of_nat (size (st_A st))) (S k) st' g' Hinv1 Hloop)
      as (c' & Hrun & Hc).
    exists c'. split.
    + simpl. by rewrite sr_phase_metered, Hph.
    + rewrite Hc. simpl. pose proof (pi_count K k st Hinv). nia.
Qed.

(** A run with a budget of at least [K(K-1)/2] and a sampler that
    answers: the loop ends with one arm in [B] and [min_mse] bound. *)
Lemma successive_rejects_runs (b : bandit G) (budget : Z) g :
  (2 <= num_arms b)%nat ->
  Z.of_nat (num_arms b) * (Z.of_nat (num_arms b) - 1) <= 2 * budget ->
  sampler_ok b ->
  exists st g' arm m,
    sr_loop b (sr_ts budget (Z.of_nat (num_arms b))) (sr_init (num_arms b)) g
    = Ok (st, g') /\
    sr_inv (num_arms b) st /\ st_B st = {[arm]} /\ st_min_mse st = Some m /\
    successive_rejects b budget g = Ok ((arm, <[arm := m]> (st_mse_ests st)), g').
Proof.
  intros HK Hbudget Hok.
  set (K := num_arms b). set (ts := sr_ts budget (Z.of_nat K)).
  assert (length ts = (K - 1)%nat) as Hlen by apply length_sr_ts.
  assert (Forall (fun t => 0 <= t) ts) as Hts by (by apply sr_ts_nonneg).
  destruct (sr_loop_ok b ts (sr_init K) g Hok (sr_inv_init K) Hts)
    as (st & g' & Hloop & Hinv & Hsize & Hmin).
  { rewrite size_sr_init. lia. }
  rewrite size_sr_init in Hsize.
  destruct (size_1_elem_of (st_B st)) as [arm Harm]; [lia|].
  apply leibniz_equiv in Harm.
  destruct Hmin as [m Hm]; [intros Hnil; rewrite Hnil in Hlen; simpl in Hlen; lia|].
  exists st, g', arm, m. split; [done|]. split; [done|]. split; [done|].
  split; [done|].
  unfold successive_rejects. fold K. fold ts. rewrite Hloop, bind_Ok.
  cbv beta iota. by rewrite (sr_finish_singleton st arm m Harm Hm), bind_Ok.
Qed.

(** X1: a run of Successive Rejects with at least two arms, a budget of
    at least [K(K-1)/2] and a sampler that answers keeps to the budget.
    The meter of the run, which adds the [size] of every call of
    [_sample_distr], ends at [Σ_k ts[k] * |A_k|] joint draws, which is
    at most [trials] and at least [trials - K(K-1)/2]; the metered run
    returns what the plain run returns. *)
Theorem successive_rejects_within_budget (b : bandit G) (budget : Z) g :
  (2 <= num_arms b)%nat ->
  Z.of_nat (num_arms b) * (Z.of_nat (num_arms b) - 1) <= 2 * budget ->
  sampler_ok b ->
  exists r g' c,
    successive_rejects b budget g = Ok (r, g') /\
    successive_rejects (metered b) budget (g, 0) = Ok (r, (g', c)) /\
    2 * c = twice_draws (num_arms b) 0 (sr_ts budget (Z.of_nat (num_arms b))) /\
    0 <= c <= budget /\
    2 * budget - Z.of_nat (num_arms b) * (Z.of_nat (num_arms b) - 1) <= 2 * c.
Proof.
  intros HK Hbudget Hok.
  destruct (successive_rejects_runs b budget g HK Hbudget Hok)
    as (st & g' & arm & m & Hloop & _ & Harm & Hm & Hrun).
  destruct (sr_loop_metered b _ (num_arms b) _ g 0 0%nat st g'
              (pairs_inv_init (num_arms b)) Hloop) as (c & Hmet & Hc).
  exists (arm, <[arm := m]> (st_mse_ests st)), g', c.
  split; [done|]. split.
  { unfold successive_rejects. simpl num_arms. rewrite Hmet, bind_Ok.
    cbv beta iota. by rewrite (sr_finish_singleton st arm m Harm Hm), bind_Ok. }
  split; [lia|].
  pose proof (twice_draws_within_budget budget (Z.of_nat (num_arms b))
                ltac:(lia) Hbudget) as Hle.
  pose proof (twice_draws_uses_budget budget (Z.of_nat (num_arms b)) ltac:(lia))
    as Hlo.
  rewrite Nat2Z.id in Hle, Hlo.
  pose proof (twice_draws_nonneg (num_arms b)
                (sr_ts budget (Z.of_nat (num_arms b))) 0) as Hge.
  rewrite length_sr_ts in Hge.
  specialize (Hge (sr_ts_nonneg budget (num_arms b) HK Hbudget) ltac:(lia)).
  lia.
Qed.

End MeteredLoop.

Lemma successive_rejects_within_budget_witness :
  (2 <= 3)%nat /\ 3 * (3 - 1) <= 2 * 30 /\ sampler_ok (zero_bandit 3) /\
  exists r g' c,
    @successive_rejects elements_order unit (zero_bandit 3) 30 tt = Ok (r, g') /\
    @successive_rejects elements_order _ (metered (zero_bandit 3)) 30 (tt, 0)
    = Ok (r, (g', c)) /\
    0 <= c <= 30.
Proof.
  split; [lia|]. split; [lia|]. split; [apply sampler_ok_zero_bandit|].
  destruct (@successive_rejects_within_budget elements_order unit (zero_bandit 3) 30 tt)
    as (r & g' & c & Hplain & Hmet & _ & Hc & _);
    [simpl; lia | simpl; lia | apply sampler_ok_zero_bandit |].
  by exists r, g', c.
Defined.

(** ** The draws of uniform sampling *)

Lemma uniform_fold_metered {G} (b : bandit G) (n : Z) (pairs : list arm_pair) :
  forall (d : dict) (g : G) (c : Z),
  foldlM (uniform_step (metered b) n) (d, (g, c)) pairs
  = '(d', g') ← foldlM (uniform_step b n) (d, g) pairs;
    Ok (d', (g', c + n * Z.of_nat (length pairs))).
Proof.
  induction pairs as [|[i j] rest IH]; intros d g c; simpl.
  - do 3 f_equal. lia.
  - rewrite sample_arms_metered.
    destruct (sample_arms b [i; j] n g) as [[xs g1]|e]; simpl; [|done].
    rewrite IH.
    destruct (foldlM (uniform_step b n) _ rest) as [[d' g']|e]; simpl; [|done].
    do 3 f_equal. lia.
Qed.

(** The meter of a uniform-sampling run: [n] draws for each pair. *)
Lemma uniform_sampling_metered {G} (b : bandit G) (budget : Z) (g : G) (c : Z) :
  uniform_sampling (metered b) budget (g, c)
  = '(r, g') ← uniform_sampling b budget g;
    Ok (r, (g', c + (2 * budget) `div` (Z.of_nat (num_arms b) * (Z.of_nat (num_arms b) - 1))
                    * Z.of_nat (length (all_pairs (num_arms b))))).
Proof.
  unfold uniform_sampling. simpl num_arms. cbv zeta.
  case_decide; [done|].
  rewrite uniform_fold_metered.
  destruct (foldlM (uniform_step b _) _ _) as [[d g']|e]; simpl; [|done].
  destruct (mse d (num_arms b)) as [vals|e]; simpl; [|done].
  by destruct (np_argmin vals).
Qed.

Lemma uniform_sampling_runs {G} (b : bandit G) (budget : Z) (g : G) :
  (2 <= num_arms b)%nat ->
  Z.of_nat (num_arms b) * (Z.of_nat (num_arms b) - 1) <= 2 * budget ->
  sampler_ok b ->
  exists r g', uniform_sampling b budget g = Ok (r, g').
Proof.
  intros HK Hb Hok.
  set (K := num_arms b) in *.
  set (d := Z.of_nat K * (Z.of_nat K - 1)) in *.
  set (n := (2 * budget) `div` d).
  assert (0 < d) as Hd by (subst d; nia).
  assert (0 < n) as Hn.
  { assert (1 <= n); [|lia]. apply Z.div_le_lower_bound; lia. }
  destruct (uniform_fold_ok b n (all_pairs K) [] g Hok Hn)
    as (arms_dict & g' & Hfold & Hkeys & Hinv & Hrows).
  { apply Forall_forall. intros p Hp. by apply elem_of_all_pairs. }
  { apply NoDup_all_pairs. }
  { apply dict_inv_nil. }
  { constructor. }
  pose proof (mse_dict_inv K arms_dict Hinv) as Hmse.
  destruct (np_argmin_spec (tabulate K (np_estimate arms_dict)))
    as (arm & v & Harg & Hv & Hmin).
  { intros Hnil. apply (f_equal length) in Hnil.
    rewrite tabulate_length in Hnil. simpl in Hnil. lia. }
  exists (arm, tabulate K (np_estimate arms_dict)), g'.
  unfold uniform_sampling. cbv zeta. fold K. fold d. fold n.
  rewrite decide_False by lia.
  rewrite Hfold, bind_Ok. cbv beta iota. rewrite Hmse, bind_Ok, Harg. done.
Qed.

(** X2: a run of uniform sampling with at least two arms, a budget of at
    least [K(K-1)/2] and a sampler that answers requests exactly
    [n * K(K-1)/2] joint draws, [n = (2*trials) // (K*(K-1))]: at most
    the budget, and less than [K(K-1)/2] below it. *)
Theorem uniform_sampling_within_budget {G} (b : bandit G) (budget : Z) (g : G) :
  (2 <= num_arms b)%nat ->
  Z.of_nat (num_arms b) * (Z.of_nat (num_arms b) - 1) <= 2 * budget ->
  sampler_ok b ->
  let K := Z.of_nat (num_arms b) in
  exists r g' c,
    uniform_sampling b budget g = Ok (r, g') /\
    uniform_sampling (metered b) budget (g, 0) = Ok (r, (g', c)) /\
    2 * c = (2 * budget) `div` (K * (K - 1)) * (K * (K - 1)) /\
    2 * budget - K * (K - 1) < 2 * c <= 2 * budget.
Proof.
  intros HK Hb Hok K.
  destruct (uniform_sampling_runs b budget g HK Hb Hok) as (r & g' & Hrun).
  set (d := K * (K - 1)) in *.
  assert (0 < d) as Hd by (subst d K; nia).
  set (n := (2 * budget) `div` d).
  exists r, g', (n * Z.of_nat (length (all_pairs (num_arms b)))).
  split; [done|]. split.
  { rewrite uniform_sampling_metered, Hrun. simpl. fold K. fold d. fold n. done. }
  assert (2 * Z.of_nat (length (all_pairs (num_arms b))) = d) as Hlen.
  { pose proof (length_all_pairs (num_arms b)) as Hl. subst d K.
    destruct (num_arms b) as [|k]; [lia|].
    replace (S k - 1)%nat with k in Hl by lia. nia. }
  split; [nia|].
  pose proof (Z.mul_div_le (2 * budget) d Hd).
  pose proof (Z.mul_succ_div_gt (2 * budget) d Hd).
  fold n in H, H0. nia.
Qed.

Lemma uniform_sampling_within_budget_witness :
  (2 <= 3)%nat /\ 3 * (3 - 1) <= 2 * 31 /\ sampler_ok (zero_bandit 3) /\
  exists r g' c,
    uniform_sampling (zero_bandit 3) 31 tt = Ok (r, g') /\
    uniform_sampling (metered (zero_bandit 3)) 31 (tt, 0) = Ok (r, (g', c)) /\
    2 * 31 - 3 * (3 - 1) < 2 * c <= 2 * 31.
Proof.
  split; [lia|]. split; [lia|]. split; [apply sampler_ok_zero_bandit|].
  destruct (uniform_sampling_within_budget (zero_bandit 3) 31 tt)
    as (r & g' & c & Hplain & Hmet & _ & Hc);
    [simpl; lia | simpl; lia | apply sampler_ok_zero_bandit |].
  by exists r, g', c.
Defined.

(** ** What the phases keep *)

Lemma length_chunks (w rows : nat) (l : vec) : length (chunks w rows l) = rows.
Proof. revert l. induction rows as [|r IH]; intros l; simpl; [done | by rewrite IH]. Qed.

Lemma mapM_result_length {A B} (f : A -> result B) (l : list A) (ys : list B) :
  mapM f l = Ok ys -> length ys = length l.
Proof.
  revert ys. induction l as [|x l IH]; intros ys Hm; simpl in Hm.
  - by injection Hm as <-.
  - destruct (f x) as [y|e]; simpl in Hm; [|done].
    destruct (mapM f l) as [k|e]; simpl in Hm; [|done].
    injection Hm as <-. simpl. by rewrite (IH k).
Qed.

(** A sampling call that succeeds was made for a positive [size] and
    returns exactly [size] rows. *)
Lemma sample_arms_rows {G} (b : bandit G) (arms : list nat) (size : Z) (g : G)
    (xs : batch) (g' : G) :
  sample_arms b arms size g = Ok (xs, g') -> 0 < size /\ length xs = Z.to_nat size.
Proof.
  unfold sample_arms. intros Hs.
  destruct (sample_distr b size g) as [[data g1]|e]; simpl in Hs; [|done].
  unfold np_reshape_rows in Hs.
  case_decide as Hsize; simpl in Hs; [done|].
  case_decide as Hmod; simpl in Hs; [|done].
  destruct (select_columns arms (chunks _ _ data)) as [cols|e] eqn:Hsel;
    simpl in Hs; [|done].
  injection Hs as <- <-. split; [lia|].
  apply mapM_result_length in Hsel. by rewrite Hsel, length_chunks.
Qed.

Lemma dict_get_filter (Q : arm_pair -> Prop) `{!forall p, Decision (Q p)}
    (d : dict) (p : arm_pair) :
  dict_get (filter (fun kv : arm_pair * batch => Q kv.1) d) p
  = if decide (Q p) then dict_get d p else None.
Proof.
  induction d as [|[q v] d IH]; simpl.
  - by case_decide.
  - rewrite filter_cons. simpl. destruct (decide (Q q)) as [Hq|Hq]; simpl.
    + destruct (decide (q = p)) as [->|Hne].
      * by destruct (decide (Q p)); rewrite ?decide_True.
      * apply IH.
    + destruct (decide (q = p)) as [->|Hne].
      * rewrite IH. by destruct (decide (Q p)).
      * apply IH.
Qed.

Lemma elem_of_set_iter `{PySet} (X : gset arm_pair) (p : arm_pair) :
  p ∈ set_iter X <-> p ∈ X.
Proof. by rewrite (set_iter_perm X), elem_of_elements. Qed.

Lemma NoDup_set_iter `{PySet} (X : gset arm_pair) : NoDup (set_iter X).
Proof. rewrite (set_iter_perm X). apply NoDup_elements. Qed.

Section PhaseInvariants.
Context `{PySet} {G : Type}.

Lemma sr_phase_counts_inv (b : bandit G) (t : Z) st g st' g' (n : Z) :
  0 <= n -> 0 <= t ->
  counts_inv n st -> sr_phase b t st g = Ok (st', g') -> counts_inv (n + t) st'.
Proof.
  intros Hn Ht [Hst Hall] Hph.
  apply sr_phase_inv in Hph as (d & vals & Hsp & _ & Hel).
  apply sr_eliminate_spec in Hel as (r & v & m & _ & _ & _ & ->).
  set (B' := st_B st ∖ {[r]}).
  (* the dictionary after the draws of the phase *)
  assert (Hd : (forall p xs, dict_get d p = Some xs ->
                  p ∈ st_A st /\ 0 < n + t /\ length xs = Z.to_nat (n + t)) /\
               (0 < n + t -> forall p, p ∈ st_A st -> is_Some (dict_get d p))).
  { destruct (decide (t = 0)) as [->|Hne].
    - rewrite sample_pairs_zero in Hsp. injection Hsp as <- <-.
      rewrite Z.add_0_r. by split.
    - pose proof (sample_pairs_accumulates b t (set_iter (st_A st))
                    (st_arms_dict st) d g g') as Hacc.
      assert (Hold : forall p, p ∈ st_A st ->
                exists xs, dict_get d p = Some xs /\ length xs = Z.to_nat (n + t)).
      { intros p Hp.
        destruct (Hacc p Hne (NoDup_set_iter _) Hsp) as [_ Hin].
        destruct Hin as (xs & g1 & g2 & Hdraw & Hget); [by apply elem_of_set_iter|].
        apply sample_arms_rows in Hdraw as [_ Hrows].
        eexists. split; [done|]. rewrite length_app, Hrows.
        destruct (dict_get (st_arms_dict st) p) as [old|] eqn:Hold; simpl.
        - destruct (Hst p old Hold) as (_ & _ & ->). lia.
        - destruct (decide (0 < n)) as [Hpos|Hzero]; [|lia].
          destruct (Hall Hpos p Hp) as [old Hsome]. congruence. }
      split.
      + intros p xs Hget.
        destruct (decide (p ∈ st_A st)) as [Hp|Hp].
        * destruct (Hold p Hp) as (xs' & Hget' & Hlen).
          split; [done|]. split; [lia|]. congruence.
        * destruct (Hacc p Hne (NoDup_set_iter _) Hsp) as [Hout _].
          rewrite Hout in Hget by (by rewrite elem_of_set_iter).
          by destruct (Hst p xs Hget) as (? & _).
      + intros _ p Hp. destruct (Hold p Hp) as (xs & -> & _). by eexists. }
  destruct Hd as [Hd1 Hd2].
  split; simpl.
  - intros p xs Hget.
    rewrite (dict_get_filter (touches B')) in Hget.
    case_decide as Htouch; [|done].
    destruct (Hd1 p xs Hget) as (Hp & Hpos & Hlen).
    split; [|done]. by apply elem_of_filter.
  - intros Hpos p Hp. apply elem_of_filter in Hp as [Htouch Hp].
    rewrite (dict_get_filter (touches B')), decide_True by done.
    by apply Hd2.
Qed.

Lemma total_nonneg (ts : list Z) : Forall (fun t => 0 <= t) ts -> 0 <= total ts.
Proof.
  induction 1 as [|t ts Ht _ IH]; unfold total in *; simpl; lia.
Qed.

Lemma sr_loop_counts_inv (b : bandit G) (ts : list Z) :
  forall st g st' g' (n : Z),
  0 <= n -> Forall (fun t => 0 <= t) ts ->
  counts_inv n st -> sr_loop b ts st g = Ok (st', g') ->
  counts_inv (n + total ts) st'.
Proof.
  induction ts as [|t ts IH]; intros st g st' g' n Hn Hts Hinv Hloop;
    simpl in Hloop.
  - injection Hloop as <- <-. simpl. by rewrite Z.add_0_r.
  - apply Forall_cons in Hts as [Ht Hts].
    destruct (sr_phase b t st g) as [[st1 g1]|e] eqn:Hph; simpl in Hloop; [|done].
    change (total (t :: ts)) with (t + total ts). rewrite Z.add_assoc.
    eapply IH; [lia|done| |done]. by eapply sr_phase_counts_inv.
Qed.

Lemma counts_inv_init (K : nat) : counts_inv 0 (sr_init K).
Proof. split; simpl; [done | lia]. Qed.

(** X3: whenever the loop of Successive Rejects has run [k] phases, [B]
    holds [K - k] arms, [A] is exactly the set of pairs [i < j < K] with
    an arm in [B], and [A] has [K(K-1)/2 - k(k-1)/2] pairs: a pair is
    dropped only when both its arms are rejected. *)
Theorem active_pairs_after_phases (b : bandit G) (ts : list Z) g st g' :
  sr_loop b ts (sr_init (num_arms b)) g = Ok (st, g') ->
  let K := num_arms b in
  let k := length ts in
  (size (st_B st) + k = K)%nat /\
  (forall p, p ∈ st_A st <->
             (p.1 < p.2 < K)%nat /\ (p.1 ∈ st_B st \/ p.2 ∈ st_B st)) /\
  2 * Z.of_nat (size (st_A st))
  = Z.of_nat K * (Z.of_nat K - 1) - Z.of_nat k * (Z.of_nat k - 1).
Proof.
  intros Hloop K k.
  pose proof (sr_loop_pairs_inv b ts K _ g st g' 0%nat (pairs_inv_init K) Hloop)
    as [HB Hsize HA Hcount].
  simpl in Hsize, Hcount. fold k in Hsize, Hcount.
  split; [done|]. split; [|done].
  intros p. rewrite HA, elem_of_filter, elem_of_list_to_set, elem_of_all_pairs.
  unfold touches. tauto.
Qed.

(** X4: whenever the loop of Successive Rejects has run phases with
    increments [ts], none negative, every batch stored in [arms_dict]
    belongs to a pair of [A] and holds exactly [Σ ts] joint draws, and
    once a draw was made every pair of [A] has its batch: the pairs that
    are still sampled all hold the same cumulative number of
    observations. *)
Theorem batches_hold_cumulative_counts (b : bandit G) (ts : list Z) g st g' :
  Forall (fun t => 0 <= t) ts ->
  sr_loop b ts (sr_init (num_arms b)) g = Ok (st, g') ->
  (forall p xs, dict_get (st_arms_dict st) p = Some xs ->
     p ∈ st_A st /\ length xs = Z.to_nat (total ts)) /\
  (0 < total ts ->
   forall p, p ∈ st_A st -> is_Some (dict_get (st_arms_dict st) p)).
Proof.
  intros Hts Hloop.
  destruct (sr_loop_counts_inv b ts _ g st g' 0 ltac:(lia) Hts
              (counts_inv_init (num_arms b)) Hloop) as [Hst Hall].
  rewrite Z.add_0_l in Hst, Hall. split; [|done].
  intros p xs Hget. by destruct (Hst p xs Hget) as (? & _ & ?).
Qed.

End PhaseInvariants.

Lemma replay_loop :
  @sr_loop elements_order unit replay_bandit [4] (sr_init 2) tt
  = Ok (replay_after, tt).
Proof. simpl. by rewrite replay_phase. Qed.

Lemma active_pairs_after_phases_witness :
  @sr_loop elements_order unit replay_bandit [4] (sr_init 2) tt
  = Ok (replay_after, tt) /\
  (size (st_B replay_after) + 1 = 2)%nat /\
  2 * Z.of_nat (size (st_A replay_after)) = 2 * (2 - 1) - 1 * (1 - 1).
Proof.
  split; [exact replay_loop|].
  destruct (@active_pairs_after_phases elements_order unit replay_bandit [4] tt
              replay_after tt replay_loop) as (Hsize & _ & Hcount).
  by split.
Defined.

Lemma batches_hold_cumulative_counts_witness :
  Forall (fun t => 0 <= t) [4] /\
  @sr_loop elements_order unit replay_bandit [4] (sr_init 2) tt
  = Ok (replay_after, tt) /\
  forall p xs, dict_get (st_arms_dict replay_after) p = Some xs ->
    p ∈ st_A replay_after /\ length xs = 4%nat.
Proof.
  assert (Forall (fun t => 0 <= t) [4]) as Hts by (constructor; [lia | constructor]).
  split; [exact Hts|]. split; [exact replay_loop|].
  destruct (@batches_hold_cumulative_counts elements_order unit replay_bandit [4] tt
              replay_after tt Hts replay_loop) as [Hst _].
  exact Hst.
Defined.

(** ** The statistics of the samples *)

(** One pass of the loop of [sample_stats] for a pair of arms inside the
    shape: the entries it writes, the later write winning. *)
Lemma stats_step_entries (K : nat) (em ev ec : matrix) (a b : nat) (xs : batch) :
  has_shape K K em -> has_shape K K ev -> has_shape K K ec ->
  (a < K)%nat -> (b < K)%nat -> Forall (fun row => length row = 2%nat) xs ->
  exists em' ev' ec',
    stats_step (em, ev, ec) ((a, b), xs) = Ok (em', ev', ec') /\
    has_shape K K em' /\ has_shape K K ev' /\ has_shape K K ec' /\
    (forall p q,
       mat_get em' p q
       = if decide (p = b /\ q = a) then np_mean (column 1 xs)
         else if decide (p = a /\ q = b) then np_mean (column 0 xs)
         else mat_get em p q) /\
    (forall p q,
       mat_get ev' p q
       = if decide (p = b /\ q = a) then np_var (column 1 xs)
         else if decide (p = a /\ q = b) then np_var (column 0 xs)
         else mat_get ev p q) /\
    (forall p q,
       mat_get ec' p q
       = if decide ((p = b /\ q = a) \/ (p = a /\ q = b))
         then np_corrcoef01 (column 0 xs) (column 1 xs)
         else mat_get ec p q).
Proof.
  intros Hem Hev Hec Ha Hb Hrows.
  unfold stats_step. rewrite (unpack2_ok xs Hrows), bind_Ok.
  set (x := column 0 xs). set (y := column 1 xs).
  destruct (mat_set_spec K K em a b (np_mean x) Hem Ha Hb) as (em1 & -> & Hem1 & He1).
  rewrite bind_Ok.
  destruct (mat_set_spec K K em1 b a (np_mean y) Hem1 Hb Ha) as (em2 & -> & Hem2 & He2).
  rewrite bind_Ok.
  destruct (mat_set_spec K K ev a b (np_var x) Hev Ha Hb) as (ev1 & -> & Hev1 & Hg1).
  rewrite bind_Ok.
  destruct (mat_set_spec K K ev1 b a (np_var y) Hev1 Hb Ha) as (ev2 & -> & Hev2 & Hg2).
  rewrite bind_Ok. cbv zeta.
  destruct (mat_set_spec K K ec a b (np_corrcoef01 x y) Hec Ha Hb)
    as (ec1 & -> & Hec1 & Hc1).
  rewrite bind_Ok.
  destruct (mat_set_spec K K ec1 b a (np_corrcoef01 x y) Hec1 Hb Ha)
    as (ec2 & -> & Hec2 & Hc2).
  rewrite bind_Ok.
  exists em2, ev2, ec2. split; [done|]. do 3 (split; [done|]).
  split; [|split]; intros p q.
  - rewrite He2, He1. done.
  - rewrite Hg2, Hg1. done.
  - rewrite Hc2, Hc1. repeat case_decide; try done; tauto.
Qed.

Lemma mat_set_index_error (n m : nat) (M : matrix) (i j : nat) (v : R) :
  has_shape n m M -> (n <= i)%nat \/ (m <= j)%nat ->
  mat_set M i j v = Raise IndexError.
Proof.
  intros [Hn Hm] Hij. unfold mat_set.
  destruct (M !! i) as [row|] eqn:Hrow; [|done].
  assert (length row = m) as Hlen.
  { rewrite Forall_forall in Hm. apply Hm. by eapply list_elem_of_lookup_2. }
  apply lookup_lt_Some in Hrow.
  rewrite decide_False by lia. done.
Qed.

(** A pair with an arm outside the shape stops the loop at its first
    assignment. *)
Lemma stats_step_index_error (K : nat) (em ev ec : matrix) (a b : nat) (xs : batch) :
  has_shape K K em ->
  (K <= a)%nat \/ (K <= b)%nat -> Forall (fun row => length row = 2%nat) xs ->
  stats_step (em, ev, ec) ((a, b), xs) = Raise IndexError.
Proof.
  intros Hem Hab Hrows.
  unfold stats_step. rewrite (unpack2_ok xs Hrows), bind_Ok.
  by rewrite (mat_set_index_error K K em a b _ Hem Hab).
Qed.

Lemma foldlM_cons {A B} (f : A -> B -> result A) (a : A) (x : B) (l : list B) :
  foldlM f a (x :: l) = f a x ≫= fun a' => foldlM f a' l.
Proof. reflexivity. Qed.

Lemma stats_fold_entries (K : nat) (d : dict) :
  forall em ev ec,
  has_shape K K em -> has_shape K K ev -> has_shape K K ec ->
  Forall (valid_item K) d ->
  NoDup ((fun kv => unordered kv.1) <$> d) ->
  exists em' ev' ec',
    foldlM stats_step (em, ev, ec) d = Ok (em', ev', ec') /\
    has_shape K K em' /\ has_shape K K ev' /\ has_shape K K ec' /\
    (forall a b xs, ((a, b), xs) ∈ d ->
       mat_get em' a b = np_mean (column 0 xs) /\
       mat_get em' b a = np_mean (column 1 xs) /\
       mat_get ev' a b = np_var (column 0 xs) /\
       mat_get ev' b a = np_var (column 1 xs) /\
       mat_get ec' a b = np_corrcoef01 (column 0 xs) (column 1 xs) /\
       mat_get ec' b a = np_corrcoef01 (column 0 xs) (column 1 xs)) /\
    (forall p q, unordered (p, q) ∉ (fun kv => unordered kv.1) <$> d ->
       mat_get em' p q = mat_get em p q /\
       mat_get ev' p q = mat_get ev p q /\
       mat_get ec' p q = mat_get ec p q).
Proof.
  induction d as [|[[a b] xs] d IH]; intros em ev ec Hem Hev Hec Hvalid Hnd.
  - exists em, ev, ec. split; [done|]. do 3 (split; [done|]).
    split; [|done]. intros a b xs Hin. by apply elem_of_nil in Hin.
  - apply Forall_cons in Hvalid as [Hitem Hvalid].
    rewrite fmap_cons in Hnd. apply NoDup_cons in Hnd as [Hfresh Hnd].
    simpl in Hfresh.
    destruct Hitem as (Ha & Hb & Hab & Hne & Hrows).
    simpl in Ha, Hb, Hab, Hne, Hrows.
    destruct (stats_step_entries K em ev ec a b xs Hem Hev Hec Ha Hb Hrows)
      as (em1 & ev1 & ec1 & Hstep & Hem1 & Hev1 & Hec1 & He & Hv & Hc).
    destruct (IH em1 ev1 ec1 Hem1 Hev1 Hec1 Hvalid Hnd)
      as (em2 & ev2 & ec2 & Hfold & Hem2 & Hev2 & Hec2 & Hin2 & Hout2).
    exists em2, ev2, ec2. split.
    { by rewrite foldlM_cons, Hstep, bind_Ok. }
    do 3 (split; [done|]). split.
    + intros a' b' xs' Hin. apply elem_of_cons in Hin as [Heq|Hin].
      * injection Heq as -> -> ->.
        destruct (Hout2 a b Hfresh) as (-> & -> & ->).
        assert (unordered (b, a) ∉ (fun kv : arm_pair * batch => unordered kv.1) <$> d)
          as Hfresh' by (by rewrite unordered_swap).
        destruct (Hout2 b a Hfresh') as (-> & -> & ->).
        rewrite !He, !Hv, !Hc.
        repeat split; repeat case_decide; first [done | exfalso; intuition lia].
      * by apply Hin2.
    + intros p q Hpq. rewrite fmap_cons, not_elem_of_cons in Hpq.
      destruct Hpq as [Hpq Hrest]. simpl in Hpq.
      destruct (Hout2 p q Hrest) as (-> & -> & ->).
      rewrite He, Hv, Hc.
      assert (~ (p = a /\ q = b)) by (intros [-> ->]; done).
      assert (~ (p = b /\ q = a)) by (intros [-> ->]; by rewrite unordered_swap in Hpq).
      repeat split; repeat case_decide; first [done | exfalso; tauto].
Qed.

Lemma sample_stats_np_entries (K : nat) (d : dict) :
  valid_pair_samples K d ->
  exists em ev ec,
    sample_stats d K = Ok (em, ev, ec) /\
    has_shape K K em /\ has_shape K K ev /\ has_shape K K ec /\
    (forall a b xs, ((a, b), xs) ∈ d ->
       mat_get em a b = np_mean (column 0 xs) /\
       mat_get em b a = np_mean (column 1 xs) /\
       mat_get ev a b = np_var (column 0 xs) /\
       mat_get ev b a = np_var (column 1 xs) /\
       mat_get ec a b = np_corrcoef01 (column 0 xs) (column 1 xs) /\
       mat_get ec b a = np_corrcoef01 (column 0 xs) (column 1 xs)) /\
    (forall p q, unordered (p, q) ∉ (fun kv => unordered kv.1) <$> d ->
       mat_get em p q = 0%R /\ mat_get ev p q = 0%R /\ mat_get ec p q = 0%R).
Proof.
  intros [Hvalid Hnd]. unfold sample_stats.
  destruct (stats_fold_entries K d (np_zeros2 K K) (np_zeros2 K K) (np_zeros2 K K))
    as (em & ev & ec & Hfold & Hem & Hev & Hec & Hin & Hout);
    try apply has_shape_zeros; try done.
  exists em, ev, ec. split; [done|]. do 3 (split; [done|]). split; [done|].
  intros p q Hpq. destruct (Hout p q Hpq) as (-> & -> & ->).
  by rewrite !mat_get_zeros.
Qed.



Lemma stats_fold_range (K : nat) (d : dict) :
  Forall (fun kv : arm_pair * batch =>
            Forall (fun row => length row = 2%nat) kv.2) d ->
  forall em ev ec,
  has_shape K K em -> has_shape K K ev -> has_shape K K ec ->
  (Forall (fun kv : arm_pair * batch => (kv.1.1 < K)%nat /\ (kv.1.2 < K)%nat) d ->
   exists em' ev' ec', foldlM stats_step (em, ev, ec) d = Ok (em', ev', ec') /\
     has_shape K K em' /\ has_shape K K ev' /\ has_shape K K ec') /\
  (Exists (fun kv : arm_pair * batch => (K <= kv.1.1)%nat \/ (K <= kv.1.2)%nat) d ->
   foldlM stats_step (em, ev, ec) d = Raise IndexError).
Proof.
  induction 1 as [|[[a b] xs] d Hxs Hrows IH]; intros em ev ec Hem Hev Hec.
  - split; [|by intros ?%Exists_nil]. intros _. by exists em, ev, ec.
  - simpl in Hxs. rewrite foldlM_cons.
    destruct (decide ((a < K)%nat /\ (b < K)%nat)) as [[Ha Hb]|Hbad].
    + destruct (stats_step_entries K em ev ec a b xs Hem Hev Hec Ha Hb Hxs)
        as (em1 & ev1 & ec1 & -> & Hem1 & Hev1 & Hec1 & _).
      rewrite bind_Ok. destruct (IH em1 ev1 ec1 Hem1 Hev1 Hec1) as [IH1 IH2].
      split.
      * intros [_ Hall]%Forall_cons. by apply IH1.
      * intros [Hhead|Htail]%Exists_cons; [simpl in Hhead; lia | by apply IH2].
    + rewrite (stats_step_index_error K em ev ec a b xs Hem) by (done || lia).
      split; [|done]. intros [Hhead _]%Forall_cons. simpl in Hhead. tauto.
Qed.

(** X6: [sample_stats] on batches of two-valued draws succeeds when both
    arms of every pair are below [num_arms], and raises [IndexError] as
    soon as a pair names an arm that is not. *)
Theorem sample_stats_index_error (K : nat) (d : dict) :
  Forall (fun kv : arm_pair * batch =>
            Forall (fun row => length row = 2%nat) kv.2) d ->
  (Forall (fun kv : arm_pair * batch => (kv.1.1 < K)%nat /\ (kv.1.2 < K)%nat) d ->
   exists em ev ec, sample_stats d K = Ok (em, ev, ec) /\
     has_shape K K em /\ has_shape K K ev /\ has_shape K K ec) /\
  (Exists (fun kv : arm_pair * batch => (K <= kv.1.1)%nat \/ (K <= kv.1.2)%nat) d ->
   sample_stats d K = Raise IndexError).
Proof.
  intros Hrows. unfold sample_stats.
  apply (stats_fold_range K d Hrows); apply has_shape_zeros.
Qed.

Lemma sample_stats_index_error_witness :
  Forall (fun kv : arm_pair * batch =>
            Forall (fun row => length row = 2%nat) kv.2)
         [((0%nat, 5%nat), [[1; 2]]%R)] /\
  sample_stats [((0%nat, 5%nat), [[1; 2]]%R)] 2 = Raise IndexError.
Proof.
  assert (Forall (fun kv : arm_pair * batch =>
                    Forall (fun row => length row = 2%nat) kv.2)
                 [((0%nat, 5%nat), [[1; 2]]%R)]) as Hrows
    by (repeat constructor).
  split; [exact Hrows|].
  apply (sample_stats_index_error 2 _ Hrows).
  apply Exists_cons_hd. simpl. right. lia.
Defined.

(** ** The estimator of one arm *)

Lemma mapM_result_map {A B} (f : A -> result B) (g : A -> B) (l : list A) :
  (forall x, x ∈ l -> f x = Ok (g x)) -> mapM f l = Ok (map g l).
Proof.
  induction l as [|x l IH]; intros Hf; [done|].
  simpl. rewrite (Hf x) by left. simpl. rewrite IH; [done|].
  intros y Hy. apply Hf. by right.
Qed.

Lemma mat_lookup_ok (n m : nat) (M : matrix) (i j : nat) :
  has_shape n m M -> (i < n)%nat -> (j < m)%nat ->
  mat_lookup M i j = Ok (mat_get M i j).
Proof.
  intros [Hn Hm] Hi Hj. unfold mat_lookup, mat_get, vec_get.
  destruct (lookup_lt_is_Some_2 M i) as [row Hrow]; [lia|]. rewrite Hrow.
  assert (length row = m) as Hlen.
  { rewrite Forall_forall in Hm. apply Hm. by eapply list_elem_of_lookup_2. }
  destruct (lookup_lt_is_Some_2 row j) as [x Hx]; [lia|]. rewrite Hx.
  by rewrite (nth_lookup_Some _ _ _ _ Hrow), (nth_lookup_Some _ _ _ _ Hx).
Qed.

Lemma mse_arm_sum (K : nat) (evars ecorrs : matrix) (i : nat) :
  has_shape K K evars -> has_shape K K ecorrs -> (i < K)%nat ->
  mse_arm i evars ecorrs
  = Ok (sum_over (filter (fun p => p ≠ i) (seq 0 K))
          (fun p => mat_get evars p i * (1 - mat_get ecorrs p i ^ 2))%R).
Proof.
  intros Hev Hec Hi. unfold mse_arm. rewrite (proj1 Hec).
  rewrite (mapM_result_map _
             (fun p => mat_get evars p i * (1 - mat_get ecorrs p i ^ 2))%R).
  - rewrite bind_Ok. f_equal.
    change (fold_left Rplus ?l 0%R) with (np_sum l). apply np_sum_map.
  - intros p Hp. apply list_elem_of_filter in Hp as [_ Hp].
    apply elem_of_seq in Hp.
    rewrite (mat_lookup_ok K K evars p i Hev) by lia. rewrite bind_Ok.
    rewrite (mat_lookup_ok K K ecorrs p i Hec) by lia. by rewrite bind_Ok.
Qed.

(** X7: on the statistics that [sample_stats] computes for a map of
    [valid_pair_samples], the per-arm function [mse_arm] returns, for
    every arm [i], the entry [i] of the vector of [mse]: the correlations
    are symmetric and no variance is written on the diagonal. *)
Theorem mse_arm_agrees_with_mse (K : nat) (d : dict) (i : nat) :
  valid_pair_samples K d -> (i < K)%nat ->
  exists em ev ec v vals,
    sample_stats d K = Ok (em, ev, ec) /\
    mse_arm i ev ec = Ok v /\
    mse d K = Ok vals /\ vals !! i = Some v.
Proof.
  intros Hvalid Hi.
  destruct (sample_stats_np_entries K d Hvalid)
    as (em & ev & ec & Hrun & Hem & Hev & Hec & Hin & Hout).
  exists em, ev, ec. eexists. eexists. split; [done|].
  split; [by apply (mse_arm_sum K)|].
  unfold mse. rewrite Hrun, bind_Ok. cbv beta iota. split; [done|].
  rewrite mse_of_stats_row_sum by done. rewrite tabulate_lookup by done.
  f_equal. unfold row_sum. rewrite sum_over_filter_ne.
  apply sum_over_ext. intros p Hp. apply elem_of_seq in Hp.
  destruct Hvalid as [Hitems Hnd].
  assert (Hdiag : mat_get ev i i = 0%R).
  { destruct (Hout i i) as (_ & ? & _); [|done].
    intros Hkey. apply list_elem_of_fmap in Hkey as ([[a b] xs] & Heq & Hitem).
    rewrite Forall_forall in Hitems.
    destruct (Hitems _ Hitem) as (_ & _ & Hab & _). simpl in Hab, Heq.
    unfold unordered in Heq. simpl in Heq. injection Heq as H1 H2. lia. }
  assert (Hsym : mat_get ec i p = mat_get ec p i).
  { destruct (decide (unordered (i, p) ∈ (fun kv : arm_pair * batch => unordered kv.1) <$> d))
      as [Hkey|Hkey].
    - apply list_elem_of_fmap in Hkey as ([[a b] xs] & Heq & Hitem).
      destruct (Hin a b xs Hitem) as (_ & _ & _ & _ & Hab & Hba).
      unfold unordered in Heq. simpl in Heq. injection Heq as H1 H2.
      assert ((i = a /\ p = b) \/ (i = b /\ p = a)) as [[-> ->]|[-> ->]] by lia;
        congruence.
    - destruct (Hout i p Hkey) as (_ & _ & ->).
      rewrite <- unordered_swap in Hkey.
      by destruct (Hout p i Hkey) as (_ & _ & ->). }
  case_decide as Hpi.
  - subst p. rewrite Hdiag. ring.
  - rewrite Hsym. ring.
Qed.

Lemma mse_arm_agrees_with_mse_witness :
  valid_pair_samples 2 two_draws /\ (0 < 2)%nat /\
  exists em ev ec v vals,
    sample_stats two_draws 2 = Ok (em, ev, ec) /\
    mse_arm 0 ev ec = Ok v /\
    mse two_draws 2 = Ok vals /\ vals !! 0%nat = Some v.
Proof.
  split; [exact two_draws_valid|]. split; [lia|].
  apply (mse_arm_agrees_with_mse 2 two_draws 0 two_draws_valid). lia.
Defined.

(** ** The order of the pairs *)

Lemma sum_over_perm {A} (l l' : list A) (f : A -> R) :
  l ≡ₚ l' -> sum_over l f = sum_over l' f.
Proof.
  induction 1 as [|x l l' _ IH|x y l|l l' l'' _ IH1 _ IH2]; simpl.
  - done.
  - by rewrite IH.
  - lra.
  - by rewrite IH1.
Qed.

Lemma valid_pair_samples_perm (K : nat) (d d' : dict) :
  d ≡ₚ d' -> valid_pair_samples K d -> valid_pair_samples K d'.
Proof.
  intros Hp [Hitems Hnd]. split.
  - by rewrite <- Hp.
  - by rewrite <- Hp.
Qed.

(** X8: the vector of [mse] does not depend on the order in which the
    pairs were inserted into the map: two maps of [valid_pair_samples]
    with the same items give the same estimates. *)
Theorem mse_insertion_order (K : nat) (d d' : dict) :
  valid_pair_samples K d -> d ≡ₚ d' -> mse d' K = mse d K.
Proof.
  intros Hvalid Hp.
  rewrite (mse_np_estimate K d Hvalid).
  rewrite (mse_np_estimate K d' (valid_pair_samples_perm K d d' Hp Hvalid)).
  f_equal. apply tabulate_ext. intros i _. unfold np_estimate.
  symmetry. by apply sum_over_perm.
Qed.

Lemma two_pairs_valid : valid_pair_samples 3 two_pairs.
Proof.
  split.
  - repeat constructor; simpl; lia || done.
  - simpl. apply NoDup_cons. split; [|apply NoDup_singleton].
    intros Hin. apply list_elem_of_singleton in Hin. discriminate Hin.
Qed.

Lemma mse_insertion_order_witness :
  valid_pair_samples 3 two_pairs /\ two_pairs ≡ₚ reverse two_pairs /\
  mse (reverse two_pairs) 3 = mse two_pairs 3.
Proof.
  assert (two_pairs ≡ₚ reverse two_pairs) as Hp by (symmetry; apply reverse_Permutation).
  split; [exact two_pairs_valid|]. split; [exact Hp|].
  exact (mse_insertion_order 3 two_pairs (reverse two_pairs) two_pairs_valid Hp).
Defined.

(** ** The range of the estimates *)

Lemma cauchy_schwarz_step (S A B u v : R) :
  (S * S <= A * B -> 0 <= A -> 0 <= B -> 2 * u * v * S <= u * u * B + A * v * v)%R.
Proof.
  intros HS HA HB.
  set (x := (2 * u * v * S)%R). set (y := (u * u * B + A * v * v)%R).
  assert (0 <= y)%R as Hy.
  { unfold y. pose proof (Rle_0_sqr u). pose proof (Rle_0_sqr v).
    unfold Rsqr in *. nra. }
  assert (x * x <= y * y)%R as Hxy.
  { assert (y * y - x * x
            = (u * u * B - A * v * v) * (u * u * B - A * v * v)
              + 4 * ((u * v) * (u * v) * (A * B - S * S)))%R as Hid
      by (unfold x, y; ring).
    pose proof (Rle_0_sqr (u * u * B - A * v * v)) as H1.
    pose proof (Rle_0_sqr (u * v)) as H2. unfold Rsqr in H1, H2.
    assert (0 <= (u * v) * (u * v) * (A * B - S * S))%R
      by (apply Rmult_le_pos; lra).
    lra. }
  destruct (Rle_dec x y) as [|Hgt]; [done|]. exfalso.
  assert (y < x)%R by lra. nra.
Qed.

Lemma cauchy_schwarz {A} (l : list A) (f g : A -> R) :
  (sum_over l (fun a => f a * g a) * sum_over l (fun a => f a * g a)
   <= sum_over l (fun a => f a * f a) * sum_over l (fun a => g a * g a))%R.
Proof.
  induction l as [|a l IH]; simpl; [lra|].
  set (S := sum_over l (fun a => f a * g a)%R) in *.
  set (P := sum_over l (fun a => f a * f a)%R) in *.
  set (Q := sum_over l (fun a => g a * g a)%R) in *.
  assert (0 <= P)%R as HP.
  { apply sum_over_nonneg. intros x. pose proof (Rle_0_sqr (f x)). by unfold Rsqr in *. }
  assert (0 <= Q)%R as HQ.
  { apply sum_over_nonneg. intros x. pose proof (Rle_0_sqr (g x)). by unfold Rsqr in *. }
  pose proof (cauchy_schwarz_step S P Q (f a) (g a) IH HP HQ) as Hstep.
  assert ((f a * f a + P) * (g a * g a + Q) - (f a * g a + S) * (f a * g a + S)
          = (f a * f a * Q + P * g a * g a - 2 * f a * g a * S) + (P * Q - S * S))%R
    as Hid by ring.
  lra.
Qed.

Lemma sum_over_zip_fst (x y : vec) (h : R -> R) :
  length x = length y ->
  sum_over (zip x y) (fun ab => h ab.1) = sum_over x h.
Proof.
  revert y. induction x as [|a x IH]; intros [|b y] Hlen; try done.
  simpl. rewrite IH; [done|]. simpl in Hlen. lia.
Qed.

Lemma sum_over_zip_snd (x y : vec) (h : R -> R) :
  length x = length y ->
  sum_over (zip x y) (fun ab => h ab.2) = sum_over y h.
Proof.
  revert y. induction x as [|a x IH]; intros [|b y] Hlen; try done.
  simpl. rewrite IH; [done|]. simpl in Hlen. lia.
Qed.

(** The squared deviations of observations that vary sum to a positive
    number. *)
Lemma variance_pos_sum (x : vec) :
  (0 < population_variance x)%R ->
  (0 < sum_over x (fun a => (a - arithmetic_mean x) ^ 2))%R.
Proof.
  unfold population_variance. intros Hpos.
  destruct x as [|a x].
  { simpl in Hpos. unfold Rdiv in Hpos. rewrite Rmult_0_l in Hpos. lra. }
  assert (0 < INR (length (a :: x)))%R as Hn by (apply lt_0_INR; simpl; lia).
  set (s := sum_over (a :: x) _) in *.
  destruct (Rlt_dec 0 s) as [|Hs]; [done|]. exfalso.
  assert (s <= 0)%R as Hle by lra.
  assert (s / INR (length (a :: x)) <= 0)%R; [|lra].
  unfold Rdiv. pose proof (Rinv_0_lt_compat _ Hn). nra.
Qed.

Lemma pearson_square_le_1 (x y : vec) :
  length x = length y ->
  (0 < population_variance x)%R -> (0 < population_variance y)%R ->
  (0 <= pearson x y ^ 2 <= 1)%R.
Proof.
  intros Hlen Hx%variance_pos_sum Hy%variance_pos_sum.
  unfold pearson.
  set (mx := arithmetic_mean x) in *. set (my := arithmetic_mean y) in *.
  set (sxx := sum_over x _) in *. set (syy := sum_over y _) in *.
  set (sxy := sum_over (zip x y) _).
  pose proof (cauchy_schwarz (zip x y) (fun ab => ab.1 - mx)%R (fun ab => ab.2 - my)%R)
    as Hcs.
  cbv beta in Hcs. fold sxy in Hcs.
  rewrite (sum_over_zip_fst x y (fun a => (a - mx) * (a - mx))%R Hlen) in Hcs.
  rewrite (sum_over_zip_snd x y (fun b => (b - my) * (b - my))%R Hlen) in Hcs.
  assert (sum_over x (fun a => (a - mx) * (a - mx))%R = sxx) as Hxx
    by (apply sum_over_ext; intros; ring).
  assert (sum_over y (fun b => (b - my) * (b - my))%R = syy) as Hyy
    by (apply sum_over_ext; intros; ring).
  rewrite Hxx, Hyy in Hcs.
  assert (0 < sxx * syy)%R as Hpos by (by apply Rmult_lt_0_compat).
  assert (0 < sqrt (sxx * syy))%R as Hsq by (by apply sqrt_lt_R0).
  assert ((sxy / sqrt (sxx * syy)) ^ 2 = sxy * sxy / (sxx * syy))%R as ->.
  { rewrite <- (sqrt_sqrt (sxx * syy)) at 2 by lra. field. lra. }
  split.
  - apply Rmult_le_pos; [|left; by apply Rinv_0_lt_compat].
    pose proof (Rle_0_sqr sxy). by unfold Rsqr in *.
  - apply (Rmult_le_reg_r (sxx * syy)); [done|].
    unfold Rdiv. rewrite Rmult_assoc, Rinv_l by lra. lra.
Qed.

Lemma np_estimate_doc (d : dict) (i : nat) : np_estimate d i = doc_estimate d i.
Proof.
  unfold np_estimate, doc_estimate.
  apply sum_over_ext. intros [[a b] xs] _. unfold np_pair_term, doc_pair_term.
  cbv zeta.
  assert (length (column 0 xs) = length (column 1 xs)) as Hlen
    by (unfold column; by rewrite !length_map).
  rewrite !np_var_population, (np_corrcoef01_pearson _ _ Hlen).
  repeat case_decide; ring.
Qed.

Lemma sum_over_le {A} (l : list A) (f g : A -> R) :
  (forall a, a ∈ l -> (f a <= g a)%R) -> (sum_over l f <= sum_over l g)%R.
Proof.
  induction l as [|a l IH]; intros Hfg; simpl; [lra|].
  assert (f a <= g a)%R by (apply Hfg; left).
  assert (sum_over l f <= sum_over l g)%R by (apply IH; intros; apply Hfg; by right).
  lra.
Qed.

(** X9: for a map of [valid_pair_samples] whose observations vary in
    both arms of every pair, every entry of the vector of [mse] is
    non-negative and at most the sum, over the pairs that involve the
    arm, of the estimated variance of the other arm: a squared Pearson
    coefficient lies between [0] and [1]. *)
Theorem mse_estimate_bounds (K : nat) (d : dict) :
  valid_pair_samples K d -> columns_vary d ->
  exists vals,
    mse d K = Ok vals /\ length vals = K /\
    forall i v, vals !! i = Some v ->
      (0 <= v <= sum_over d (doc_other_variance i))%R.
Proof.
  intros Hvalid Hvary.
  exists (tabulate K (np_estimate d)).
  split; [by apply mse_np_estimate|]. split; [apply tabulate_length|].
  intros i v Hv.
  assert (i < K)%nat as Hi
    by (apply lookup_lt_Some in Hv; by rewrite tabulate_length in Hv).
  rewrite tabulate_lookup in Hv by done. injection Hv as <-.
  rewrite np_estimate_doc. unfold doc_estimate.
  assert (forall item, item ∈ d ->
            (0 <= doc_pair_term i item <= doc_other_variance i item)%R) as Hterm.
  { intros [[a b] xs] Hin. unfold columns_vary in Hvary.
    rewrite Forall_forall in Hvary. destruct (Hvary _ Hin) as [Hv0 Hv1].
    simpl in Hv0, Hv1.
    assert (length (column 0 xs) = length (column 1 xs)) as Hlen
      by (unfold column; by rewrite !length_map).
    pose proof (pearson_square_le_1 _ _ Hlen Hv0 Hv1) as [Hr0 Hr1].
    unfold doc_pair_term, doc_other_variance. cbv zeta.
    repeat case_decide; try lra; nra. }
  split.
  - rewrite <- (sum_over_zero d (fun _ => 0%R)) by done.
    apply sum_over_le. intros item Hin. by apply Hterm.
  - apply sum_over_le. intros item Hin. by apply Hterm.
Qed.

Lemma replay_columns_vary : columns_vary replay_dict.
Proof.
  unfold columns_vary, replay_dict. constructor; [|constructor].
  cbn [snd]. rewrite replay_variance_0, replay_variance_1. lra.
Qed.

Lemma mse_estimate_bounds_witness :
  valid_pair_samples 2 replay_dict /\ columns_vary replay_dict /\
  exists vals,
    mse replay_dict 2 = Ok vals /\ length vals = 2%nat /\
    forall i v, vals !! i = Some v ->
      (0 <= v <= sum_over replay_dict (doc_other_variance i))%R.
Proof.
  split; [exact replay_dict_valid|]. split; [exact replay_columns_vary|].
  exact (mse_estimate_bounds 2 replay_dict replay_dict_valid replay_columns_vary).
Defined.

(** ** The analytic MSE and the best arm *)

Lemma gaussian_mse_lookup (K : nat) (cov : matrix) (i : nat) :
  valid_cov K cov -> (i < K)%nat ->
  GaussianBandit.mse cov !! i = Some (doc_true_mse K cov i).
Proof.
  intros [Hrows Hcols Hsym Hpos] Hi.
  rewrite (matrix_tabulate K K cov) at 1 by done.
  rewrite gaussian_mse_table, tabulate_lookup by done. f_equal.
  unfold doc_true_mse.
  rewrite sum_over_filter_ne. apply sum_over_ext. intros p Hp.
  apply elem_of_seq in Hp. simpl.
  assert (0 < mat_get cov i i)%R as Hvi by (apply Hpos; lia).
  assert (0 < mat_get cov p p)%R as Hvp by (apply Hpos; lia).
  assert (0 < sqrt (mat_get cov i i))%R as Hsi by (by apply sqrt_lt_R0).
  assert (0 < sqrt (mat_get cov p p))%R as Hsp by (by apply sqrt_lt_R0).
  destruct (decide (p = i)) as [->|Hne].
  - replace (mat_get cov i i / sqrt (mat_get cov i i) / sqrt (mat_get cov i i))%R
      with 1%R; [lra|].
    rewrite <- (sqrt_sqrt (mat_get cov i i)) at 1 by lra. field. lra.
  - unfold doc_rho, doc_var. rewrite sqrt_mult by lra.
    rewrite (Hsym p i) by lia. field. lra.
Qed.

Lemma length_gaussian_mse (K : nat) (cov : matrix) :
  has_shape K K cov -> length (GaussianBandit.mse cov) = K.
Proof.
  intros Hshape. rewrite (matrix_tabulate K K cov) by done.
  by rewrite gaussian_mse_table, tabulate_length.
Qed.

(** X10: the analytic MSE of every arm of a Gaussian bandit, whose
    covariance matrix is valid and obeys [cov(p,i)² <= Var(p) Var(i)],
    lies between [0] and the sum of the variances of the other arms. *)
Theorem gaussian_mse_bounds (K : nat) (cov : matrix) (i : nat) (v : R) :
  valid_cov K cov -> cov_bounded K cov ->
  GaussianBandit.mse cov !! i = Some v ->
  (0 <= v <= sum_over (filter (fun p => p ≠ i) (seq 0 K)) (doc_var cov))%R.
Proof.
  intros Hvalid Hbound Hv.
  assert (i < K)%nat as Hi.
  { apply lookup_lt_Some in Hv. rewrite (length_gaussian_mse K) in Hv; [done|].
    by destruct Hvalid. }
  rewrite (gaussian_mse_lookup K cov i Hvalid Hi) in Hv. injection Hv as <-.
  unfold doc_true_mse.
  assert (forall p, p ∈ filter (fun p => p ≠ i) (seq 0 K) ->
            (0 <= doc_var cov p * (1 - doc_rho cov p i ^ 2) <= doc_var cov p)%R)
    as Hterm.
  { intros p Hp. apply list_elem_of_filter in Hp as [_ Hp]. apply elem_of_seq in Hp.
    destruct Hvalid as [_ _ _ Hpos].
    assert (0 < mat_get cov i i)%R as Hvi by (apply Hpos; lia).
    assert (0 < mat_get cov p p)%R as Hvp by (apply Hpos; lia).
    assert (0 < mat_get cov p p * mat_get cov i i)%R as Hprod
      by (by apply Rmult_lt_0_compat).
    unfold doc_rho, doc_var.
    assert ((mat_get cov p i / sqrt (mat_get cov p p * mat_get cov i i)) ^ 2
            = mat_get cov p i * mat_get cov p i
              / (mat_get cov p p * mat_get cov i i))%R as ->.
    { assert (0 < sqrt (mat_get cov p p * mat_get cov i i))%R
        by (by apply sqrt_lt_R0).
      rewrite <- (sqrt_sqrt (mat_get cov p p * mat_get cov i i)) at 2 by lra.
      field. lra. }
    pose proof (Hbound p i ltac:(lia) Hi) as Hcs.
    set (q := (mat_get cov p i * mat_get cov p i
               / (mat_get cov p p * mat_get cov i i))%R).
    assert (0 <= q <= 1)%R as [Hq0 Hq1].
    { unfold q. split.
      - apply Rmult_le_pos; [|left; by apply Rinv_0_lt_compat].
        pose proof (Rle_0_sqr (mat_get cov p i)). by unfold Rsqr in *.
      - apply (Rmult_le_reg_r (mat_get cov p p * mat_get cov i i)); [done|].
        unfold Rdiv. rewrite Rmult_assoc, Rinv_l by lra. lra. }
    nra. }
  split.
  - rewrite <- (sum_over_zero (filter (fun p => p ≠ i) (seq 0 K)) (fun _ => 0%R)) by done.
    apply sum_over_le. intros p Hp. by apply Hterm.
  - apply sum_over_le. intros p Hp. by apply Hterm.
Qed.

Lemma S0_bounded : cov_bounded 4 S0.
Proof.
  intros i j Hi Hj.
  do 4 (destruct i as [|i];
        [do 4 (destruct j as [|j]; [unfold mat_get; simpl; lra|]); lia|]).
  lia.
Qed.

Lemma gaussian_mse_bounds_witness :
  valid_cov 4 S0 /\ cov_bounded 4 S0 /\
  GaussianBandit.mse S0 !! 0%nat = Some (259 / 100)%R /\
  (0 <= 259 / 100
   <= sum_over (filter (fun p => p ≠ 0%nat) (seq 0 4)) (doc_var S0))%R.
Proof.
  assert (GaussianBandit.mse S0 !! 0%nat = Some (259 / 100)%R) as Hv
    by (by rewrite gaussian_mse_S0).
  split; [exact S0_valid|]. split; [exact S0_bounded|]. split; [exact Hv|].
  exact (gaussian_mse_bounds 4 S0 0 _ S0_valid S0_bounded Hv).
Defined.

(** X11: [best_arm] of a Gaussian bandit with at least one arm and a
    valid covariance matrix returns the lowest index among the arms
    whose analytic MSE [Σ_{p≠i} Var(p)(1 − ρ(p,i)²)] is least. *)
Theorem best_arm_minimises_true_mse (K : nat) (cov : matrix) :
  valid_cov K cov -> (1 <= K)%nat ->
  exists a,
    best_arm (GaussianBandit.mse cov) = Ok a /\ (a < K)%nat /\
    forall i, (i < K)%nat ->
      (doc_true_mse K cov a <= doc_true_mse K cov i)%R /\
      (doc_true_mse K cov i = doc_true_mse K cov a -> (a <= i)%nat).
Proof.
  intros Hvalid HK.
  assert (length (GaussianBandit.mse cov) = K) as Hlen
    by (apply length_gaussian_mse; by destruct Hvalid).
  destruct (np_argmin_spec (GaussianBandit.mse cov)) as (a & v & Harg & Hv & Hmin).
  { intros Hnil. rewrite Hnil in Hlen. simpl in Hlen. lia. }
  assert (a < K)%nat as Ha by (apply lookup_lt_Some in Hv; lia).
  rewrite (gaussian_mse_lookup K cov a Hvalid Ha) in Hv. injection Hv as <-.
  exists a. split; [done|]. split; [done|].
  intros i Hi. apply Hmin. by apply gaussian_mse_lookup.
Qed.

Lemma best_arm_minimises_true_mse_witness :
  valid_cov 4 S0 /\ (1 <= 4)%nat /\
  exists a,
    best_arm (GaussianBandit.mse S0) = Ok a /\ (a < 4)%nat /\
    forall i, (i < 4)%nat ->
      (doc_true_mse 4 S0 a <= doc_true_mse 4 S0 i)%R /\
      (doc_true_mse 4 S0 i = doc_true_mse 4 S0 a -> (a <= i)%nat).
Proof.
  split; [exact S0_valid|]. split; [lia|].
  apply (best_arm_minimises_true_mse 4 S0 S0_valid). lia.
Defined.

(** ** The hardness [hbar] *)

Lemma fold_xadd_inf (l : list xfloat) : fold_left xadd l PosInf = PosInf.
Proof. induction l as [|x l IH]; [done | apply IH]. Qed.

Lemma py_sum_x_finite {A} (f : A -> R) (l : list A) :
  forall acc : R,
  (forall x, x ∈ l -> f x ≠ 0%R) ->
  fold_left xadd (map (fun x => np_recip (f x)) l) (Finite acc)
  = Finite (acc + sum_over l (fun x => 1 / f x))%R.
Proof.
  induction l as [|x l IH]; intros acc Hf; simpl.
  - f_equal. lra.
  - unfold np_recip at 2. destruct (Req_EM_T (f x) 0) as [Hz|Hnz].
    { exfalso. by apply (Hf x); [left|]. }
    simpl. rewrite IH by (intros y Hy; apply Hf; by right). f_equal. lra.
Qed.

Lemma py_sum_x_inf {A} (f : A -> R) (l : list A) :
  forall acc : xfloat,
  (exists x, x ∈ l /\ f x = 0%R) ->
  fold_left xadd (map (fun x => np_recip (f x)) l) acc = PosInf.
Proof.
  induction l as [|x l IH]; intros acc (y & Hy & Hz).
  - by apply elem_of_nil in Hy.
  - simpl. apply elem_of_cons in Hy as [->|Hy].
    + unfold np_recip at 2. destruct (Req_EM_T (f x) 0) as [_|Hnz]; [|done].
      replace (xadd acc PosInf) with PosInf by (by destruct acc).
      apply fold_xadd_inf.
    + apply IH. by exists y.
Qed.

Lemma elem_of_others (a : nat) (vals : vec) (i : nat) (v : R) :
  (i, v) ∈ others a vals <-> vals !! i = Some v /\ i ≠ a.
Proof.
  unfold others. rewrite list_elem_of_filter, elem_of_lookup_imap. simpl.
  split.
  - intros [Hne (j & y & Heq & Hl)]. by simplify_eq.
  - intros [Hl Hne]. split; [done|]. by exists i, v.
Qed.

(** X12: on a non-empty vector [hbar] returns the sum of
    [1/(v - m)²] over the arms other than the best arm, [m] being the
    least value, when no other arm attains [m]; when another arm ties
    with the best arm the sum is [inf]. *)
Theorem hbar_finite_iff_unique_best (mse_vals : vec) :
  mse_vals ≠ [] ->
  exists a m h,
    best_arm mse_vals = Ok a /\ mse_vals !! a = Some m /\
    hbar mse_vals = Ok h /\
    ((forall i v, mse_vals !! i = Some v -> i ≠ a -> v ≠ m) ->
     h = Finite (sum_over (others a mse_vals) (fun iv => 1 / (iv.2 - m) ^ 2))%R) /\
    ((exists i, i ≠ a /\ mse_vals !! i = Some m) -> h = PosInf).
Proof.
  intros Hne.
  destruct (np_argmin_spec mse_vals Hne) as (a & m & Harg & Hm & _).
  exists a, m, (py_sum_x (map (fun iv : nat * R => np_recip ((iv.2 - m) ^ 2))
                              (others a mse_vals))).
  split; [done|]. split; [done|]. split.
  { unfold hbar, best_arm. rewrite Harg, bind_Ok. fold (others a mse_vals).
    rewrite (mapM_result_map _ (fun iv : nat * R => np_recip ((iv.2 - m) ^ 2))).
    - by rewrite bind_Ok.
    - intros iv _. unfold vec_get. rewrite Hm. by rewrite bind_Ok. }
  split.
  - intros Huniq. unfold py_sum_x.
    rewrite (py_sum_x_finite (fun iv : nat * R => ((iv.2 - m) ^ 2)%R)).
    + f_equal. lra.
    + intros [i v] Hin. apply elem_of_others in Hin as [Hv Hia]. simpl.
      specialize (Huniq i v Hv Hia). intros Hz.
      apply Huniq. simpl in Hz. rewrite Rmult_1_r in Hz.
      apply Rmult_integral in Hz. lra.
  - intros (i & Hia & Hv). unfold py_sum_x.
    apply (py_sum_x_inf (fun iv : nat * R => ((iv.2 - m) ^ 2)%R)).
    exists (i, m). split; [by apply elem_of_others|]. simpl. ring.
Qed.

Lemma hbar_finite_iff_unique_best_witness :
  [4; 1; 1]%R ≠ [] /\
  exists a m h,
    best_arm [4; 1; 1]%R = Ok a /\ [4; 1; 1]%R !! a = Some m /\
    hbar [4; 1; 1]%R = Ok h /\
    ((exists i, i ≠ a /\ [4; 1; 1]%R !! i = Some m) -> h = PosInf).
Proof.
  assert ([4; 1; 1]%R ≠ []) as Hne by done.
  split; [exact Hne|].
  destruct (hbar_finite_iff_unique_best [4; 1; 1]%R Hne)
    as (a & m & h & Ha & Hm & Hh & _ & Hinf).
  by exists a, m, h.
Defined.

(** ** The columns that a sampling call returns *)

Lemma chunks_rows (w rows : nat) :
  forall l : vec,
  chunks w rows l = map (fun r => take w (drop (r * w) l)) (seq 0 rows).
Proof.
  induction rows as [|n IH]; intros l; [done|].
  cbn [chunks seq map]. rewrite Nat.mul_0_l, drop_0. f_equal.
  rewrite IH, <- seq_shift, map_map. apply map_ext. intros r.
  by rewrite drop_drop.
Qed.

Lemma select_columns_rows (w : nat) (arms : list nat) (data : vec) (rows : nat) :
  length data = (rows * w)%nat -> Forall (fun a => (a < w)%nat) arms ->
  select_columns arms (chunks w rows data)
  = Ok (map (fun r => map (fun a => nth (r * w + a) data 0%R) arms) (seq 0 rows)).
Proof.
  intros Hlen Harms. rewrite chunks_rows. unfold select_columns.
  rewrite (mapM_result_map _
             (fun row : vec => map (fun a => nth a row 0%R) arms)).
  - f_equal. rewrite map_map. apply map_ext_in. intros r Hr.
    apply in_seq in Hr. apply map_ext_in. intros a Ha.
    rewrite Forall_forall in Harms.
    assert (a < w)%nat as Haw by (apply Harms; by apply list_elem_of_In).
    assert (r * w + a < length data)%nat as Hin by nia.
    destruct (lookup_lt_is_Some_2 data (r * w + a) Hin) as [x Hx].
    rewrite (nth_lookup_Some _ _ _ _ Hx).
    apply nth_lookup_Some. by rewrite lookup_take_lt, lookup_drop.
  - intros row Hrow. apply list_elem_of_fmap in Hrow as (r & -> & Hr).
    apply elem_of_seq in Hr.
    apply mapM_result_map. intros a Ha.
    rewrite Forall_forall in Harms. specialize (Harms a Ha).
    assert (r * w + a < length data)%nat as Hin by nia.
    destruct (lookup_lt_is_Some_2 data (r * w + a) Hin) as [x Hx].
    assert (take w (drop (r * w) data) !! a = Some x) as Hlook
      by (by rewrite lookup_take_lt, lookup_drop).
    by rewrite Hlook, (nth_lookup_Some _ _ _ _ Hlook).
Qed.

(** X13: when the sampler answers a request for [size >= 1] joint draws
    with [size * num_arms] values, [sample_arms(arms, size)] returns
    [size] rows, and row [r] holds, for every requested arm [a] in the
    order of [arms], the value of arm [a] in the [r]-th draw; the
    generator state is the one the sampler left. *)
Theorem sample_arms_selects_columns {G} (b : bandit G) (arms : list nat) (size : Z)
    (g g' : G) (data : vec) :
  sample_distr b size g = Ok (data, g') ->
  0 < size -> length data = (Z.to_nat size * num_arms b)%nat ->
  Forall (fun a => (a < num_arms b)%nat) arms ->
  sample_arms b arms size g
  = Ok (map (fun r => map (fun a => nth (r * num_arms b + a) data 0%R) arms)
            (seq 0 (Z.to_nat size)), g').
Proof.
  intros Hdraw Hsize Hlen Harms. unfold sample_arms.
  rewrite Hdraw, bind_Ok. cbv beta iota.
  rewrite (np_reshape_rows_ok size (num_arms b) data Hsize Hlen), bind_Ok.
  by rewrite (select_columns_rows (num_arms b) arms data _ Hlen Harms), bind_Ok.
Qed.

Lemma sample_arms_selects_columns_witness :
  sample_distr replay_bandit 4 tt = Ok (concat replay_draws, tt) /\
  0 < 4 /\ length (concat replay_draws) = (Z.to_nat 4 * 2)%nat /\
  Forall (fun a => (a < 2)%nat) [1%nat; 0%nat] /\
  sample_arms replay_bandit [1%nat; 0%nat] 4 tt
  = Ok (map (fun r => map (fun a => nth (r * 2 + a) (concat replay_draws) 0%R)
                          [1%nat; 0%nat])
            (seq 0 4), tt).
Proof.
  assert (Forall (fun a => (a < 2)%nat) [1%nat; 0%nat]) as Harms
    by (repeat constructor).
  split; [reflexivity|]. split; [lia|]. split; [reflexivity|]. split; [exact Harms|].
  apply (sample_arms_selects_columns replay_bandit [1%nat; 0%nat] 4 tt tt
           (concat replay_draws)); [reflexivity | lia | reflexivity | exact Harms].
Defined.

Lemma np_reshape_rows_ragged (size : Z) (a : vec) :
  0 < size -> (length a `mod` Z.to_nat size ≠ 0)%nat ->
  np_reshape_rows size a = Raise ValueError.
Proof.
  intros Hsize Hmod. unfold np_reshape_rows.
  rewrite decide_False by lia. by rewrite decide_False.
Qed.

Lemma select_row_index_error (row : vec) (arms : list nat) :
  Exists (fun a => (length row <= a)%nat) arms ->
  mapM (fun a => match row !! a with
                 | Some x => Ok x
                 | None => Raise IndexError
                 end) arms = Raise IndexError.
Proof.
  induction arms as [|a arms IH]; intros Hex.
  - by apply Exists_nil in Hex.
  - simpl. destruct (row !! a) as [x|] eqn:Hx; [|done]. simpl.
    apply Exists_cons in Hex as [Hbad|Hex].
    + apply lookup_lt_Some in Hx. lia.
    + by rewrite IH.
Qed.

(** X14: the ways [sample_arms] fails once the sampler has answered:
    [ValueError] for a [size] that is not positive and for a number of
    values that [size] does not divide, [IndexError] for an arm beyond
    the width of the reshaped array. *)
Theorem sample_arms_failures {G} (b : bandit G) (arms : list nat) (size : Z)
    (g g' : G) (data : vec) :
  sample_distr b size g = Ok (data, g') ->
  (size <= 0 -> sample_arms b arms size g = Raise ValueError) /\
  (0 < size -> (length data `mod` Z.to_nat size ≠ 0)%nat ->
   sample_arms b arms size g = Raise ValueError) /\
  (forall w : nat,
     0 < size -> length data = (Z.to_nat size * w)%nat ->
     Exists (fun a => (w <= a)%nat) arms ->
     sample_arms b arms size g = Raise IndexError).
Proof.
  intros Hdraw. split; [|split].
  - intros Hsize. rewrite sample_arms_nonpos by done. by rewrite Hdraw.
  - intros Hsize Hmod. unfold sample_arms. rewrite Hdraw, bind_Ok. cbv beta iota.
    by rewrite np_reshape_rows_ragged.
  - intros w Hsize Hlen Hbad. unfold sample_arms.
    rewrite Hdraw, bind_Ok. cbv beta iota.
    rewrite (np_reshape_rows_ok size w data Hsize Hlen), bind_Ok.
    assert (exists n, Z.to_nat size = S n) as [n Hn] by (exists (Z.to_nat size - 1)%nat; lia).
    rewrite Hn in Hlen |- *. cbn [chunks]. unfold select_columns. cbn [mapM].
    rewrite select_row_index_error; [done|].
    assert (length (take w data) = w) as -> by (rewrite length_take; nia).
    done.
Qed.

Lemma sample_arms_failures_witness :
  sample_distr replay_bandit 4 tt = Ok (concat replay_draws, tt) /\
  sample_arms replay_bandit [0%nat; 2%nat] 4 tt = Raise IndexError.
Proof.
  split; [reflexivity|].
  destruct (sample_arms_failures replay_bandit [0%nat; 2%nat] 4 tt tt
              (concat replay_draws)) as (_ & _ & Hindex); [reflexivity|].
  apply (Hindex 2%nat); [lia | reflexivity |].
  apply Exists_cons_tl, Exists_cons_hd. lia.
Defined.

(** X23: without [arms], [sample_arms] selects the columns
    [0 .. len(multi_sample) - 1], where [len] is the first dimension of
    the array the sampler returned, not its number of arms [K]: it
    returns those leading columns of every draw when the first dimension
    is at most [K] and raises [IndexError] when it exceeds [K]. *)
Theorem sample_arms_none_leading_columns {G} (b : bandit G) (first_dim : nat)
    (size : Z) (g g' : G) (data : vec) :
  sample_distr b size g = Ok (data, g') ->
  0 < size -> length data = (Z.to_nat size * num_arms b)%nat ->
  ((first_dim <= num_arms b)%nat ->
   sample_arms_none b first_dim size g
   = Ok (map (fun r => map (fun a => nth (r * num_arms b + a) data 0%R)
                           (seq 0 first_dim))
             (seq 0 (Z.to_nat size)), g')) /\
  ((num_arms b < first_dim)%nat ->
   sample_arms_none b first_dim size g = Raise IndexError).
Proof.
  intros Hdraw Hsize Hlen. unfold sample_arms_none.
  rewrite Hdraw, bind_Ok. cbv beta iota zeta.
  rewrite (np_reshape_rows_ok size (num_arms b) data Hsize Hlen), bind_Ok.
  split.
  - intros Hdim.
    rewrite (select_columns_rows (num_arms b) (seq 0 first_dim) data _ Hlen).
    + by rewrite bind_Ok.
    + apply Forall_forall. intros a Ha. apply elem_of_seq in Ha. lia.
  - intros Hdim.
    assert (exists n, Z.to_nat size = S n) as [n Hn]
      by (exists (Z.to_nat size - 1)%nat; lia).
    rewrite Hn in Hlen |- *. cbn [chunks]. unfold select_columns. cbn [mapM].
    rewrite select_row_index_error; [done|].
    assert (length (take (num_arms b) data) = num_arms b) as ->
      by (rewrite length_take; nia).
    apply Exists_exists. exists (num_arms b). split; [|done].
    apply elem_of_seq. lia.
Qed.

Lemma sample_arms_none_leading_columns_witness :
  sample_distr replay_bandit 4 tt = Ok (concat replay_draws, tt) /\
  0 < 4 /\ length (concat replay_draws) = (Z.to_nat 4 * 2)%nat /\
  sample_arms_none replay_bandit 4 4 tt = Raise IndexError.
Proof.
  split; [reflexivity|]. split; [lia|]. split; [reflexivity|].
  destruct (sample_arms_none_leading_columns replay_bandit 4 4 tt tt
              (concat replay_draws)) as [_ Hbig];
    [reflexivity | lia | reflexivity |].
  apply Hbig. simpl. lia.
Defined.

(** ** Fewer than two arms *)

Lemma sr_ts_few_arms (budget : Z) (K : nat) :
  (K <= 1)%nat -> sr_ts budget (Z.of_nat K) = [].
Proof.
  intros HK. apply length_zero_iff_nil. rewrite length_sr_ts. lia.
Qed.

(** X15: with fewer than two arms neither allocator returns, whatever
    the budget and the sampler.  Uniform sampling divides by
    [K*(K-1) = 0] and raises [ZeroDivisionError]; Successive Rejects
    runs no phase, so that with one arm [min_mse] is unbound when it is
    read ([NameError]) and with no arm [B.pop()] finds [B] empty
    ([KeyError]). *)
Theorem allocators_need_two_arms `{PySet} {G : Type} (b : bandit G) (budget : Z)
    (g : G) :
  (num_arms b <= 1)%nat ->
  uniform_sampling b budget g = Raise ZeroDivisionError /\
  successive_rejects b budget g
  = Raise (if decide (num_arms b = 0%nat) then KeyError else NameError).
Proof.
  intros HK. split.
  - unfold uniform_sampling. cbv zeta. rewrite decide_True; [done|].
    destruct (num_arms b) as [|[|k]]; [done | done | lia].
  - unfold successive_rejects. cbv zeta. rewrite sr_ts_few_arms by done.
    cbn [sr_loop]. rewrite bind_Ok. cbv beta iota. unfold sr_finish.
    destruct (num_arms b) as [|[|k]] eqn:HKb; [| |lia].
    + cbn [sr_init st_B seq list_to_set].
      destruct (set_pop ∅) as [a|] eqn:Hpop; [|done].
      apply set_pop_elem in Hpop. by apply not_elem_of_empty in Hpop.
    + destruct (set_pop (st_B (sr_init 1))) as [a|] eqn:Hpop; [done|].
      apply set_pop_none in Hpop. exfalso.
      assert (0%nat ∈ st_B (sr_init 1)) as Hin
        by (simpl; apply elem_of_union_l, elem_of_singleton; done).
      rewrite Hpop in Hin. by apply not_elem_of_empty in Hin.
Qed.

Lemma allocators_need_two_arms_witness :
  (1 <= 1)%nat /\
  uniform_sampling (zero_bandit 1) 10 tt = Raise ZeroDivisionError /\
  @successive_rejects elements_order unit (zero_bandit 1) 10 tt = Raise NameError.
Proof.
  split; [lia|].
  apply (@allocators_need_two_arms elements_order unit (zero_bandit 1) 10 tt).
  simpl. lia.
Defined.

(** ** The shape of what the allocators return *)

Lemma mat_set_shape (n m : nat) (M M' : matrix) (i j : nat) (v : R) :
  has_shape n m M -> mat_set M i j v = Ok M' -> has_shape n m M'.
Proof.
  intros [Hn Hm] Hset. unfold mat_set in Hset.
  destruct (M !! i) as [row|] eqn:Hrow; [|done].
  case_decide as Hj; [|done]. injection Hset as <-.
  split; [by rewrite length_insert|].
  apply Forall_insert; [done|]. rewrite length_insert.
  rewrite Forall_forall in Hm. apply Hm. by eapply list_elem_of_lookup_2.
Qed.

Lemma stats_step_shape (K : nat) (em ev ec em' ev' ec' : matrix)
    (item : arm_pair * batch) :
  has_shape K K em -> has_shape K K ev -> has_shape K K ec ->
  stats_step (em, ev, ec) item = Ok (em', ev', ec') ->
  has_shape K K em' /\ has_shape K K ev' /\ has_shape K K ec'.
Proof.
  intros Hem Hev Hec Hstep. destruct item as [[i j] xs]. unfold stats_step in Hstep.
  destruct (unpack2 xs) as [[x y]|e]; simpl in Hstep; [|done].
  destruct (mat_set em i j _) as [em1|e] eqn:H1; simpl in Hstep; [|done].
  destruct (mat_set em1 j i _) as [em2|e] eqn:H2; simpl in Hstep; [|done].
  destruct (mat_set ev i j _) as [ev1|e] eqn:H3; simpl in Hstep; [|done].
  destruct (mat_set ev1 j i _) as [ev2|e] eqn:H4; simpl in Hstep; [|done].
  destruct (mat_set ec i j _) as [ec1|e] eqn:H5; simpl in Hstep; [|done].
  destruct (mat_set ec1 j i _) as [ec2|e] eqn:H6; simpl in Hstep; [|done].
  injection Hstep as <- <- <-.
  split; [|split]; eauto using mat_set_shape.
Qed.

Lemma stats_fold_shape (K : nat) (d : dict) :
  forall em ev ec em' ev' ec',
  has_shape K K em -> has_shape K K ev -> has_shape K K ec ->
  foldlM stats_step (em, ev, ec) d = Ok (em', ev', ec') ->
  has_shape K K em' /\ has_shape K K ev' /\ has_shape K K ec'.
Proof.
  induction d as [|item d IH]; intros em ev ec em' ev' ec' Hem Hev Hec Hfold.
  - by injection Hfold as <- <- <-.
  - rewrite foldlM_cons in Hfold.
    destruct (stats_step (em, ev, ec) item) as [[[em1 ev1] ec1]|e] eqn:Hstep;
      simpl in Hfold; [|done].
    destruct (stats_step_shape K _ _ _ _ _ _ item Hem Hev Hec Hstep)
      as (Hem1 & Hev1 & Hec1).
    exact (IH em1 ev1 ec1 em' ev' ec' Hem1 Hev1 Hec1 Hfold).
Qed.

Lemma length_mse (K : nat) (d : dict) (vals : vec) :
  mse d K = Ok vals -> length vals = K.
Proof.
  unfold mse, sample_stats. intros Hmse.
  destruct (foldlM stats_step _ d) as [[[em ev] ec]|e] eqn:Hfold;
    simpl in Hmse; [|done].
  injection Hmse as <-.
  destruct (stats_fold_shape K d _ _ _ _ _ _
              (has_shape_zeros K K) (has_shape_zeros K K) (has_shape_zeros K K) Hfold)
    as (_ & Hev & Hec).
  by rewrite mse_of_stats_row_sum, tabulate_length.
Qed.

(** X16: whenever an allocator returns, for any bandit, budget and
    sampler, the chosen arm is an index below [num_arms] and the vector
    of estimates returned with it has [num_arms] entries. *)
Theorem allocators_return_shape `{PySet} {G : Type} (b : bandit G) (budget : Z)
    (g g' : G) (arm : nat) (ests : vec) :
  uniform_sampling b budget g = Ok ((arm, ests), g') \/
  successive_rejects b budget g = Ok ((arm, ests), g') ->
  (arm < num_arms b)%nat /\ length ests = num_arms b.
Proof.
  intros [Hun|Hsr].
  - unfold uniform_sampling in Hun. cbv zeta in Hun.
    case_decide; [done|].
    destruct (foldlM _ _ _) as [[d g1]|e]; simpl in Hun; [|done].
    destruct (mse d (num_arms b)) as [vals|e] eqn:Hmse; simpl in Hun; [|done].
    destruct (np_argmin vals) as [a|e] eqn:Harg; simpl in Hun; [|done].
    injection Hun as <- <- <-.
    apply length_mse in Hmse. split; [|done].
    destruct (np_argmin_spec vals) as (a' & v & Harg' & Hv & _).
    { intros ->. done. }
    rewrite Harg in Harg'. injection Harg' as <-.
    apply lookup_lt_Some in Hv. lia.
  - apply successive_rejects_inv in Hsr as (st & Hloop & Hfin).
    apply sr_loop_frame in Hloop as (Hsub & Hlen & _).
    apply sr_finish_inv in Hfin as (m & Harm & _ & ->).
    split.
    + apply Hsub in Harm. simpl in Harm.
      apply elem_of_list_to_set, elem_of_seq in Harm. lia.
    + rewrite length_insert, Hlen. simpl. apply repeat_length.
Qed.

Lemma allocators_return_shape_witness :
  @successive_rejects elements_order unit replay_bandit 5 tt
  = Ok ((1%nat, [4; 1]%R), tt) /\
  (1 < 2)%nat /\ length [4; 1]%R = 2%nat.
Proof.
  split; [exact replay_run|].
  apply (@allocators_return_shape elements_order unit replay_bandit 5 tt tt
           1%nat [4; 1]%R).
  right. exact replay_run.
Defined.

(** ** More on the schedule *)

Lemma range_elem (a b k : Z) : k ∈ range a b <-> a <= k < b.
Proof.
  unfold range. rewrite list_elem_of_In, in_map_iff. split.
  - intros (i & <- & Hi). apply in_seq in Hi. lia.
  - intros Hk. exists (Z.to_nat (k - a)). split; [lia|]. apply in_seq. lia.
Qed.

(** X17: [sr_trials(n, K)] returns [K - 1] counts (none for [K <= 1])
    and never divides by zero: every divisor [K - j] of the sum in [ck]
    and every divisor [ck * (K+1-k)] of the ceiling divisions is
    positive. *)
Theorem sr_trials_divisors_positive (n K : Z) :
  length (sr_trials n K) = Z.to_nat (K - 1) /\
  Forall (fun j => 0 < K - j) (range 1 (K - 1)) /\
  Forall (fun k => (0 < sr_ck K * inject_Z (K + 1 - k))%Q) (range 1 K).
Proof.
  split; [|split].
  - unfold sr_trials. cbv zeta. by rewrite length_map, length_range.
  - apply Forall_forall. intros j Hj. apply range_elem in Hj. lia.
  - apply Forall_forall. intros k Hk. apply range_elem in Hk.
    apply Qmult_lt_0_compat.
    + rewrite sr_ck_weighted_logbar. apply weighted_logbar_pos. lia.
    + apply inject_Z_pos. lia.
Qed.


Lemma total_take_diffs (l : list Z) :
  forall (a : Z) (k : nat),
  (k <= length l)%nat -> total (take k (diffs a l)) = nth k (a :: l) 0 - a.
Proof.
  induction l as [|b l IH]; intros a k Hk.
  - simpl in Hk. replace k with 0%nat by lia. simpl. lia.
  - destruct k as [|k]; [simpl; lia|].
    simpl in Hk. change (diffs a (b :: l)) with ((b - a) :: diffs b l).
    cbn [take]. change (total ((b - a) :: take k (diffs b l)))
      with ((b - a) + total (take k (diffs b l))).
    rewrite IH by lia. cbn [nth]. lia.
Qed.

(** X19: the increments of the phases add up to the cumulative counts:
    [ts[0] + ... + ts[k-1] = ns[k]] for every [k <= K - 1]; with at
    least two arms and a budget of at least [K(K-1)/2] no increment and
    no cumulative count is negative. *)
Theorem increments_sum_to_cumulative_counts (budget : Z) (K k : nat) :
  (k <= K - 1)%nat ->
  total (take k (sr_ts budget (Z.of_nat K))) = nth k (sr_ns budget (Z.of_nat K)) 0 /\
  ((2 <= K)%nat -> Z.of_nat K * (Z.of_nat K - 1) <= 2 * budget ->
   Forall (fun t => 0 <= t) (sr_ts budget (Z.of_nat K)) /\
   0 <= nth k (sr_ns budget (Z.of_nat K)) 0).
Proof.
  intros Hk.
  assert (total (take k (sr_ts budget (Z.of_nat K)))
          = nth k (sr_ns budget (Z.of_nat K)) 0) as Hsum.
  { unfold sr_ts. cbv zeta. unfold sr_ns. rewrite np_subtract_diffs.
    rewrite total_take_diffs; [lia|].
    unfold sr_trials. cbv zeta. rewrite length_map, length_range. lia. }
  split; [done|]. intros HK Hb.
  pose proof (sr_ts_nonneg budget K HK Hb) as Hts. split; [done|].
  rewrite <- Hsum. apply total_nonneg. by apply Forall_take.
Qed.

Lemma increments_sum_to_cumulative_counts_witness :
  (3 <= 4 - 1)%nat /\
  total (take 3 (sr_ts 50000 (Z.of_nat 4))) = nth 3 (sr_ns 50000 (Z.of_nat 4)) 0.
Proof.
  split; [lia|].
  apply (increments_sum_to_cumulative_counts 50000 4 3). lia.
Defined.

(** ** Uncorrelated arms *)

(** X20: an arm of a Gaussian bandit that is uncorrelated with every
    other arm has the largest analytic MSE the bounds allow: the sum of
    the variances of the other arms. *)
Theorem gaussian_mse_uncorrelated_arm (K : nat) (cov : matrix) (i : nat) :
  valid_cov K cov -> (i < K)%nat ->
  (forall p, (p < K)%nat -> p ≠ i -> mat_get cov p i = 0%R) ->
  GaussianBandit.mse cov !! i
  = Some (sum_over (filter (fun p => p ≠ i) (seq 0 K)) (doc_var cov)).
Proof.
  intros Hvalid Hi Hzero.
  rewrite (gaussian_mse_lookup K cov i Hvalid Hi). f_equal.
  unfold doc_true_mse. apply sum_over_ext. intros p Hp.
  apply list_elem_of_filter in Hp as [Hne Hp]. apply elem_of_seq in Hp.
  unfold doc_rho. rewrite (Hzero p) by (lia || done).
  unfold Rdiv. rewrite Rmult_0_l. ring.
Qed.

Lemma eye2_valid : valid_cov 2 eye2.
Proof.
  split.
  - done.
  - repeat constructor.
  - intros i j Hi Hj.
    do 2 (destruct i as [|i];
          [do 2 (destruct j as [|j]; [unfold mat_get; simpl; lra|]); lia|]).
    lia.
  - intros i Hi.
    do 2 (destruct i as [|i]; [unfold mat_get; simpl; lra|]). lia.
Qed.

Lemma gaussian_mse_uncorrelated_arm_witness :
  valid_cov 2 eye2 /\ (0 < 2)%nat /\
  (forall p, (p < 2)%nat -> p ≠ 0%nat -> mat_get eye2 p 0 = 0%R) /\
  GaussianBandit.mse eye2 !! 0%nat
  = Some (sum_over (filter (fun p => p ≠ 0%nat) (seq 0 2)) (doc_var eye2)).
Proof.
  assert (forall p, (p < 2)%nat -> p ≠ 0%nat -> mat_get eye2 p 0 = 0%R) as Hzero.
  { intros p Hp Hne. destruct p as [|[|p]]; [done | reflexivity | lia]. }
  split; [exact eye2_valid|]. split; [lia|]. split; [exact Hzero|].
  apply (gaussian_mse_uncorrelated_arm 2 eye2 0 eye2_valid); [lia | exact Hzero].
Defined.

(** ** An arm outside the statistics *)

Lemma mat_lookup_index_error (n m : nat) (M : matrix) (i j : nat) :
  has_shape n m M -> (n <= i)%nat \/ (m <= j)%nat ->
  mat_lookup M i j = Raise IndexError.
Proof.
  intros [Hn Hm] Hij. unfold mat_lookup.
  destruct (M !! i) as [row|] eqn:Hrow; [|done].
  assert (length row = m) as Hlen.
  { rewrite Forall_forall in Hm. apply Hm. by eapply list_elem_of_lookup_2. }
  apply lookup_lt_Some in Hrow.
  unfold vec_get. rewrite lookup_ge_None_2 by lia. done.
Qed.

(** X21: [mse_arm(i, evars, ecorrs)] on [K x K] matrices, [K >= 1],
    raises [IndexError] for an arm [i >= K], at the first entry
    [evars[0, i]] it reads. *)
Theorem mse_arm_index_error (K : nat) (evars ecorrs : matrix) (i : nat) :
  has_shape K K evars -> has_shape K K ecorrs ->
  (1 <= K)%nat -> (K <= i)%nat ->
  mse_arm i evars ecorrs = Raise IndexError.
Proof.
  intros Hev Hec HK Hi. unfold mse_arm. rewrite (proj1 Hec).
  destruct K as [|k]; [lia|].
  cbn [seq]. rewrite filter_cons_True by lia. cbn [mapM].
  by rewrite (mat_lookup_index_error (S k) (S k) evars 0 i Hev) by lia.
Qed.

Lemma mse_arm_index_error_witness :
  has_shape 2 2 eye2 /\ (1 <= 2)%nat /\ (2 <= 5)%nat /\
  mse_arm 5 eye2 eye2 = Raise IndexError.
Proof.
  assert (has_shape 2 2 eye2) as Hshape by (split; [done | repeat constructor]).
  split; [exact Hshape|]. split; [lia|]. split; [lia|].
  apply (mse_arm_index_error 2 eye2 eye2 5 Hshape Hshape); lia.
Defined.

(** ** The schedule and the budget *)

Lemma closed_form_n_budget_monotone (n n' K k : Z) :
  2 <= K -> k <= K -> n <= n' ->
  closed_form_n (weighted_logbar K) n K k <= closed_form_n (weighted_logbar K) n' K k.
Proof.
  intros HK Hk Hn. unfold closed_form_n. apply Qceiling_resp_le.
  unfold Qdiv. apply Qmult_le_compat_r.
  - assert (inject_Z n <= inject_Z n')%Q by (by rewrite <- Zle_Qle).
    set (h := (inject_Z (K * (K - 1)) * / 2)%Q). Lqa.lra.
  - apply Qinv_le_0_compat, Qlt_le_weak, Qmult_lt_0_compat.
    + by apply weighted_logbar_pos.
    + apply inject_Z_pos. lia.
Qed.

Lemma nth_map_le (f f' : Z -> Z) (l : list Z) :
  forall j : nat,
  (forall k, k ∈ l -> f k <= f' k) -> nth j (map f l) 0 <= nth j (map f' l) 0.
Proof.
  induction l as [|a l IH]; intros j Hf.
  - destruct j; simpl; lia.
  - destruct j as [|j]; simpl.
    + apply Hf. left.
    + apply IH. intros k Hk. apply Hf. by right.
Qed.

(** X22: the schedule is monotone in the budget: with at least two arms
    a larger budget gives no cumulative count [ns[k]] that is smaller. *)
Theorem sr_ns_monotone_in_budget (n n' K : Z) (k : nat) :
  2 <= K -> n <= n' -> nth k (sr_ns n K) 0 <= nth k (sr_ns n' K) 0.
Proof.
  intros HK Hn. unfold sr_ns. destruct k as [|j]; [simpl; lia|]. cbn [nth].
  assert (forall m, sr_trials m K
                    = map (closed_form_n (weighted_logbar K) m K) (range 1 K)) as Htr.
  { intros m. apply map_ext. intros i. apply sr_trials_closed_form. }
  rewrite !Htr. apply nth_map_le. intros i Hi. apply range_elem in Hi.
  apply closed_form_n_budget_monotone; lia.
Qed.

Lemma sr_ns_monotone_in_budget_witness :
  2 <= 4 /\ 40000 <= 50000 /\
  nth 3 (sr_ns 40000 4) 0 <= nth 3 (sr_ns 50000 4) 0.
Proof.
  split; [lia|]. split; [lia|].
  apply (sr_ns_monotone_in_budget 40000 50000 4 3); lia.
Defined.

(** ** The statistic that ranks the arms in a phase *)

Section PhaseStatistic.
Context `{PySet} {G : Type}.


End PhaseStatistic.

